(** * The WAVM runtime Table subsystem (Lib/Runtime/Table.cpp)

    A shallow embedding of the table object of the runtime: the biased
    element encoding, creation, growth, checked reads and writes, the bulk
    operations behind the [table.*] intrinsics and the global registry used
    to resolve faulting addresses.

    Pointers are machine words ([Z] wrapped to the width of [Uptr]); the
    null pointer is [0].  The slots of a table are a finite map from the
    element index to the stored word; an index that was never stored to
    reads as the zero word, the contents of a freshly reserved page.
    Threads are not modelled: every atomic access is a plain access and the
    compare-and-swap of a write succeeds at its first attempt. *)

From Stdlib Require Import ZArith Lia List Bool.
From stdpp Require Import gmap list.
From Stdlib Require Import Ascii.
From stdpp Require Import strings.

Open Scope Z_scope.

(** ** IR types used by the table (WAVM/IR/Types.h, WAVM/IR/Module.h) *)

Module IR.

Inductive ReferenceType := funcref | anyref | nullref.

Record SizeConstraints := { min : Z; max : Z }.

Record TableType := {
  elementType : ReferenceType;
  isShared : bool;
  size : SizeConstraints
}.

(** An entry of an element segment: [Elem::Type::ref_null], or
    [Elem::Type::ref_func] with the index of a function of the module. *)
Inductive Elem := ref_null | ref_func (index : Z).

End IR.

(** ** The host

    Everything the file takes from its collaborators: the width of [Uptr],
    the platform's page size and virtual-memory calls, the limit
    [IR::maxTableElems], and the addresses of the two dummy functions that
    [getOutOfBoundsElement] and [getUninitializedElement] create on first
    use.  The virtual-memory calls are oracles: [allocateVirtualPages n] is
    the base address the platform answers for a reservation of [n] pages
    ([0] when it fails), [commitVirtualPages a n] tells whether committing
    [n] pages at address [a] succeeds. *)

Class Host := {
  uptrBits : Z;
  getPageSizeLog2 : Z;
  allocateVirtualPages : Z -> Z;
  commitVirtualPages : Z -> Z -> bool;
  maxTableElems : Z;
  outOfBoundsFunction : Z;
  uninitializedFunction : Z
}.

(** ** Machine integers *)

Definition Uptr `{Host} (x : Z) : Z := x mod 2 ^ uptrBits.
Definition U64 (x : Z) : Z := x mod 2 ^ 64.
Definition U32 (x : Z) : Z := x mod 2 ^ 32.
Definition I32 (x : Z) : Z := (x + 2 ^ 31) mod 2 ^ 32 - 2 ^ 31.

Definition UINTPTR_MAX `{Host} : Z := 2 ^ uptrBits - 1.
Definition INT32_MAX : Z := 2 ^ 31 - 1.

(** [Uptr(x) << n] and [Uptr(x) >> n].  C++ defines a shift only for a
    count below the width of the type: [shiftDefined n] tells whether a
    shift of a [Uptr] by [n] is, and [Uptr_shl] is the value it then has. *)
Definition shiftDefined `{Host} (n : Z) : bool := (0 <=? n) && (n <? uptrBits).
Definition Uptr_shl `{Host} (x n : Z) : Z := Uptr (Z.shiftl x n).
Definition Uptr_shr (x n : Z) : Z := Z.shiftr x n.

(** [branchlessMin] of WAVM/Inline/BasicTypes.h: the minimum, computed
    without a branch. *)
Definition branchlessMin (a b : Z) : Z := Z.min a b.

(** ** Exceptions and results *)

Inductive ExceptionType :=
| outOfBoundsTableAccess
| uninitializedTableElement
| indirectCallSignatureMismatch
| invalidArgument
| outOfBoundsElemSegmentAccess.

(** The outcome of a call that may [throwException]; the arguments an
    exception carries (the table, the index) are left out. *)
Inductive Result (A : Type) :=
| Ok (a : A)
| Throw (e : ExceptionType).
Arguments Ok {A} a.
Arguments Throw {A} e.

(** Modelled from the spec: [Runtime::unwindSignalsAsExceptions] is defined
    with the exception bridge, outside this file.  It runs the thunk and
    turns a hardware fault raised inside it into an exception; a load or
    store of the model never faults (a reserved slot reads as its word), so
    the thunk's own outcome is the outcome. *)
Definition unwindSignalsAsExceptions {A : Type} (thunk : A) : A := thunk.

(** ** Resource quota *)

(** Modelled from the spec: [ResourceQuota] is declared in RuntimePrivate.h.
    [allocate] charges [delta] against the quota and is denied when the
    charge would exceed the maximum; [free] refunds [delta]. *)
Record CurrentAndMax := { current : Z; maxValue : Z }.

Definition allocate (q : CurrentAndMax) (delta : Z) : option CurrentAndMax :=
  if current q + delta <=? maxValue q
  then Some {| current := current q + delta; maxValue := maxValue q |}
  else None.

Definition free (q : CurrentAndMax) (delta : Z) : CurrentAndMax :=
  {| current := current q - delta; maxValue := maxValue q |}.

Record ResourceQuota := { tableElems : CurrentAndMax }.

(** ** The table object *)

(** The fields of [Runtime::Table] the operations read or write.
    [elements] is the base address of the reservation and [biasedValues]
    the memory it points to, [elements[i].biasedValue] by index [i]; the
    compartment, the debug name and the resizing mutex are left out. *)
Record Table := {
  id : Z;
  type : IR.TableType;
  elements : Z;
  numReservedBytes : Z;
  numReservedElements : Z;
  numElements : Z;
  resourceQuota : option ResourceQuota;
  biasedValues : gmap Z Z
}.

Definition withNumElements (n : Z) (t : Table) : Table :=
  {| id := id t; type := type t; elements := elements t;
     numReservedBytes := numReservedBytes t;
     numReservedElements := numReservedElements t;
     numElements := n; resourceQuota := resourceQuota t;
     biasedValues := biasedValues t |}.

Definition withResourceQuota (q : option ResourceQuota) (t : Table) : Table :=
  {| id := id t; type := type t; elements := elements t;
     numReservedBytes := numReservedBytes t;
     numReservedElements := numReservedElements t;
     numElements := numElements t; resourceQuota := q;
     biasedValues := biasedValues t |}.

Definition withReservation (base bytes elems : Z) (t : Table) : Table :=
  {| id := id t; type := type t; elements := base;
     numReservedBytes := bytes; numReservedElements := elems;
     numElements := numElements t; resourceQuota := resourceQuota t;
     biasedValues := biasedValues t |}.

Definition withId (i : Z) (t : Table) : Table :=
  {| id := i; type := type t; elements := elements t;
     numReservedBytes := numReservedBytes t;
     numReservedElements := numReservedElements t;
     numElements := numElements t; resourceQuota := resourceQuota t;
     biasedValues := biasedValues t |}.

(** [table->elements[index].biasedValue.load(...)] *)
Definition load (t : Table) (index : Z) : Z :=
  default 0 (biasedValues t !! index).

(** [table->elements[index].biasedValue.store(value, ...)] *)
Definition store (t : Table) (index value : Z) : Table :=
  {| id := id t; type := type t; elements := elements t;
     numReservedBytes := numReservedBytes t;
     numReservedElements := numReservedElements t;
     numElements := numElements t; resourceQuota := resourceQuota t;
     biasedValues := <[index := value]> (biasedValues t) |}.

(** Modelled from the spec: [Table::Element] is declared in
    RuntimePrivate.h; a slot is one word, an atomic [Uptr]. *)
Definition sizeofElement `{Host} : Z := uptrBits / 8.

Definition numGuardPages : Z := 1.

(** ** Sentinels and the biased encoding *)

Definition getOutOfBoundsElement `{Host} : Z := outOfBoundsFunction.
Definition getUninitializedElement `{Host} : Z := uninitializedFunction.

Definition objectToBiasedTableElementValue `{Host} (object : Z) : Z :=
  Uptr (object - getOutOfBoundsElement).

Definition biasedTableElementValueToObject `{Host} (biasedValue : Z) : Z :=
  Uptr (biasedValue + getOutOfBoundsElement).

(** ** Creation *)

Definition getNumPlatformPages `{Host} (numBytes : Z) : Z :=
  Uptr_shr (Uptr (Uptr (numBytes + Uptr_shl 1 getPageSizeLog2) - 1))
           getPageSizeLog2.

(** The table [new Table(compartment, type, debugName, resourceQuota)]
    builds: no elements, no reservation, not yet in a compartment. *)
Definition newTable `{Host} (type : IR.TableType)
    (resourceQuota : option ResourceQuota) : Table :=
  {| id := UINTPTR_MAX; type := type; elements := 0;
     numReservedBytes := 0; numReservedElements := 0; numElements := 0;
     resourceQuota := resourceQuota; biasedValues := ∅ |}.

Definition tableMaxElements `{Host} : Z := U64 (Uptr_shl 1 32).
Definition tableMaxBytes `{Host} : Z := U64 (sizeofElement * tableMaxElements).
Definition tableMaxPages `{Host} : Z := Z.shiftr tableMaxBytes getPageSizeLog2.

(** [createTableImpl], on the global list [tables].  The answer is [None]
    where the host leaves [Uptr(1) << 32] undefined; otherwise the new
    table ([None] for [nullptr]) and the list after the call. *)
Definition createTableImpl `{Host} (tables : list Table)
    (type : IR.TableType) (resourceQuota : option ResourceQuota)
    : option (option Table * list Table) :=
  if shiftDefined 32 then
    let table := newTable type resourceQuota in
    let table :=
      withReservation
        (allocateVirtualPages (Uptr (U64 (tableMaxPages + numGuardPages))))
        (Uptr tableMaxBytes) (Uptr tableMaxElements) table in
    if elements table =? 0 then Some (None, tables)
    else Some (Some table, tables ++ [table])
  else None.

(** ** Growth *)

(** The quota calls of [growTableImpl], on the table that holds the quota:
    [table->resourceQuota && !table->resourceQuota->tableElems.allocate(n)]
    and [if(table->resourceQuota) table->resourceQuota->tableElems.free(n)]. *)
Definition allocateTableElems (table : Table) (n : Z) : option Table :=
  match resourceQuota table with
  | None => Some table
  | Some q =>
      match allocate (tableElems q) n with
      | None => None
      | Some c => Some (withResourceQuota (Some {| tableElems := c |}) table)
      end
  end.

Definition freeTableElems (table : Table) (n : Z) : Table :=
  match resourceQuota table with
  | None => table
  | Some q => withResourceQuota (Some {| tableElems := free (tableElems q) n |}) table
  end.

(** [for(elementIndex = first; ...; ++elementIndex) elements[elementIndex]
    .biasedValue.store(value)], [count] iterations. *)
Fixpoint storeNewElements (count : nat) (elementIndex value : Z) (table : Table) : Table :=
  match count with
  | O => table
  | S count' => storeNewElements count' (elementIndex + 1) value (store table elementIndex value)
  end.

(** [growTableImpl]: the table after the call and, when the call returns
    [true], the value it writes to [*outOldNumElements]; [None] stands for
    [false]. *)
Definition growTableImpl `{Host} (table : Table) (numElementsToGrow : Z)
    (initializeNewElements : bool) (initializeToElement : Z)
    : Table * option Z :=
  if numElementsToGrow =? 0 then (table, Some (numElements table))
  else
    match allocateTableElems table numElementsToGrow with
    | None => (table, None)
    | Some table =>
        let oldNumElements := numElements table in
        if (numElementsToGrow >? IR.max (IR.size (type table)))
           || (oldNumElements >? U64 (IR.max (IR.size (type table)) - numElementsToGrow))
           || (numElementsToGrow >? maxTableElems)
           || (oldNumElements >? U64 (maxTableElems - numElementsToGrow))
        then (freeTableElems table numElementsToGrow, None)
        else
          let newNumElements := Uptr (oldNumElements + numElementsToGrow) in
          let previousNumPlatformPages :=
            getNumPlatformPages (Uptr (oldNumElements * sizeofElement)) in
          let newNumPlatformPages :=
            getNumPlatformPages (Uptr (newNumElements * sizeofElement)) in
          if negb (newNumPlatformPages =? previousNumPlatformPages)
             && negb (commitVirtualPages
                        (Uptr (elements table
                               + Uptr_shl previousNumPlatformPages getPageSizeLog2))
                        (Uptr (newNumPlatformPages - previousNumPlatformPages)))
          then (freeTableElems table numElementsToGrow, None)
          else
            let table :=
              if initializeNewElements then
                let biasedTableInitElement :=
                  objectToBiasedTableElementValue initializeToElement in
                storeNewElements (Z.to_nat (newNumElements - oldNumElements))
                                 oldNumElements biasedTableInitElement table
              else table in
            (withNumElements newNumElements table, Some oldNumElements)
    end.

Definition growTable `{Host} (table : Table) (numElementsToGrow : Z)
    (initialElement : Z) : Table * option Z :=
  growTableImpl table numElementsToGrow true initialElement.

(** ** The host API for creation *)

(** [Runtime::createTable] on the global list [tables].  [addedId] is the
    id [compartment->tables.add(UINTPTR_MAX, table)] hands out,
    [UINTPTR_MAX] when the compartment has none left.  A table that is
    deleted on the way leaves the global list as it was before
    [createTableImpl] pushed it.  The outer [None] is the undefined shift of
    [createTableImpl]. *)
Definition createTable `{Host} (tables : list Table) (type : IR.TableType)
    (element : Z) (resourceQuota : option ResourceQuota) (addedId : Z)
    : option (option Table * list Table) :=
  created ← createTableImpl tables type resourceQuota;
  match created with
  | (None, tables') => Some (None, tables')
  | (Some table, tables') =>
      let element := if element =? 0 then getUninitializedElement else element in
      match growTableImpl table (Uptr (IR.min (IR.size type))) true element with
      | (_, None) => Some (None, tables)
      | (table, Some _) =>
          if addedId =? UINTPTR_MAX then Some (None, tables)
          else
            let table := withId addedId table in
            Some (Some table, tables ++ [table])
      end
  end.

(** [for(elementIndex = first; ...; ++elementIndex)
      newTable->elements[elementIndex].biasedValue.store(
        table->elements[elementIndex].biasedValue.load())], [count] iterations. *)
Fixpoint copyElements (count : nat) (elementIndex : Z) (table newTable : Table) : Table :=
  match count with
  | O => newTable
  | S count' =>
      copyElements count' (elementIndex + 1) table
                   (store newTable elementIndex (load table elementIndex))
  end.

(** [Runtime::cloneTable].  The clone is charged to a quota of its own
    here, a copy of the state of the original's. *)
Definition cloneTable `{Host} (tables : list Table) (table : Table)
    : option (option Table * list Table) :=
  let numElements := numElements table in
  created ← createTableImpl tables (type table) (resourceQuota table);
  match created with
  | (None, tables') => Some (None, tables')
  | (Some newTable, tables') =>
      match growTableImpl newTable numElements false getUninitializedElement with
      | (_, None) => Some (None, tables)
      | (newTable, Some _) =>
          let newTable := copyElements (Z.to_nat numElements) 0 table newTable in
          let newTable := withId (id table) newTable in
          Some (Some newTable, tables ++ [newTable])
      end
  end.

(** ** Checked reads and writes *)

Definition getTableElementNonNull `{Host} (table : Table) (index : Z) : Result Z :=
  if index >=? numReservedElements table then Throw outOfBoundsTableAccess
  else
    let saturatedIndex :=
      Uptr (branchlessMin index (U64 (U64 (numReservedElements table) - 1))) in
    let biasedValue := load table saturatedIndex in
    let object := biasedTableElementValueToObject biasedValue in
    if object =? getOutOfBoundsElement then Throw outOfBoundsTableAccess
    else Ok object.

Definition setTableElementNonNull `{Host} (table : Table) (index object : Z)
    : Table * Result Z :=
  if index >=? numReservedElements table then (table, Throw outOfBoundsTableAccess)
  else
    let saturatedIndex :=
      Uptr (branchlessMin index (U64 (U64 (numReservedElements table) - 1))) in
    let biasedValue := objectToBiasedTableElementValue object in
    let oldBiasedValue := load table saturatedIndex in
    if biasedTableElementValueToObject oldBiasedValue =? getOutOfBoundsElement
    then (table, Throw outOfBoundsTableAccess)
    else (store table saturatedIndex biasedValue,
          Ok (biasedTableElementValueToObject oldBiasedValue)).

Definition setTableElement `{Host} (table : Table) (index newValue : Z)
    : Table * Result Z :=
  let newValue := if newValue =? 0 then getUninitializedElement else newValue in
  match unwindSignalsAsExceptions (setTableElementNonNull table index newValue) with
  | (table, Ok oldObject) =>
      (table, Ok (if oldObject =? getUninitializedElement then 0 else oldObject))
  | (table, Throw e) => (table, Throw e)
  end.

Definition getTableElement `{Host} (table : Table) (index : Z) : Result Z :=
  match unwindSignalsAsExceptions (getTableElementNonNull table index) with
  | Ok object => Ok (if object =? getUninitializedElement then 0 else object)
  | Throw e => Throw e
  end.

Definition getTableNumElements (table : Table) : Z := numElements table.

(** ** Loops that may throw *)

(** [for(Uptr index = first; ...; ++index) body], [count] iterations; an
    exception leaves the loop with the state reached so far, and [None] is
    a body that has no defined outcome. *)
Fixpoint forLoop {St : Type} (count : nat) (index : Z)
    (body : Z -> St -> option (St * Result unit)) (s : St)
    : option (St * Result unit) :=
  match count with
  | O => Some (s, Ok tt)
  | S count' =>
      match body index s with
      | Some (s', Ok _) => forLoop count' (index + 1) body s'
      | other => other
      end
  end.

(** ** Element segments *)

(** The part of a module instance [table.init] and [elem.drop] use: the
    function index space and the element segments, [None] once dropped. *)
Record ModuleInstance := {
  functions : list Z;
  elemSegments : list (option (list IR.Elem))
}.

(** One iteration of the loop of [Runtime::initElemSegment].  A validated
    module holds only function indices in range; an index out of range
    reads as null here. *)
Definition initElem `{Host} (moduleInstance : ModuleInstance)
    (elemVector : list IR.Elem) (destOffset sourceOffset : Z)
    (index : Z) (table : Table) : option (Table * Result unit) :=
  let sourceIndex := Uptr (sourceOffset + index) in
  let destIndex := Uptr (destOffset + index) in
  if (sourceIndex >=? Z.of_nat (length elemVector)) || (sourceIndex <? sourceOffset)
  then Some (table, Throw outOfBoundsElemSegmentAccess)
  else
    let elemObject :=
      match nth (Z.to_nat sourceIndex) elemVector IR.ref_null with
      | IR.ref_null => 0
      | IR.ref_func index => nth (Z.to_nat index) (functions moduleInstance) 0
      end in
    match setTableElement table destIndex elemObject with
    | (table, Ok _) => Some (table, Ok tt)
    | (table, Throw e) => Some (table, Throw e)
    end.

Definition initElemSegment `{Host} (moduleInstance : ModuleInstance)
    (elemVector : list IR.Elem) (table : Table)
    (destOffset sourceOffset numElems : Z) : option (Table * Result unit) :=
  forLoop (Z.to_nat numElems) 0
          (initElem moduleInstance elemVector destOffset sourceOffset) table.

(** ** The global list of tables *)

(** [Runtime::isAddressOwnedByTable] on the global list [tables]:
    [outTable] and [outTableIndex] when it returns [true]. *)
Fixpoint isAddressOwnedByTable `{Host} (tables : list Table) (address : Z)
    : option (Table * Z) :=
  match tables with
  | [] => None
  | table :: rest =>
      let startAddress := elements table in
      let endAddress := elements table + numReservedBytes table in
      if (address >=? startAddress) && (address <? endAddress)
      then Some (table, (address - startAddress) / sizeofElement)
      else isAddressOwnedByTable rest address
  end.

(** ** The intrinsics *)

(** What an intrinsic reaches through [contextRuntimeData]: the tables and
    the module instances of the compartment, by id.  A table is an object
    in this store, so that two ids naming one table share its slots. *)
Record ContextRuntimeData := {
  compartmentTables : gmap Z Table;
  compartmentModuleInstances : gmap Z ModuleInstance
}.

Definition getTableFromRuntimeData (contextRuntimeData : ContextRuntimeData)
    (tableId : Z) : option Table :=
  compartmentTables contextRuntimeData !! tableId.

Definition getModuleInstanceFromRuntimeData (contextRuntimeData : ContextRuntimeData)
    (moduleInstanceId : Z) : option ModuleInstance :=
  compartmentModuleInstances contextRuntimeData !! moduleInstanceId.

(** The store after the object behind [tableId] became [table]. *)
Definition putTable (contextRuntimeData : ContextRuntimeData) (tableId : Z)
    (table : Table) : ContextRuntimeData :=
  {| compartmentTables := <[tableId := table]> (compartmentTables contextRuntimeData);
     compartmentModuleInstances := compartmentModuleInstances contextRuntimeData |}.

Definition putModuleInstance (contextRuntimeData : ContextRuntimeData)
    (moduleInstanceId : Z) (moduleInstance : ModuleInstance) : ContextRuntimeData :=
  {| compartmentTables := compartmentTables contextRuntimeData;
     compartmentModuleInstances :=
       <[moduleInstanceId := moduleInstance]> (compartmentModuleInstances contextRuntimeData) |}.

(** [table.grow]: the store after the call and the [I32] it returns. *)
Definition table_grow `{Host} (contextRuntimeData : ContextRuntimeData)
    (initialValue deltaNumElements tableId : Z) : option (ContextRuntimeData * Z) :=
  table ← getTableFromRuntimeData contextRuntimeData tableId;
  match growTable table (Uptr deltaNumElements)
          (if initialValue =? 0 then getUninitializedElement else initialValue) with
  | (table, None) => Some (putTable contextRuntimeData tableId table, -1)
  | (table, Some oldNumElements) =>
      Some (putTable contextRuntimeData tableId table, I32 oldNumElements)
  end.

Definition table_size `{Host} (contextRuntimeData : ContextRuntimeData)
    (tableId : Z) : option Z :=
  table ← getTableFromRuntimeData contextRuntimeData tableId;
  Some (U32 (getTableNumElements table)).

Definition table_get `{Host} (contextRuntimeData : ContextRuntimeData)
    (index tableId : Z) : option (Result Z) :=
  table ← getTableFromRuntimeData contextRuntimeData tableId;
  Some (getTableElement table (Uptr index)).

Definition table_set `{Host} (contextRuntimeData : ContextRuntimeData)
    (index value tableId : Z) : option (ContextRuntimeData * Result unit) :=
  table ← getTableFromRuntimeData contextRuntimeData tableId;
  match setTableElement table (Uptr index) value with
  | (table, Ok _) => Some (putTable contextRuntimeData tableId table, Ok tt)
  | (table, Throw e) => Some (putTable contextRuntimeData tableId table, Throw e)
  end.

Definition table_init `{Host} (contextRuntimeData : ContextRuntimeData)
    (destIndex sourceIndex numElems moduleInstanceId tableId elemSegmentIndex : Z)
    : option (ContextRuntimeData * Result unit) :=
  moduleInstance ← getModuleInstanceFromRuntimeData contextRuntimeData moduleInstanceId;
  table ← getTableFromRuntimeData contextRuntimeData tableId;
  elemSegment ← elemSegments moduleInstance !! Z.to_nat elemSegmentIndex;
  match elemSegment with
  | None => Some (contextRuntimeData, Throw invalidArgument)
  | Some elemVector =>
      '(table, result) ← initElemSegment moduleInstance elemVector table
                           (Uptr destIndex) (Uptr sourceIndex) (Uptr numElems);
      Some (putTable contextRuntimeData tableId table, result)
  end.

Definition elem_drop (contextRuntimeData : ContextRuntimeData)
    (moduleInstanceId elemSegmentIndex : Z)
    : option (ContextRuntimeData * Result unit) :=
  moduleInstance ← getModuleInstanceFromRuntimeData contextRuntimeData moduleInstanceId;
  elemSegment ← elemSegments moduleInstance !! Z.to_nat elemSegmentIndex;
  match elemSegment with
  | None => Some (contextRuntimeData, Throw invalidArgument)
  | Some _ =>
      Some (putModuleInstance contextRuntimeData moduleInstanceId
              {| functions := functions moduleInstance;
                 elemSegments := <[Z.to_nat elemSegmentIndex := None]>
                                   (elemSegments moduleInstance) |},
            Ok tt)
  end.

(** One element step of [table.copy]:
    [setTableElementNonNull(destTable, destIndex,
       getTableElementNonNull(sourceTable, sourceIndex))],
    both tables read through the store at the moment of the step. *)
Definition copyElement `{Host} (sourceTableId destTableId : Z)
    (destIndex sourceIndex : Z) (contextRuntimeData : ContextRuntimeData)
    : option (ContextRuntimeData * Result unit) :=
  sourceTable ← getTableFromRuntimeData contextRuntimeData sourceTableId;
  match getTableElementNonNull sourceTable sourceIndex with
  | Throw e => Some (contextRuntimeData, Throw e)
  | Ok object =>
      destTable ← getTableFromRuntimeData contextRuntimeData destTableId;
      match setTableElementNonNull destTable destIndex object with
      | (destTable, Ok _) => Some (putTable contextRuntimeData destTableId destTable, Ok tt)
      | (destTable, Throw e) => Some (putTable contextRuntimeData destTableId destTable, Throw e)
      end
  end.

Definition table_copy `{Host} (contextRuntimeData : ContextRuntimeData)
    (destOffset sourceOffset numElements sourceTableId destTableId : Z)
    : option (ContextRuntimeData * Result unit) :=
  unwindSignalsAsExceptions (
    _ ← getTableFromRuntimeData contextRuntimeData sourceTableId;
    _ ← getTableFromRuntimeData contextRuntimeData destTableId;
    if sourceOffset <? destOffset then
      forLoop (Z.to_nat numElements) 0
        (fun index =>
           copyElement sourceTableId destTableId
             (Uptr (U64 (U64 destOffset + U64 (Uptr (Uptr (numElements - index) - 1)))))
             (Uptr (U64 (U64 sourceOffset + U64 (Uptr (Uptr (numElements - index) - 1))))))
        contextRuntimeData
    else
      forLoop (Z.to_nat numElements) 0
        (fun index =>
           copyElement sourceTableId destTableId
             (Uptr (U64 (U64 destOffset + U64 index)))
             (Uptr (U64 (U64 sourceOffset + U64 index))))
        contextRuntimeData).

Definition table_fill `{Host} (contextRuntimeData : ContextRuntimeData)
    (destOffset value numElements destTableId : Z)
    : option (ContextRuntimeData * Result unit) :=
  destTable ← getTableFromRuntimeData contextRuntimeData destTableId;
  let value := if value =? 0 then getUninitializedElement else value in
  '(destTable, result) ←
    unwindSignalsAsExceptions (
      forLoop (Z.to_nat numElements) 0
        (fun index destTable =>
           match setTableElementNonNull destTable
                   (Uptr (U64 (U64 destOffset + U64 index))) value with
           | (destTable, Ok _) => Some (destTable, Ok tt)
           | (destTable, Throw e) => Some (destTable, Throw e)
           end)
        destTable);
  Some (putTable contextRuntimeData destTableId destTable, result).

(** [callIndirectFail]: the exception it throws for the function the
    generated code read from the table. *)
Definition callIndirectFail `{Host} (function : Z) : ExceptionType :=
  if function =? getOutOfBoundsElement then outOfBoundsTableAccess
  else if function =? getUninitializedElement then uninitializedTableElement
  else indirectCallSignatureMismatch.

(** ** The copy of the specification *)

(** The spec's [copy]: element steps, each a checked read of
    [sourceOffset + k] and a checked write of it to [destOffset + k],
    carried out for the offsets [k] in the given order until one throws;
    the order is descending when [sourceOffset < destOffset] and ascending
    otherwise. *)
Fixpoint copyInOrder `{Host} (sourceTableId destTableId destOffset sourceOffset : Z)
    (order : list Z) (contextRuntimeData : ContextRuntimeData)
    : option (ContextRuntimeData * Result unit) :=
  match order with
  | [] => Some (contextRuntimeData, Ok tt)
  | k :: order' =>
      match copyElement sourceTableId destTableId
              (destOffset + k) (sourceOffset + k) contextRuntimeData with
      | Some (contextRuntimeData', Ok _) =>
          copyInOrder sourceTableId destTableId destOffset sourceOffset order'
                      contextRuntimeData'
      | other => other
      end
  end.

Definition ascending (numElements : Z) : list Z := seqZ 0 numElements.
Definition descending (numElements : Z) : list Z := reverse (seqZ 0 numElements).

Definition copy_spec `{Host} (contextRuntimeData : ContextRuntimeData)
    (destOffset sourceOffset numElements sourceTableId destTableId : Z)
    : option (ContextRuntimeData * Result unit) :=
  copyInOrder sourceTableId destTableId destOffset sourceOffset
    (if sourceOffset <? destOffset then descending numElements
     else ascending numElements)
    contextRuntimeData.

(** ** The operations on tables *)

(** The operations a guest or the host can carry out on the tables of a
    compartment: the eight intrinsics, with the arguments the generated
    code passes, and the host API ([createTable], [cloneTable], [growTable]
    and [setTableElement], with word-sized arguments). *)
Inductive TableOp :=
| OpGrow (initialValue deltaNumElements tableId : Z)
| OpSize (tableId : Z)
| OpGet (index tableId : Z)
| OpSet (index value tableId : Z)
| OpInit (destIndex sourceIndex numElems moduleInstanceId tableId elemSegmentIndex : Z)
| OpDrop (moduleInstanceId elemSegmentIndex : Z)
| OpCopy (destOffset sourceOffset numElements sourceTableId destTableId : Z)
| OpFill (destOffset value numElements destTableId : Z)
| OpCreateTable (type : IR.TableType) (element : Z)
                (resourceQuota : option ResourceQuota) (addedId : Z)
| OpCloneTable (tableId newTableId : Z)
| OpGrowTable (tableId numElementsToGrow initialElement : Z)
| OpSetTableElement (tableId index newValue : Z).

(** The store after an operation, whether it returned or threw; [None]
    when an id it was given names nothing.  A table that [createTable] or
    [cloneTable] returns enters the store under its id. *)
Definition runOp `{Host} (op : TableOp) (contextRuntimeData : ContextRuntimeData)
    : option ContextRuntimeData :=
  match op with
  | OpGrow initialValue deltaNumElements tableId =>
      fst <$> table_grow contextRuntimeData initialValue deltaNumElements tableId
  | OpSize tableId =>
      _ ← table_size contextRuntimeData tableId; Some contextRuntimeData
  | OpGet index tableId =>
      _ ← table_get contextRuntimeData index tableId; Some contextRuntimeData
  | OpSet index value tableId =>
      fst <$> table_set contextRuntimeData index value tableId
  | OpInit destIndex sourceIndex numElems moduleInstanceId tableId elemSegmentIndex =>
      fst <$> table_init contextRuntimeData destIndex sourceIndex numElems
                moduleInstanceId tableId elemSegmentIndex
  | OpDrop moduleInstanceId elemSegmentIndex =>
      fst <$> elem_drop contextRuntimeData moduleInstanceId elemSegmentIndex
  | OpCopy destOffset sourceOffset numElements sourceTableId destTableId =>
      fst <$> table_copy contextRuntimeData destOffset sourceOffset numElements
                sourceTableId destTableId
  | OpFill destOffset value numElements destTableId =>
      fst <$> table_fill contextRuntimeData destOffset value numElements destTableId
  | OpCreateTable type element resourceQuota addedId =>
      created ← createTable [] type element resourceQuota addedId;
      match created.1 with
      | Some table => Some (putTable contextRuntimeData addedId table)
      | None => Some contextRuntimeData
      end
  | OpCloneTable tableId newTableId =>
      table ← getTableFromRuntimeData contextRuntimeData tableId;
      created ← cloneTable [] table;
      match created.1 with
      | Some newTable => Some (putTable contextRuntimeData newTableId newTable)
      | None => Some contextRuntimeData
      end
  | OpGrowTable tableId numElementsToGrow initialElement =>
      table ← getTableFromRuntimeData contextRuntimeData tableId;
      Some (putTable contextRuntimeData tableId
              (growTable table (Uptr numElementsToGrow) initialElement).1)
  | OpSetTableElement tableId index newValue =>
      table ← getTableFromRuntimeData contextRuntimeData tableId;
      Some (putTable contextRuntimeData tableId
              (setTableElement table (Uptr index) newValue).1)
  end.

(** ** Invariants and assumptions *)

(** What the theorems assume of a host: the 64-bit hosts the runtime is
    built for, a limit [IR::maxTableElems] that fits a word, and two
    distinct, non-null dummy functions. *)
Definition HostOk `{Host} : Prop :=
  uptrBits = 64
  /\ 0 <= maxTableElems < 2 ^ 64
  /\ 0 < getOutOfBoundsElement < 2 ^ 64
  /\ 0 < getUninitializedElement < 2 ^ 64
  /\ getOutOfBoundsElement <> getUninitializedElement.

(** The two counts of a table are unsigned words. *)
Definition TableOk `{Host} (table : Table) : Prop :=
  0 <= numElements table < 2 ^ uptrBits
  /\ numReservedElements table < 2 ^ uptrBits.

(** Invariant I2: past the current count every reserved slot holds the zero
    word. *)
Definition I2 (table : Table) : Prop :=
  forall i, numElements table <= i < numReservedElements table -> load table i = 0.

(** The index a checked read or write of [index] accesses. *)
Definition saturatedIndexOf `{Host} (table : Table) (index : Z) : Z :=
  Uptr (branchlessMin index (U64 (U64 (numReservedElements table) - 1))).

(** The check of [initElemSegment] on the source index of iteration [index]:
    [sourceIndex >= elemVector->size() || sourceIndex < sourceOffset]. *)
Definition sourceOutOfRange `{Host} (elemVector : list IR.Elem)
    (sourceOffset index : Z) : bool :=
  (Uptr (sourceOffset + index) >=? Z.of_nat (length elemVector))
  || (Uptr (sourceOffset + index) <? sourceOffset).

(** The addresses of the slots of a table's reservation, and those of the
    guard pages [allocateVirtualPages] reserved after them. *)
Definition reservedRange (table : Table) (address : Z) : Prop :=
  elements table <= address < elements table + numReservedBytes table.

Definition guardRange `{Host} (table : Table) (address : Z) : Prop :=
  elements table + numReservedBytes table <= address
  < elements table + numReservedBytes table + numGuardPages * 2 ^ getPageSizeLog2.

(** Invariant I5: no address lies in the reservations of two tables. *)
Definition I5 (tables : list Table) : Prop :=
  forall t1 t2 address,
    t1 ∈ tables -> t2 ∈ tables ->
    reservedRange t1 address -> reservedRange t2 address -> t1 = t2.

Definition TableInv `{Host} (table : Table) : Prop := TableOk table /\ I2 table.

(** Every table of the compartment satisfies I2. *)
Definition StoreInv `{Host} (contextRuntimeData : ContextRuntimeData) : Prop :=
  forall tableId table,
    getTableFromRuntimeData contextRuntimeData tableId = Some table -> TableInv table.

(** A slot a checked read returns from and a checked write stores to: its
    index is inside the reservation and its word does not decode to the
    out-of-bounds sentinel. *)
Definition isLive `{Host} (table : Table) (index : Z) : Prop :=
  0 <= index < numReservedElements table
  /\ biasedTableElementValueToObject (load table index) <> getOutOfBoundsElement.

(** An object a slot can hold and give back: a pointer-sized address that
    is not the out-of-bounds sentinel. *)
Definition isObject `{Host} (object : Z) : Prop :=
  0 <= object < 2 ^ uptrBits /\ object <> getOutOfBoundsElement.

(** Invariant I3, with the limit of the implementation beside the limit of
    the type. *)
Definition I3 `{Host} (table : Table) : Prop :=
  numElements table <= IR.max (IR.size (type table))
  /\ numElements table <= maxTableElems.

Definition StoreI3 `{Host} (contextRuntimeData : ContextRuntimeData) : Prop :=
  forall tableId table,
    getTableFromRuntimeData contextRuntimeData tableId = Some table -> I3 table.

(** The maximum of a table type is a [U64]. *)
Definition opTyped (op : TableOp) : Prop :=
  match op with
  | OpCreateTable type _ _ _ => 0 <= IR.max (IR.size type) < 2 ^ 64
  | _ => True
  end.

(** The id under which an operation enters a new table, if it makes one. *)
Definition opNewTableId (op : TableOp) : option Z :=
  match op with
  | OpCreateTable _ _ _ addedId => Some addedId
  | OpCloneTable _ newTableId => Some newTableId
  | _ => None
  end.

(** The second early return of [growTableImpl]: the growth changes the
    number of platform pages of the table and the platform refuses to
    commit the new ones. *)
Definition commitRefused `{Host} (table : Table) (numElementsToGrow : Z) : bool :=
  let oldNumElements := numElements table in
  let newNumElements := Uptr (oldNumElements + numElementsToGrow) in
  let previousNumPlatformPages :=
    getNumPlatformPages (Uptr (oldNumElements * sizeofElement)) in
  let newNumPlatformPages :=
    getNumPlatformPages (Uptr (newNumElements * sizeofElement)) in
  negb (newNumPlatformPages =? previousNumPlatformPages)
  && negb (commitVirtualPages
             (Uptr (elements table
                    + Uptr_shl previousNumPlatformPages getPageSizeLog2))
             (Uptr (newNumPlatformPages - previousNumPlatformPages))).

(** What an operation may do to a table that exists: the type and the
    reservation stay, and the count does not decrease. *)
Definition tableStep (table table' : Table) : Prop :=
  type table' = type table
  /\ elements table' = elements table
  /\ numReservedBytes table' = numReservedBytes table
  /\ numReservedElements table' = numReservedElements table
  /\ numElements table <= numElements table'.

(** A step that also keeps invariant I3, and the stores one of which comes
    from the other by such steps of its tables, none entering or leaving. *)
Definition tableStepI3 `{Host} (table table' : Table) : Prop :=
  tableStep table table' /\ (I3 table -> I3 table').

Definition storeStep `{Host} (contextRuntimeData contextRuntimeData' : ContextRuntimeData)
    : Prop :=
  forall tableId,
    option_Forall2 tableStepI3
      (getTableFromRuntimeData contextRuntimeData tableId)
      (getTableFromRuntimeData contextRuntimeData' tableId).

(** The body of the loop of [table.fill], with the value after the
    substitution for null. *)
Definition fillElement `{Host} (destOffset value : Z) (index : Z) (destTable : Table)
    : option (Table * Result unit) :=
  match setTableElementNonNull destTable (Uptr (U64 (U64 destOffset + U64 index))) value with
  | (destTable, Ok _) => Some (destTable, Ok tt)
  | (destTable, Throw e) => Some (destTable, Throw e)
  end.

(** The object [initElemSegment] writes for an entry of the segment: null
    for [ref_null], [moduleInstance->functions[elem.index]] for [ref_func]. *)
Definition elemObjectOf (moduleInstance : ModuleInstance) (elem : IR.Elem) : Z :=
  match elem with
  | IR.ref_null => 0
  | IR.ref_func index => nth (Z.to_nat index) (functions moduleInstance) 0
  end.

(** The function indices of a segment are indices of functions of the
    module, as validation has it. *)
Definition elemInRange (moduleInstance : ModuleInstance) (elem : IR.Elem) : Prop :=
  match elem with
  | IR.ref_null => True
  | IR.ref_func index => 0 <= index < Z.of_nat (length (functions moduleInstance))
  end.

(** An order of the offsets of a copy in which no step reads a slot that
    an earlier step, or a step of [done], has written. *)
Fixpoint safeOrder (destOffset sourceOffset : Z) (done order : list Z) : Prop :=
  match order with
  | [] => True
  | k :: rest =>
      (forall k', k' ∈ done -> sourceOffset + k <> destOffset + k')
      /\ safeOrder destOffset sourceOffset (k :: done) rest
  end.

(** The state of a copy from [src0] to [dst0] after the steps of the
    offsets [done]: the destination table holds the objects of the source
    at the offsets done and its own words elsewhere, and no other table of
    the store has changed. *)
Definition copyInv `{Host} (destTableId destOffset sourceOffset : Z)
    (contextRuntimeData0 : ContextRuntimeData) (src0 dst0 : Table)
    (done : list Z) (contextRuntimeData : ContextRuntimeData) : Prop :=
  exists dst,
    getTableFromRuntimeData contextRuntimeData destTableId = Some dst
    /\ numElements dst = numElements dst0
    /\ numReservedElements dst = numReservedElements dst0
    /\ (forall j, (forall k, k ∈ done -> j <> destOffset + k) -> load dst j = load dst0 j)
    /\ (forall k, k ∈ done ->
          biasedTableElementValueToObject (load dst (destOffset + k))
          = biasedTableElementValueToObject (load src0 (sourceOffset + k)))
    /\ (forall tableId, tableId <> destTableId ->
          getTableFromRuntimeData contextRuntimeData tableId
          = getTableFromRuntimeData contextRuntimeData0 tableId).

(** ** Hosts and tables to compute with *)

Definition host64 : Host :=
  {| uptrBits := 64; getPageSizeLog2 := 12;
     allocateVirtualPages := fun _ => 2 ^ 40;
     commitVirtualPages := fun _ _ => true;
     maxTableElems := 2 ^ 32 - 1;
     outOfBoundsFunction := 4096; uninitializedFunction := 8192 |}.

Definition host32 : Host :=
  {| uptrBits := 32; getPageSizeLog2 := 12;
     allocateVirtualPages := fun _ => 2 ^ 24;
     commitVirtualPages := fun _ _ => true;
     maxTableElems := 2 ^ 32 - 1;
     outOfBoundsFunction := 4096; uninitializedFunction := 8192 |}.

Definition funcrefTable (min max : Z) : IR.TableType :=
  {| IR.elementType := IR.funcref; IR.isShared := false;
     IR.size := {| IR.min := min; IR.max := max |} |}.

(** Four functions. *)
Definition objA : Z := 12288.
Definition objB : Z := 12352.
Definition objC : Z := 12416.
Definition objD : Z := 12480.

(** The table [createTable] makes on [host64] for [{min, max}], every
    element [element], then [setTableElement] of [objects] from index 0. *)
Definition tableOf (min max element : Z) (quota : option ResourceQuota)
    (objects : list Z) : option Table :=
  created ← createTable (H := host64) [] (funcrefTable min max) element quota 0;
  table ← created.1;
  Some (fold_left
          (fun table '(i, object) =>
             (setTableElement (H := host64) table (Z.of_nat i) object).1)
          (imap (fun i object => (i, object)) objects) table).

(** Scenario 1 of the spec: [{min=2, max=4}], both elements [objA]. *)
Definition table24 : Table :=
  default (newTable (H := host64) (funcrefTable 2 4) None)
          (tableOf 2 4 objA None []).

(** The same table under a quota of 10 elements. *)
Definition table24q : Table :=
  default (newTable (H := host64) (funcrefTable 2 4) None)
          (tableOf 2 4 objA (Some {| tableElems := {| current := 0; maxValue := 10 |} |}) []).

(** Scenario 4 of the spec: a table of size 4 holding [A, B, C, D]. *)
Definition tableABCD : Table :=
  default (newTable (H := host64) (funcrefTable 4 4) None)
          (tableOf 4 4 0 None [objA; objB; objC; objD]).

Definition storeABCD : ContextRuntimeData :=
  {| compartmentTables := {[ 0 := tableABCD ]};
     compartmentModuleInstances := ∅ |}.

(** Scenario 5 of the spec: a segment of length 2 over two functions. *)
Definition module2 : ModuleInstance :=
  {| functions := [objC; objD];
     elemSegments := [Some [IR.ref_func 0; IR.ref_func 1]] |}.

(** [table24] after [growTable] by two elements with the default fill. *)
Definition table44 : Table :=
  (growTable (H := host64) table24 2 (getUninitializedElement (H := host64))).1.

(** A store with [table24] under id 0. *)
Definition store24 : ContextRuntimeData :=
  {| compartmentTables := {[ 0 := table24 ]};
     compartmentModuleInstances := ∅ |}.

(** [storeABCD] after [table.copy(dest=1, src=0, n=3)] within table 0. *)
Definition storeAABC : ContextRuntimeData :=
  default storeABCD (runOp (H := host64) (OpCopy 1 0 3 0 0) storeABCD).

(** A host whose platform refuses every commit, and the empty table
    [createTableImpl] makes on it. *)
Definition hostNoCommit : Host :=
  {| uptrBits := 64; getPageSizeLog2 := 12;
     allocateVirtualPages := fun _ => 2 ^ 40;
     commitVirtualPages := fun _ _ => false;
     maxTableElems := 2 ^ 32 - 1;
     outOfBoundsFunction := 4096; uninitializedFunction := 8192 |}.

Definition table04 : Table :=
  withReservation (2 ^ 40) (2 ^ 35) (2 ^ 32)
    (newTable (H := hostNoCommit) (funcrefTable 0 4)
       (Some {| tableElems := {| current := 0; maxValue := 10 |} |})).

(** The table holding [A, B, C, D] of another compartment: at another
    address, under id 7. *)
Definition tableABCD7 : Table :=
  withId 7 (withReservation (2 ^ 41) (2 ^ 35) (2 ^ 32) tableABCD).

(** [store24] after [table.grow] of table 0 by one element. *)
Definition store34 : ContextRuntimeData :=
  default store24 (runOp (H := host64) (OpGrow 0 1 0) store24).

(** [storeABCD] with the module of scenario 5 under id 0. *)
Definition storeABCDm : ContextRuntimeData :=
  {| compartmentTables := {[ 0 := tableABCD ]};
     compartmentModuleInstances := {[ 0 := module2 ]} |}.

(** * A dense set of small integers (Include/WAVM/Inline/DenseStaticIntSet.h)

    [DenseStaticIntSet<Index, maxIndexPlusOne>] keeps one bit for each
    integer below [maxIndexPlusOne] in an array of [Uptr] words.  The array
    is a list of words here; a read or a write outside the array, which the
    source leaves undefined, has no result ([None]).  The assertions of the
    source, which a release build compiles out, are the hypotheses of the
    theorems. *)

(** [countTrailingZeroes] is declared in WAVM/Platform/Intrinsic.h; it is
    an oracle here, as the platform calls of [Host] are, and the theorems
    that depend on its answer say what they assume of it. *)
Class Intrinsic := {
  countTrailingZeroes : Z -> Z
}.

Module DenseStaticIntSet.

(** The template parameters: the width of the unsigned type [Index], and
    [maxIndexPlusOne]. *)
Class Template := {
  indexBits : Z;
  maxIndexPlusOne : Z
}.

(** A conversion to [Index]. *)
Definition Index `{Template} (x : Z) : Z := x mod 2 ^ indexBits.

(** [sizeof(Element) * 8], for [typedef Uptr Element]. *)
Definition indicesPerElement `{Host} : Z := uptrBits / 8 * 8.

Definition numElements `{Host} `{Template} : Z :=
  Uptr (Uptr (maxIndexPlusOne + indicesPerElement) - 1) / indicesPerElement.

(** [DenseStaticIntSet()]: [memset(elements, 0, sizeof(elements))]. *)
Definition empty `{Host} `{Template} : list Z :=
  replicate (Z.to_nat numElements) 0.

(** ** Queries *)

Definition contains `{Host} (elements : list Z) (index : Z) : option bool :=
  element ← elements !! Z.to_nat (index / indicesPerElement);
  Some (negb (Z.land element (Uptr_shl 1 (index mod indicesPerElement)) =? 0)).

(** The loop of [isEmpty], [count] iterations from [elementIndex] on. *)
Fixpoint combineElements (count : nat) (elementIndex : Z) (elements : list Z)
    (combinedElements : Z) : option Z :=
  match count with
  | O => Some combinedElements
  | S count' =>
      element ← elements !! Z.to_nat elementIndex;
      combineElements count' (elementIndex + 1) elements
                      (Z.lor combinedElements element)
  end.

Definition isEmpty `{Host} `{Template} (elements : list Z) : option bool :=
  combinedElements ← combineElements (Z.to_nat numElements) 0 elements 0;
  Some (combinedElements =? 0).

(** The loop of [getSmallestMember]; falling out of it returns
    [maxIndexPlusOne], converted to the return type [Index]. *)
Fixpoint getSmallestMemberFrom `{Host} `{Intrinsic} `{Template}
    (count : nat) (elementIndex : Z) (elements : list Z) : option Z :=
  match count with
  | O => Some (Index maxIndexPlusOne)
  | S count' =>
      element ← elements !! Z.to_nat elementIndex;
      if negb (element =? 0)
      then Some (Index (Uptr (Uptr (elementIndex * indicesPerElement)
                              + countTrailingZeroes element)))
      else getSmallestMemberFrom count' (elementIndex + 1) elements
  end.

Definition getSmallestMember `{Host} `{Intrinsic} `{Template}
    (elements : list Z) : option Z :=
  getSmallestMemberFrom (Z.to_nat numElements) 0 elements.

(** [~element] on a word. *)
Definition complementElement `{Host} (element : Z) : Z := Uptr (Z.lnot element).

(** The loop of [getSmallestNonMember]; the [break] and falling out of the
    loop both return [maxIndexPlusOne]. *)
Fixpoint getSmallestNonMemberFrom `{Host} `{Intrinsic} `{Template}
    (count : nat) (elementIndex : Z) (elements : list Z) : option Z :=
  match count with
  | O => Some (Index maxIndexPlusOne)
  | S count' =>
      element ← elements !! Z.to_nat elementIndex;
      if negb (complementElement element =? 0)
      then
        let result :=
          Index (Uptr (Uptr (elementIndex * indicesPerElement)
                       + countTrailingZeroes (complementElement element))) in
        if result >=? maxIndexPlusOne then Some (Index maxIndexPlusOne)
        else Some result
      else getSmallestNonMemberFrom count' (elementIndex + 1) elements
  end.

Definition getSmallestNonMember `{Host} `{Intrinsic} `{Template}
    (elements : list Z) : option Z :=
  getSmallestNonMemberFrom (Z.to_nat numElements) 0 elements.

(** ** Adding and removing indices *)

Definition add `{Host} (elements : list Z) (index : Z) : option (list Z) :=
  let elementIndex := Z.to_nat (index / indicesPerElement) in
  element ← elements !! elementIndex;
  Some (<[elementIndex := Z.lor element (Uptr_shl 1 (index mod indicesPerElement))]>
          elements).

(** How a loop that need not terminate ends: with a result, in an access
    outside the array, or not within the iterations it was given. *)
Inductive Outcome (A : Type) :=
  | Done (a : A)
  | Undefined
  | Unfinished.
Arguments Done {A} a.
Arguments Undefined {A}.
Arguments Unfinished {A}.

(** The loop of [addRange], [for(Index index = rangeMin; index <= rangeMax;
    ++index) add(index)], with at most [fuel] iterations; [++index] wraps
    around at the width of [Index]. *)
Fixpoint addRangeFrom `{Host} `{Template} (fuel : nat) (index rangeMax : Z)
    (elements : list Z) : Outcome (list Z) :=
  if index <=? rangeMax then
    match fuel with
    | O => Unfinished
    | S fuel' =>
        match add elements index with
        | None => Undefined
        | Some elements => addRangeFrom fuel' (Index (index + 1)) rangeMax elements
        end
    end
  else Done elements.

Definition addRange `{Host} `{Template} (fuel : nat) (elements : list Z)
    (rangeMin rangeMax : Z) : Outcome (list Z) :=
  addRangeFrom fuel rangeMin rangeMax elements.

(** [remove]: the set after the call and the [bool] it returns. *)
Definition remove `{Host} (elements : list Z) (index : Z) : option (list Z * bool) :=
  let elementMask := Uptr_shl 1 (index mod indicesPerElement) in
  let elementIndex := Z.to_nat (index / indicesPerElement) in
  element ← elements !! elementIndex;
  let hadIndex := negb (Z.land element elementMask =? 0) in
  Some (<[elementIndex := Z.land element (complementElement elementMask)]> elements,
        hadIndex).

(** ** Logical operators *)

(** The loop the four operators share: [result.elements[elementIndex]] is
    assigned for each [elementIndex] below [numElements]; [value] reads the
    operands at that index. *)
Fixpoint assignElements (count : nat) (elementIndex : Z)
    (value : Z -> option Z) (result : list Z) : option (list Z) :=
  match count with
  | O => Some result
  | S count' =>
      element ← value elementIndex;
      _ ← result !! Z.to_nat elementIndex;
      assignElements count' (elementIndex + 1) value
                     (<[Z.to_nat elementIndex := element]> result)
  end.

(** [operator~] *)
Definition complement `{Host} `{Template} (set : list Z) : option (list Z) :=
  assignElements (Z.to_nat numElements) 0
    (fun elementIndex =>
       element ← set !! Z.to_nat elementIndex; Some (complementElement element))
    empty.

(** [operator|] *)
Definition union `{Host} `{Template} (left right : list Z) : option (list Z) :=
  assignElements (Z.to_nat numElements) 0
    (fun elementIndex =>
       l ← left !! Z.to_nat elementIndex;
       r ← right !! Z.to_nat elementIndex; Some (Z.lor l r))
    empty.

(** [operator&] *)
Definition intersection `{Host} `{Template} (left right : list Z) : option (list Z) :=
  assignElements (Z.to_nat numElements) 0
    (fun elementIndex =>
       l ← left !! Z.to_nat elementIndex;
       r ← right !! Z.to_nat elementIndex; Some (Z.land l r))
    empty.

(** [operator^] *)
Definition difference `{Host} `{Template} (left right : list Z) : option (list Z) :=
  assignElements (Z.to_nat numElements) 0
    (fun elementIndex =>
       l ← left !! Z.to_nat elementIndex;
       r ← right !! Z.to_nat elementIndex; Some (Z.lxor l r))
    empty.

(** ** Comparisons *)

(** [operator==]: [memcmp] of the two arrays is zero when they hold the
    same words. *)
Definition equal (left right : list Z) : bool := bool_decide (left = right).

(** [operator!=] *)
Definition notEqual (left right : list Z) : bool := negb (equal left right).

(** ** Well-formed sets *)

(** The array has [numElements] words. *)
Definition wf `{Host} `{Template} (elements : list Z) : Prop :=
  length elements = Z.to_nat numElements
  /\ Forall (fun element => 0 <= element < 2 ^ uptrBits) elements.

(** The indices the array has a bit for; those from [maxIndexPlusOne] on
    are padding. *)
Definition numIndices `{Host} `{Template} : Z := numElements * indicesPerElement.

(** What the theorems assume of the word: a whole number of bytes. *)
Definition ElementOk `{Host} : Prop := 0 < uptrBits /\ uptrBits mod 8 = 0.

(** What the theorems assume of the template: the computation of
    [numElements] does not wrap around, and every index the array has a bit
    for fits [Index]. *)
Definition TemplateOk `{Host} `{Template} : Prop :=
  0 < maxIndexPlusOne
  /\ maxIndexPlusOne + indicesPerElement < 2 ^ uptrBits
  /\ numIndices <= 2 ^ indexBits.

(** What the theorems assume of [countTrailingZeroes]: on a non-zero word
    it returns the position of the lowest bit that is set. *)
Definition IntrinsicOk `{Host} `{Intrinsic} : Prop :=
  forall element, 0 < element < 2 ^ uptrBits ->
    0 <= countTrailingZeroes element < uptrBits
    /\ Z.testbit element (countTrailingZeroes element) = true
    /\ (forall bit, 0 <= bit < countTrailingZeroes element ->
          Z.testbit element bit = false).

End DenseStaticIntSet.

(** * Number literals of the text format (Lib/WASTParse/ParseNumbers.cpp)

    The integer literals.  A [const char*] into the NUL-terminated source
    string is the list of the characters from it on; the terminating NUL is
    the end of the list.  A character is compared by its code, as an
    unsigned byte: a byte from 128 on is past ['9'], and as a signed [char]
    it is below ['0'], so it ends a number either way. *)

(** [tryParseHexit] is declared in Lexer.h; it is an oracle here, on the
    character it looks at: the value of the hexit, after which the caller's
    pointer has moved past the character, or nothing. *)
Class Lexer := {
  tryParseHexit : ascii -> option Z
}.

Module WAST.

Definition code (c : ascii) : Z := Z.of_N (N_of_ascii c).

(** [ParseState], declared in Parse.h: the errors reported so far.
    [parseErrorf] adds one, at a position of the string and with a
    message. *)
Record Error := {
  locus : list ascii;
  message : string
}.

Definition parseErrorf (parseState : list Error) (locus : list ascii)
    (message : string) : list Error :=
  parseState ++ [{| locus := locus; message := message |}].

(** [parseSign]: [nextChar] after the call and the [bool] it returns. *)
Definition parseSign (nextChar : list ascii) : list ascii * bool :=
  match nextChar with
  | c :: rest =>
      if (c =? "-")%char then (rest, true)
      else if (c =? "+")%char then (rest, false)
      else (nextChar, false)
  | [] => (nextChar, false)
  end.

(** [while(tryParseHexit(nextChar, hexit)) {};] *)
Fixpoint skipHexits `{Lexer} (nextChar : list ascii) : list ascii :=
  match nextChar with
  | c :: rest =>
      match tryParseHexit c with
      | Some _ => skipHexits rest
      | None => nextChar
      end
  | [] => nextChar
  end.

(** The loop of [parseHexUnsignedInt]: [nextChar], the parse state and
    [result] when it is left. *)
Fixpoint parseHexits `{Lexer} (firstHexit : list ascii) (maxValue : Z)
    (nextChar : list ascii) (parseState : list Error) (result : Z)
    : list ascii * list Error * Z :=
  match nextChar with
  | c :: rest =>
      if (c =? "_")%char then parseHexits firstHexit maxValue rest parseState result
      else
        match tryParseHexit c with
        | None => (nextChar, parseState, result)
        | Some hexit =>
            if result >? U64 (maxValue - hexit) / 16
            then (skipHexits rest,
                  parseErrorf parseState firstHexit "integer literal is too large",
                  maxValue)
            else parseHexits firstHexit maxValue rest parseState
                             (U64 (result * 16 + hexit))
        end
  | [] => (nextChar, parseState, result)
  end.

Definition parseHexUnsignedInt `{Lexer} (nextChar : list ascii)
    (parseState : list Error) (maxValue : Z) : list ascii * list Error * Z :=
  let firstHexit := nextChar in
  parseHexits firstHexit maxValue (drop 2 nextChar) parseState 0.

Definition isDigit (c : ascii) : bool :=
  negb ((code c <? code "0") || (code c >? code "9")).

(** The loop that skips the rest of a literal that is too large: while
    the next character is a digit or an underscore, [++nextChar]. *)
Fixpoint skipDigits (nextChar : list ascii) : list ascii :=
  match nextChar with
  | c :: rest =>
      if ((code c >=? code "0") && (code c <=? code "9")) || (c =? "_")%char
      then skipDigits rest
      else nextChar
  | [] => nextChar
  end.

(** The loop of [parseDecimalUnsignedInt]: [nextChar], the parse state and
    [result] when it is left. *)
Fixpoint parseDigits (firstDigit : list ascii) (maxValue : Z) (context : string)
    (nextChar : list ascii) (parseState : list Error) (result : Z)
    : list ascii * list Error * Z :=
  match nextChar with
  | c :: rest =>
      if (c =? "_")%char
      then parseDigits firstDigit maxValue context rest parseState result
      else if (code c <? code "0") || (code c >? code "9")
      then (nextChar, parseState, result)
      else
        let digit := code c - code "0" in
        if result >? U64 (maxValue - digit) / 10
        then (skipDigits rest,
              parseErrorf parseState firstDigit (context +:+ " is too large"),
              maxValue)
        else parseDigits firstDigit maxValue context rest parseState
                         (U64 (result * 10 + digit))
  | [] => (nextChar, parseState, result)
  end.

Definition parseDecimalUnsignedInt (nextChar : list ascii)
    (parseState : list Error) (maxValue : Z) (context : string)
    : list ascii * list Error * Z :=
  let firstDigit := nextChar in
  parseDigits firstDigit maxValue context nextChar parseState 0.

(** The token types [tryParseInt] tells apart; the others of Lexer.h are
    its [default]. *)
Inductive TokenType := t_decimalInt | t_hexInt | t_other.

(** [tryParseInt<UnsignedInt>], for an [UnsignedInt] of [bits] bits, on the
    type of the next token and the string from its first character on: the
    parse state after the call, what the call has written to
    [outUnsignedInt], if anything, and the [bool] it returns.  When it
    returns [true] it has moved [cursor->nextToken] to the next token. *)
Definition tryParseInt `{Lexer} (bits : Z) (tokenType : TokenType)
    (nextChar : list ascii) (parseState : list Error)
    (minSignedValue maxUnsignedValue : Z) : list Error * option Z * bool :=
  let parsed :=
    match tokenType with
    | t_decimalInt =>
        let '(nextChar, isNegative) := parseSign nextChar in
        let '(_, parseState, u64) :=
          parseDecimalUnsignedInt nextChar parseState
            (if isNegative then U64 (- U64 minSignedValue) else maxUnsignedValue)
            "int literal" in
        Some (isNegative, parseState, u64)
    | t_hexInt =>
        let '(nextChar, isNegative) := parseSign nextChar in
        let '(_, parseState, u64) :=
          parseHexUnsignedInt nextChar parseState
            (if isNegative then U64 (- U64 minSignedValue) else maxUnsignedValue) in
        Some (isNegative, parseState, u64)
    | t_other => None
    end in
  match parsed with
  | None => (parseState, None, false)
  | Some (isNegative, parseState, u64) =>
      if (minSignedValue =? 0) && isNegative then (parseState, Some 0, false)
      else
        (parseState,
         Some (if isNegative then U64 (- u64) mod 2 ^ bits else u64 mod 2 ^ bits),
         true)
  end.

(** Conversions to the signed types. *)
Definition I8 (x : Z) : Z := (x + 2 ^ 7) mod 2 ^ 8 - 2 ^ 7.
Definition I16 (x : Z) : Z := (x + 2 ^ 15) mod 2 ^ 16 - 2 ^ 15.
Definition I64 (x : Z) : Z := (x + 2 ^ 63) mod 2 ^ 64 - 2 ^ 63.

(** A [parse*] function: the parse state after the call and the value it
    returns; [None] when it throws [RecoverParseException]. *)
Definition parseU32 `{Lexer} (tokenType : TokenType) (nextChar : list ascii)
    (parseState : list Error) : list Error * option Z :=
  let '(parseState, result, parsed) :=
    tryParseInt 32 tokenType nextChar parseState 0 (2 ^ 32 - 1) in
  if negb parsed
  then (parseErrorf parseState nextChar "expected u32 literal", None)
  else (parseState, U32 <$> result).

Definition parseI8 `{Lexer} (tokenType : TokenType) (nextChar : list ascii)
    (parseState : list Error) : list Error * option Z :=
  let '(parseState, result, parsed) :=
    tryParseInt 32 tokenType nextChar parseState (- 2 ^ 7) (2 ^ 8 - 1) in
  if negb parsed
  then (parseErrorf parseState nextChar "expected i8 literal", None)
  else (parseState, I8 <$> result).

Definition parseI16 `{Lexer} (tokenType : TokenType) (nextChar : list ascii)
    (parseState : list Error) : list Error * option Z :=
  let '(parseState, result, parsed) :=
    tryParseInt 32 tokenType nextChar parseState (- 2 ^ 15) (2 ^ 16 - 1) in
  if negb parsed
  then (parseErrorf parseState nextChar "expected i16 literal", None)
  else (parseState, I16 <$> result).

Definition parseI32 `{Lexer} (tokenType : TokenType) (nextChar : list ascii)
    (parseState : list Error) : list Error * option Z :=
  let '(parseState, result, parsed) :=
    tryParseInt 32 tokenType nextChar parseState (- 2 ^ 31) (2 ^ 32 - 1) in
  if negb parsed
  then (parseErrorf parseState nextChar "expected i32 literal", None)
  else (parseState, I32 <$> result).

Definition parseI64 `{Lexer} (tokenType : TokenType) (nextChar : list ascii)
    (parseState : list Error) : list Error * option Z :=
  let '(parseState, result, parsed) :=
    tryParseInt 64 tokenType nextChar parseState (- 2 ^ 63) (2 ^ 64 - 1) in
  if negb parsed
  then (parseErrorf parseState nextChar "expected i64 literal", None)
  else (parseState, I64 <$> result).

(** ** What a literal denotes *)

(** The characters of a decimal literal: digits and underscores. *)
Definition isLiteralChar (c : ascii) : bool := isDigit c || (c =? "_")%char.

(** The number the digits of a literal denote, after [value]. *)
Fixpoint valueOfDigits (literal : list ascii) (value : Z) : Z :=
  match literal with
  | c :: rest =>
      if (c =? "_")%char then valueOfDigits rest value
      else valueOfDigits rest (value * 10 + (code c - code "0"))
  | [] => value
  end.

(** The next character is not part of a decimal literal. *)
Definition endsLiteral (nextChar : list ascii) : Prop :=
  match nextChar with
  | c :: _ => isLiteralChar c = false
  | [] => True
  end.

(** What the theorems assume of [tryParseHexit]: the value of a hexit is
    below 16. *)
Definition LexerOk `{Lexer} : Prop :=
  forall c hexit, tryParseHexit c = Some hexit -> 0 <= hexit <= 15.

(** The sign of a literal, and the integer a signed literal denotes. *)
Inductive Sign := noSign | plusSign | minusSign.

Definition signChars (sign : Sign) : list ascii :=
  match sign with
  | noSign => []
  | plusSign => ["+"%char]
  | minusSign => ["-"%char]
  end.

Definition valueOfLiteral (sign : Sign) (literal : list ascii) : Z :=
  match sign with
  | minusSign => - valueOfDigits literal 0
  | _ => valueOfDigits literal 0
  end.

(** What a literal that denotes [n] is to give a parser of a signed type of
    [bits] bits: [n] converted to the type when [n] is within the signed or
    the unsigned range of the type; otherwise an error at the first digit
    and the smallest value of the type for a negative [n], the conversion
    of the largest unsigned value, [-1], for a positive one. *)
Definition signedLiteral (bits : Z) (convert : Z -> Z) (parseState : list Error)
    (firstDigit : list ascii) (n : Z) : list Error * option Z :=
  if (- 2 ^ (bits - 1) <=? n) && (n <=? 2 ^ bits - 1)
  then (parseState, Some (convert n))
  else (parseErrorf parseState firstDigit "int literal is too large",
        Some (if n <? 0 then - 2 ^ (bits - 1) else -1)).

End WAST.

(** ** Sets to compute with *)

(** A set of the 256 values of a [U8], which fills its words, and a set
    with padding: 100 indices in two words of a 64-bit host. *)
Definition charSet : DenseStaticIntSet.Template :=
  {| DenseStaticIntSet.indexBits := 8; DenseStaticIntSet.maxIndexPlusOne := 256 |}.

Definition set100 : DenseStaticIntSet.Template :=
  {| DenseStaticIntSet.indexBits := 8; DenseStaticIntSet.maxIndexPlusOne := 100 |}.

(** The position of the lowest bit that is set. *)
Fixpoint lowestBit (p : positive) : Z :=
  match p with
  | xO p' => 1 + lowestBit p'
  | _ => 0
  end.

Definition intrinsic64 : Intrinsic :=
  {| countTrailingZeroes :=
       fun element => match element with Zpos p => lowestBit p | _ => 64 end |}.

(** ** Literals to compute with *)

Definition chars (s : string) : list ascii := String.list_ascii_of_string s.

(** The hexits: the digits, [a] to [f] and [A] to [F]. *)
Definition hexits : Lexer :=
  {| tryParseHexit := fun c =>
       let n := WAST.code c in
       if (48 <=? n) && (n <=? 57) then Some (n - 48)
       else if (97 <=? n) && (n <=? 102) then Some (n - 97 + 10)
       else if (65 <=? n) && (n <=? 70) then Some (n - 65 + 10)
       else None |}.

(** * Theorems *)

(** ** Words *)

Lemma Uptr_small `{Host} (x : Z) : 0 <= x < 2 ^ uptrBits -> Uptr x = x.
Proof. intros Hx. unfold Uptr. apply Z.mod_small, Hx. Qed.

Lemma U64_small (x : Z) : 0 <= x < 2 ^ 64 -> U64 x = x.
Proof. intros Hx. unfold U64. apply Z.mod_small, Hx. Qed.

Lemma Uptr_64 `{Host} (x : Z) : uptrBits = 64 -> Uptr x = U64 x.
Proof. intros Hw. unfold Uptr, U64. now rewrite Hw. Qed.

Lemma Uptr_range `{Host} (x : Z) : uptrBits = 64 -> 0 <= Uptr x < 2 ^ 64.
Proof. intros Hw. unfold Uptr. rewrite Hw. apply Z.mod_pos_bound. lia. Qed.

(** ** Slots *)

Lemma load_store_eq (t : Table) (i v : Z) : load (store t i v) i = v.
Proof. unfold load, store. simpl. now rewrite lookup_insert_eq. Qed.

Lemma load_store_ne (t : Table) (i j v : Z) : i <> j -> load (store t i v) j = load t j.
Proof. intros Hne. unfold load, store. simpl. now rewrite lookup_insert_ne. Qed.

(** ** The biased encoding *)

Lemma decode_encode `{Host} (object : Z) :
  0 <= object < 2 ^ uptrBits ->
  biasedTableElementValueToObject (objectToBiasedTableElementValue object) = object.
Proof.
  intros Hr. unfold biasedTableElementValueToObject, objectToBiasedTableElementValue, Uptr.
  rewrite Zplus_mod_idemp_l.
  replace (object - getOutOfBoundsElement + getOutOfBoundsElement) with object by ring.
  now apply Z.mod_small.
Qed.

Lemma decode_zero `{Host} :
  0 <= getOutOfBoundsElement < 2 ^ uptrBits ->
  biasedTableElementValueToObject 0 = getOutOfBoundsElement.
Proof. intros Ho. unfold biasedTableElementValueToObject. now apply Uptr_small. Qed.

Lemma encode_outOfBounds `{Host} :
  objectToBiasedTableElementValue getOutOfBoundsElement = 0.
Proof.
  unfold objectToBiasedTableElementValue, Uptr. rewrite Z.sub_diag. apply Zmod_0_l.
Qed.

(** A word decodes to the out-of-bounds sentinel only if it is zero. *)
Lemma decode_outOfBounds_zero `{Host} (b : Z) :
  0 <= b < 2 ^ uptrBits ->
  0 <= getOutOfBoundsElement < 2 ^ uptrBits ->
  biasedTableElementValueToObject b = getOutOfBoundsElement -> b = 0.
Proof.
  intros Hb Ho Heq. unfold biasedTableElementValueToObject, Uptr in Heq.
  destruct (Z.eq_dec b 0) as [|Hne]; [assumption|exfalso].
  destruct (Z_lt_ge_dec (b + getOutOfBoundsElement) (2 ^ uptrBits)) as [Hlt|Hge].
  - rewrite Z.mod_small in Heq by lia. lia.
  - replace (b + getOutOfBoundsElement)
      with (b + getOutOfBoundsElement - 2 ^ uptrBits + 1 * 2 ^ uptrBits) in Heq by ring.
    rewrite Z_mod_plus_full, Z.mod_small in Heq by lia. lia.
Qed.

(** C7: the stored word is the reference minus the address of the
    out-of-bounds sentinel, as a machine word; decoding an encoded
    reference gives the reference back, the sentinel itself encodes to the
    zero word, and the zero word decodes to the sentinel. *)
Theorem biased_encoding `{Host} :
  0 <= getOutOfBoundsElement < 2 ^ uptrBits ->
  (forall r, objectToBiasedTableElementValue r = Uptr (r - getOutOfBoundsElement))
  /\ (forall r, 0 <= r < 2 ^ uptrBits ->
        biasedTableElementValueToObject (objectToBiasedTableElementValue r) = r)
  /\ objectToBiasedTableElementValue getOutOfBoundsElement = 0
  /\ biasedTableElementValueToObject 0 = getOutOfBoundsElement.
Proof.
  intros Ho. split; [reflexivity|]. split; [apply @decode_encode|].
  split; [apply encode_outOfBounds | now apply decode_zero].
Qed.

Lemma host64_ok : HostOk (H := host64).
Proof. unfold HostOk. vm_compute. intuition discriminate. Qed.

Lemma biased_encoding_witness :
  0 <= getOutOfBoundsElement (H := host64) < 2 ^ uptrBits (Host := host64)
  /\ ((forall r, objectToBiasedTableElementValue (H := host64) r
                 = Uptr (H := host64) (r - getOutOfBoundsElement (H := host64)))
      /\ (forall r, 0 <= r < 2 ^ uptrBits (Host := host64) ->
            biasedTableElementValueToObject (H := host64)
              (objectToBiasedTableElementValue (H := host64) r) = r)
      /\ objectToBiasedTableElementValue (H := host64) (getOutOfBoundsElement (H := host64)) = 0
      /\ biasedTableElementValueToObject (H := host64) 0 = getOutOfBoundsElement (H := host64)).
Proof.
  assert (Ho : 0 <= getOutOfBoundsElement (H := host64) < 2 ^ uptrBits (Host := host64))
    by (vm_compute; split; [discriminate | reflexivity]).
  split; [exact Ho | apply (biased_encoding (H := host64)); exact Ho].
Defined.

(** ** Reads past the current count *)

Lemma saturatedIndex_id `{Host} (table : Table) (index : Z) :
  uptrBits = 64 -> numReservedElements table < 2 ^ uptrBits ->
  0 <= index < numReservedElements table ->
  Uptr (branchlessMin index (U64 (U64 (numReservedElements table) - 1))) = index.
Proof.
  intros Hw Hres Hidx. rewrite Hw in Hres. unfold branchlessMin.
  rewrite (U64_small (numReservedElements table)) by lia.
  rewrite U64_small by lia. rewrite Z.min_l by lia.
  apply Uptr_small. rewrite Hw. lia.
Qed.

Lemma getTableElementNonNull_zero `{Host} (table : Table) (index : Z) :
  HostOk -> TableOk table -> 0 <= index < numReservedElements table ->
  load table index = 0 ->
  getTableElementNonNull table index = Throw outOfBoundsTableAccess.
Proof.
  intros (Hw & _ & Ho & _) (Hn & Hres) Hidx Hz. unfold getTableElementNonNull.
  destruct (index >=? numReservedElements table) eqn:Hge; [reflexivity|].
  rewrite saturatedIndex_id by assumption. rewrite Hz.
  rewrite decode_zero by (rewrite Hw; lia). now rewrite Z.eqb_refl.
Qed.

(** C1: on a table that satisfies I2, reading at an index at or past the
    current count throws [outOfBoundsTableAccess]; the index is either at or
    past the reserved count, where the bounds check throws, or its slot
    holds the zero word, which decodes to the out-of-bounds sentinel. *)
Theorem getTableElement_past_size `{Host} (table : Table) (index : Z) :
  HostOk -> TableOk table -> I2 table ->
  numElements table <= index ->
  getTableElement table index = Throw outOfBoundsTableAccess
  /\ (numReservedElements table <= index
      \/ (load table index = 0
          /\ biasedTableElementValueToObject (load table index) = getOutOfBoundsElement)).
Proof.
  intros Hh Ht Hi2 Hidx. unfold getTableElement, unwindSignalsAsExceptions.
  destruct (Z_lt_ge_dec index (numReservedElements table)) as [Hlt|Hge].
  - assert (Hz : load table index = 0) by (apply Hi2; lia).
    rewrite getTableElementNonNull_zero; try assumption; [|destruct Ht; lia].
    split; [reflexivity|]. right. split; [assumption|].
    rewrite Hz. destruct Hh as (Hw & _ & Ho & _). apply decode_zero. rewrite Hw. lia.
  - split; [|left; lia]. unfold getTableElementNonNull.
    destruct (index >=? numReservedElements table) eqn:E; [reflexivity|lia].
Qed.

Lemma table24_fields :
  numElements table24 = 2 /\ numReservedElements table24 = 2 ^ 32
  /\ biasedValues table24 = <[1 := 8192]> (<[0 := 8192]> ∅).
Proof. vm_compute. repeat split; reflexivity. Qed.

Lemma table24_ok : TableOk (H := host64) table24.
Proof.
  destruct table24_fields as (Hn & Hr & _). unfold TableOk. rewrite Hn, Hr.
  vm_compute. intuition discriminate.
Qed.

Lemma table24_I2 : I2 table24.
Proof.
  destruct table24_fields as (Hn & Hr & Hv). intros i Hi. rewrite Hn in Hi.
  unfold load. rewrite Hv, !lookup_insert_ne by lia. reflexivity.
Qed.

Lemma getTableElement_past_size_witness :
  HostOk (H := host64) /\ TableOk (H := host64) table24 /\ I2 table24
  /\ numElements table24 <= 2
  /\ getTableElement (H := host64) table24 2 = Throw outOfBoundsTableAccess
  /\ (numReservedElements table24 <= 2
      \/ (load table24 2 = 0
          /\ biasedTableElementValueToObject (H := host64) (load table24 2)
             = getOutOfBoundsElement (H := host64))).
Proof.
  assert (Hn : numElements table24 <= 2) by (vm_compute; discriminate).
  split; [exact host64_ok|]. split; [exact table24_ok|]. split; [exact table24_I2|].
  split; [exact Hn|].
  exact (getTableElement_past_size (H := host64) table24 2
           host64_ok table24_ok table24_I2 Hn).
Defined.

(** ** Growth that fails *)

Lemma free_allocate (q c : CurrentAndMax) (delta : Z) :
  allocate q delta = Some c -> free c delta = q.
Proof.
  unfold allocate, free. destruct (current q + delta <=? maxValue q); [|discriminate].
  intros [= <-]. simpl. destruct q as [cur mx]. simpl. f_equal. lia.
Qed.

Lemma freeTableElems_allocateTableElems (table table' : Table) (n : Z) :
  allocateTableElems table n = Some table' -> freeTableElems table' n = table.
Proof.
  unfold allocateTableElems, freeTableElems.
  destruct table as [i ty el rb re ne [[q]|] bv]; simpl.
  - destruct (allocate q n) as [c|] eqn:Hc; [|discriminate].
    intros [= <-]. simpl. unfold withResourceQuota. simpl.
    now rewrite (free_allocate _ _ _ Hc).
  - now intros [= <-].
Qed.

(** A call of [growTableImpl] that returns [false] hands the table back as
    it received it. *)
Lemma growTableImpl_false `{Host} (table table' : Table)
    (numElementsToGrow : Z) (initializeNewElements : bool) (initializeToElement : Z) :
  growTableImpl table numElementsToGrow initializeNewElements initializeToElement
    = (table', None) ->
  table' = table.
Proof.
  intros Hg. unfold growTableImpl in Hg.
  destruct (numElementsToGrow =? 0); [discriminate|].
  destruct (allocateTableElems table numElementsToGrow) as [charged|] eqn:Ha;
    [|now inversion Hg].
  apply freeTableElems_allocateTableElems in Ha.
  repeat match type of Hg with
         | (if ?c then _ else _) = _ => destruct c
         end; inversion Hg; congruence.
Qed.

(** C2: when [growTableImpl] returns [false], for any of its reasons, the
    table is as it was before the call: its element count, the contents of
    every slot, and the quota, whose charge has been refunded. *)
Theorem growTableImpl_failure `{Host} (table table' : Table)
    (numElementsToGrow : Z) (initializeNewElements : bool) (initializeToElement : Z) :
  growTableImpl table numElementsToGrow initializeNewElements initializeToElement
    = (table', None) ->
  numElements table' = numElements table
  /\ (forall i, load table' i = load table i)
  /\ resourceQuota table' = resourceQuota table
  /\ table' = table.
Proof.
  intros Hg. apply growTableImpl_false in Hg. subst table'. repeat split; reflexivity.
Qed.

Lemma growTableImpl_failure_witness :
  growTableImpl (H := host64) table24q 3 true 8192 = (table24q, None)
  /\ (numElements table24q = numElements table24q
      /\ (forall i, load table24q i = load table24q i)
      /\ resourceQuota table24q = resourceQuota table24q
      /\ table24q = table24q).
Proof.
  assert (Hg : growTableImpl (H := host64) table24q 3 true 8192 = (table24q, None))
    by (vm_compute; reflexivity).
  split; [exact Hg|].
  exact (growTableImpl_failure (H := host64) table24q table24q 3 true 8192 Hg).
Defined.

(** ** Growth that succeeds *)

Lemma allocateTableElems_fields (table table' : Table) (n : Z) :
  allocateTableElems table n = Some table' ->
  numElements table' = numElements table
  /\ numReservedElements table' = numReservedElements table
  /\ biasedValues table' = biasedValues table
  /\ type table' = type table.
Proof.
  unfold allocateTableElems. destruct (resourceQuota table) as [q|].
  - destruct (allocate (tableElems q) n); [|discriminate].
    intros [= <-]. repeat split; reflexivity.
  - intros [= <-]. repeat split; reflexivity.
Qed.

Lemma storeNewElements_fields (count : nat) (first value : Z) (table : Table) :
  numElements (storeNewElements count first value table) = numElements table
  /\ numReservedElements (storeNewElements count first value table)
     = numReservedElements table
  /\ resourceQuota (storeNewElements count first value table) = resourceQuota table.
Proof.
  revert first table. induction count as [|count IH]; intros first table; simpl.
  - repeat split; reflexivity.
  - destruct (IH (first + 1) (store table first value)) as (? & ? & ?).
    repeat split; assumption.
Qed.

Lemma storeNewElements_outside (count : nat) (first value : Z) (table : Table) (j : Z) :
  j < first \/ first + Z.of_nat count <= j ->
  load (storeNewElements count first value table) j = load table j.
Proof.
  revert first table. induction count as [|count IH]; intros first table Hj; simpl.
  - reflexivity.
  - rewrite IH by lia. apply load_store_ne. lia.
Qed.

Lemma storeNewElements_inside (count : nat) (first value : Z) (table : Table) (j : Z) :
  first <= j < first + Z.of_nat count ->
  load (storeNewElements count first value table) j = value.
Proof.
  revert first table. induction count as [|count IH]; intros first table Hj; simpl.
  - lia.
  - destruct (Z.eq_dec j first) as [->|Hne].
    + rewrite storeNewElements_outside by lia. apply load_store_eq.
    + apply IH. lia.
Qed.

(** What a call of [growTableImpl] that returns [true] for a non-zero
    growth has checked and done. *)
Lemma growTableImpl_success `{Host} (table table' : Table)
    (numElementsToGrow : Z) (initializeNewElements : bool)
    (initializeToElement oldNumElements : Z) :
  growTableImpl table numElementsToGrow initializeNewElements initializeToElement
    = (table', Some oldNumElements) ->
  numElementsToGrow <> 0 ->
  exists charged,
    allocateTableElems table numElementsToGrow = Some charged
    /\ oldNumElements = numElements table
    /\ numElementsToGrow <= IR.max (IR.size (type table))
    /\ oldNumElements <= U64 (IR.max (IR.size (type table)) - numElementsToGrow)
    /\ numElementsToGrow <= maxTableElems
    /\ oldNumElements <= U64 (maxTableElems - numElementsToGrow)
    /\ table' =
       withNumElements (Uptr (oldNumElements + numElementsToGrow))
         (if initializeNewElements
          then storeNewElements
                 (Z.to_nat (Uptr (oldNumElements + numElementsToGrow) - oldNumElements))
                 oldNumElements
                 (objectToBiasedTableElementValue initializeToElement) charged
          else charged).
Proof.
  intros Hg Hnz. unfold growTableImpl in Hg.
  destruct (numElementsToGrow =? 0) eqn:Hz; [lia|].
  destruct (allocateTableElems table numElementsToGrow) as [charged|] eqn:Ha;
    [|discriminate].
  destruct (allocateTableElems_fields _ _ _ Ha) as (Hn & _ & _ & Hty).
  exists charged. split; [reflexivity|].
  destruct (numElementsToGrow >? IR.max (IR.size (type charged))) eqn:C1;
    [discriminate|].
  destruct (numElements charged >? U64 (IR.max (IR.size (type charged)) - numElementsToGrow)) eqn:C2;
    [discriminate|].
  destruct (numElementsToGrow >? maxTableElems) eqn:C3; [discriminate|].
  destruct (numElements charged >? U64 (maxTableElems - numElementsToGrow)) eqn:C4;
    [discriminate|].
  simpl in Hg.
  match type of Hg with (if ?c then _ else _) = _ => destruct c end; [discriminate|].
  injection Hg as Ht Hold. rewrite Hty, Hn in *.
  repeat split; try lia.
  subst table' oldNumElements. reflexivity.
Qed.

Lemma getTableElementNonNull_load `{Host} (table : Table) (index object : Z) :
  HostOk -> TableOk table -> 0 <= index < numReservedElements table ->
  0 <= object < 2 ^ 64 -> object <> getOutOfBoundsElement ->
  load table index = objectToBiasedTableElementValue object ->
  getTableElementNonNull table index = Ok object.
Proof.
  intros (Hw & _ & Ho & _) (Hn & Hres) Hidx Hobj Hne Hl. unfold getTableElementNonNull.
  destruct (index >=? numReservedElements table) eqn:Hge; [lia|].
  rewrite saturatedIndex_id by assumption. rewrite Hl.
  rewrite decode_encode by (rewrite Hw; lia).
  destruct (object =? getOutOfBoundsElement) eqn:E; [lia|reflexivity].
Qed.

(** A read depends on the reserved count and on the word of its slot only. *)
Lemma getTableElementNonNull_ext `{Host} (table table' : Table) (index : Z) :
  uptrBits = 64 -> numReservedElements table < 2 ^ uptrBits ->
  numReservedElements table' = numReservedElements table ->
  0 <= index ->
  (index < numReservedElements table -> load table' index = load table index) ->
  getTableElementNonNull table' index = getTableElementNonNull table index.
Proof.
  intros Hw Hres Hr Hidx Hl. unfold getTableElementNonNull. rewrite Hr.
  destruct (index >=? numReservedElements table) eqn:Hge; [reflexivity|].
  rewrite saturatedIndex_id by (try assumption; lia). rewrite Hl by lia. reflexivity.
Qed.

(** C3: when [growTable] with the default fill value (the uninitialized
    sentinel) returns [true], the count has grown by exactly the delta,
    every new index reads as null, and every index below the old count
    holds the word it held and reads as it did. *)
Theorem growTable_success `{Host} (table table' : Table)
    (numElementsToGrow oldNumElements : Z) :
  HostOk -> TableOk table ->
  maxTableElems <= numReservedElements table ->
  0 <= numElementsToGrow < 2 ^ 64 ->
  growTable table numElementsToGrow getUninitializedElement
    = (table', Some oldNumElements) ->
  oldNumElements = numElements table
  /\ numElements table' = numElements table + numElementsToGrow
  /\ (forall j, numElements table <= j < numElements table + numElementsToGrow ->
        getTableElement table' j = Ok 0)
  /\ (forall j, 0 <= j < numElements table ->
        load table' j = load table j
        /\ getTableElement table' j = getTableElement table j).
Proof.
  intros Hh Ht Hmax Hd Hg. unfold growTable in Hg.
  destruct (Z.eq_dec numElementsToGrow 0) as [->|Hnz].
  { unfold growTableImpl in Hg. simpl in Hg. injection Hg as <- <-.
    repeat split; try lia. }
  destruct (growTableImpl_success _ _ _ _ _ _ Hg Hnz)
    as (charged & Ha & Hold & _ & _ & Hle & Hle' & Ht').
  destruct (allocateTableElems_fields _ _ _ Ha) as (Hn & Hr & Hv & _).
  pose proof Hh as (Hw & Hm & Ho & Hu & Hne). destruct Ht as (Hn0 & Hres).
  rewrite U64_small in Hle' by lia.
  assert (Hnew : Uptr (oldNumElements + numElementsToGrow)
                 = numElements table + numElementsToGrow).
  { rewrite Hold. apply Uptr_small. rewrite Hw. lia. }
  rewrite Hnew in Ht'. rewrite Hold in Ht'.
  replace (numElements table + numElementsToGrow - numElements table)
    with numElementsToGrow in Ht' by ring.
  set (stored := storeNewElements (Z.to_nat numElementsToGrow) (numElements table)
                   (objectToBiasedTableElementValue getUninitializedElement) charged) in Ht'.
  destruct (storeNewElements_fields (Z.to_nat numElementsToGrow) (numElements table)
              (objectToBiasedTableElementValue getUninitializedElement) charged)
    as (_ & Hsr & _). fold stored in Hsr.
  assert (Hr' : numReservedElements table' = numReservedElements table).
  { subst table'. simpl. congruence. }
  assert (Hload : forall j, load table' j = load stored j).
  { intros j. subst table'. reflexivity. }
  assert (Hcharged : forall j, load charged j = load table j).
  { intros j. unfold load. now rewrite Hv. }
  split; [assumption|]. split; [subst table'; reflexivity|]. split.
  - intros j Hj. unfold getTableElement, unwindSignalsAsExceptions.
    assert (Hok' : TableOk table').
    { split; [subst table'; simpl; lia | rewrite Hr'; assumption]. }
    assert (Hlj : load table' j = objectToBiasedTableElementValue getUninitializedElement).
    { rewrite Hload. unfold stored. apply storeNewElements_inside. lia. }
    assert (Hjr : 0 <= j < numReservedElements table') by lia.
    assert (Hur : 0 <= getUninitializedElement < 2 ^ 64) by lia.
    assert (Hune : getUninitializedElement <> getOutOfBoundsElement) by congruence.
    rewrite (getTableElementNonNull_load table' j getUninitializedElement
               Hh Hok' Hjr Hur Hune Hlj).
    now rewrite Z.eqb_refl.
  - intros j Hj.
    assert (Hlj : load table' j = load table j).
    { rewrite Hload. unfold stored. rewrite storeNewElements_outside by lia.
      apply Hcharged. }
    split; [assumption|]. unfold getTableElement, unwindSignalsAsExceptions.
    rewrite (getTableElementNonNull_ext table table' j); auto; lia.
Qed.

Lemma growTable_success_witness :
  HostOk (H := host64) /\ TableOk (H := host64) table24
  /\ maxTableElems (Host := host64) <= numReservedElements table24
  /\ 0 <= 2 < 2 ^ 64
  /\ growTable (H := host64) table24 2 (getUninitializedElement (H := host64))
     = (table44, Some 2)
  /\ (2 = numElements table24
      /\ numElements table44 = numElements table24 + 2
      /\ (forall j, numElements table24 <= j < numElements table24 + 2 ->
            getTableElement (H := host64) table44 j = Ok 0)
      /\ (forall j, 0 <= j < numElements table24 ->
            load table44 j = load table24 j
            /\ getTableElement (H := host64) table44 j
               = getTableElement (H := host64) table24 j)).
Proof.
  assert (Hmax : maxTableElems (Host := host64) <= numReservedElements table24)
    by (vm_compute; discriminate).
  assert (Hd : 0 <= 2 < 2 ^ 64) by (vm_compute; split; [discriminate | reflexivity]).
  assert (Hg : growTable (H := host64) table24 2 (getUninitializedElement (H := host64))
               = (table44, Some 2)) by (vm_compute; reflexivity).
  split; [exact host64_ok|]. split; [exact table24_ok|]. split; [exact Hmax|].
  split; [exact Hd|]. split; [exact Hg|].
  exact (growTable_success (H := host64) table24 table44 2 2
           host64_ok table24_ok Hmax Hd Hg).
Defined.

(** ** The [table.grow] intrinsic *)

Lemma growTableImpl_old `{Host} (table table' : Table)
    (numElementsToGrow : Z) (initializeNewElements : bool)
    (initializeToElement oldNumElements : Z) :
  growTableImpl table numElementsToGrow initializeNewElements initializeToElement
    = (table', Some oldNumElements) ->
  oldNumElements = numElements table.
Proof.
  intros Hg. destruct (Z.eq_dec numElementsToGrow 0) as [->|Hnz].
  - unfold growTableImpl in Hg. simpl in Hg. now injection Hg as _ <-.
  - destruct (growTableImpl_success _ _ _ _ _ _ Hg Hnz) as (_ & _ & Hold & _).
    exact Hold.
Qed.

Lemma I32_small (x : Z) : 0 <= x <= INT32_MAX -> I32 x = x.
Proof.
  unfold I32, INT32_MAX. intros Hx.
  change (2 ^ 31) with 2147483648 in *. change (2 ^ 32) with 4294967296.
  rewrite Z.mod_small by lia. lia.
Qed.

(** A null initial value and the uninitialized sentinel make the same call. *)
Lemma table_grow_null `{Host} (contextRuntimeData : ContextRuntimeData)
    (deltaNumElements tableId : Z) :
  getUninitializedElement <> 0 ->
  table_grow contextRuntimeData 0 deltaNumElements tableId
  = table_grow contextRuntimeData getUninitializedElement deltaNumElements tableId.
Proof.
  intros Hu. unfold table_grow. rewrite Z.eqb_refl.
  destruct (getUninitializedElement =? 0) eqn:E; [lia|reflexivity].
Qed.

(** C10: [table.grow] returns -1 when [growTable] returns [false], the
    table then being as it was; otherwise it returns the element count the
    table had before the call, converted to [I32], which is the count
    itself when the count is at most [INT32_MAX]; and a null initial value
    grows the table exactly as the uninitialized sentinel does. *)
Theorem table_grow_result `{Host} (contextRuntimeData : ContextRuntimeData)
    (initialValue deltaNumElements tableId : Z) (table : Table) :
  getTableFromRuntimeData contextRuntimeData tableId = Some table ->
  getUninitializedElement <> 0 ->
  ((exists table',
     growTable table (Uptr deltaNumElements)
       (if initialValue =? 0 then getUninitializedElement else initialValue)
       = (table', None)
     /\ table' = table
     /\ table_grow contextRuntimeData initialValue deltaNumElements tableId
        = Some (putTable contextRuntimeData tableId table, -1))
  \/ (exists table',
        growTable table (Uptr deltaNumElements)
          (if initialValue =? 0 then getUninitializedElement else initialValue)
          = (table', Some (numElements table))
        /\ table_grow contextRuntimeData initialValue deltaNumElements tableId
           = Some (putTable contextRuntimeData tableId table', I32 (numElements table))
        /\ (0 <= numElements table <= INT32_MAX ->
            I32 (numElements table) = numElements table)))
  /\ table_grow contextRuntimeData 0 deltaNumElements tableId
     = table_grow contextRuntimeData getUninitializedElement deltaNumElements tableId.
Proof.
  intros Hget Hu. split; [|now apply table_grow_null].
  unfold table_grow. rewrite Hget. simpl.
  destruct (growTable table (Uptr deltaNumElements)
              (if initialValue =? 0 then getUninitializedElement else initialValue))
    as [table' [old|]] eqn:Hg.
  - right. exists table'. unfold growTable in Hg.
    rewrite (growTableImpl_old _ _ _ _ _ _ Hg) in *.
    split; [reflexivity|]. split; [reflexivity|]. apply I32_small.
  - left. exists table'. unfold growTable in Hg.
    apply growTableImpl_false in Hg. subst table'.
    repeat split; reflexivity.
Qed.

Lemma table_grow_result_witness :
  getTableFromRuntimeData store24 0 = Some table24
  /\ getUninitializedElement (H := host64) <> 0
  /\ (((exists table',
          growTable (H := host64) table24 (Uptr (H := host64) 1)
            (if 0 =? 0 then getUninitializedElement (H := host64) else 0)
            = (table', None)
          /\ table' = table24
          /\ table_grow (H := host64) store24 0 1 0
             = Some (putTable store24 0 table24, -1))
       \/ (exists table',
             growTable (H := host64) table24 (Uptr (H := host64) 1)
               (if 0 =? 0 then getUninitializedElement (H := host64) else 0)
               = (table', Some (numElements table24))
             /\ table_grow (H := host64) store24 0 1 0
                = Some (putTable store24 0 table', I32 (numElements table24))
             /\ (0 <= numElements table24 <= INT32_MAX ->
                 I32 (numElements table24) = numElements table24)))
      /\ table_grow (H := host64) store24 0 1 0
         = table_grow (H := host64) store24 (getUninitializedElement (H := host64)) 1 0).
Proof.
  assert (Hget : getTableFromRuntimeData store24 0 = Some table24) by reflexivity.
  assert (Hu : getUninitializedElement (H := host64) <> 0) by (vm_compute; discriminate).
  split; [exact Hget|]. split; [exact Hu|].
  exact (table_grow_result (H := host64) store24 0 1 0 table24 Hget Hu).
Defined.

(** [table.grow] on scenario 1: growing by one returns the old count 2,
    growing by three exceeds the maximum and returns -1. *)
Example table_grow_table24 :
  snd <$> table_grow (H := host64) store24 0 1 0 = Some 2
  /\ snd <$> table_grow (H := host64) store24 objA 3 0 = Some (-1)
  /\ table_grow (H := host64) store24 objA 3 0 = Some (putTable store24 0 table24, -1).
Proof. vm_compute. repeat split; reflexivity. Qed.

(** ** Checked writes *)

(** The two outcomes of a checked write: it throws and leaves the table as
    it is, or it stores the biased object at the saturated index over a word
    that does not decode to the out-of-bounds sentinel. *)
Lemma setTableElementNonNull_cases `{Host} (table table' : Table)
    (index object : Z) (r : Result Z) :
  setTableElementNonNull table index object = (table', r) ->
  (table' = table /\ r = Throw outOfBoundsTableAccess)
  \/ (index < numReservedElements table
      /\ biasedTableElementValueToObject (load table (saturatedIndexOf table index))
         <> getOutOfBoundsElement
      /\ table' = store table (saturatedIndexOf table index)
                    (objectToBiasedTableElementValue object)
      /\ r = Ok (biasedTableElementValueToObject
                   (load table (saturatedIndexOf table index)))).
Proof.
  unfold setTableElementNonNull. fold (saturatedIndexOf table index).
  destruct (index >=? numReservedElements table) eqn:Hge.
  - intros [= <- <-]. now left.
  - destruct (biasedTableElementValueToObject (load table (saturatedIndexOf table index))
              =? getOutOfBoundsElement) eqn:E.
    + intros [= <- <-]. now left.
    + intros [= <- <-]. right. repeat split; lia.
Qed.

Lemma setTableElement_cases `{Host} (table table' : Table)
    (index newValue : Z) (r : Result Z) :
  setTableElement table index newValue = (table', r) ->
  (table' = table /\ r = Throw outOfBoundsTableAccess)
  \/ (index < numReservedElements table
      /\ biasedTableElementValueToObject (load table (saturatedIndexOf table index))
         <> getOutOfBoundsElement
      /\ table' = store table (saturatedIndexOf table index)
                    (objectToBiasedTableElementValue
                       (if newValue =? 0 then getUninitializedElement else newValue))
      /\ exists old, r = Ok old).
Proof.
  unfold setTableElement, unwindSignalsAsExceptions.
  destruct (setTableElementNonNull table index
              (if newValue =? 0 then getUninitializedElement else newValue))
    as [t1 r1] eqn:Hs.
  destruct (setTableElementNonNull_cases _ _ _ _ _ Hs) as [[-> ->] | (Hi & Hd & -> & ->)].
  - intros [= <- <-]. now left.
  - intros [= <- <-]. right. repeat split; try assumption. eauto.
Qed.

Lemma store_fields (table : Table) (index value : Z) :
  numElements (store table index value) = numElements table
  /\ numReservedElements (store table index value) = numReservedElements table
  /\ resourceQuota (store table index value) = resourceQuota table.
Proof. repeat split; reflexivity. Qed.

(** ** [initElemSegment] with a source range that leaves the segment *)

Lemma forLoop_split {St : Type} (body : Z -> St -> option (St * Result unit))
    (m n : nat) (index : Z) (s : St) :
  forLoop (m + n) index body s =
  match forLoop m index body s with
  | Some (s', Ok _) => forLoop n (index + Z.of_nat m) body s'
  | other => other
  end.
Proof.
  revert index s. induction m as [|m IH]; intros index s.
  - simpl. now rewrite Z.add_0_r.
  - cbn [Nat.add forLoop]. destruct (body index s) as [[s' [[]|e]]|]; try reflexivity.
    rewrite IH. replace (index + 1 + Z.of_nat m) with (index + Z.of_nat (S m)) by lia.
    reflexivity.
Qed.

(** Among the iterations of a loop that has one whose source index is out
    of range, there is a first such. *)
Lemma first_sourceOutOfRange_dec `{Host} (elemVector : list IR.Elem)
    (sourceOffset : Z) (count : nat) :
  (exists i0, 0 <= i0 < Z.of_nat count
     /\ sourceOutOfRange elemVector sourceOffset i0 = true
     /\ forall i, 0 <= i < i0 -> sourceOutOfRange elemVector sourceOffset i = false)
  \/ (forall i, 0 <= i < Z.of_nat count ->
        sourceOutOfRange elemVector sourceOffset i = false).
Proof.
  induction count as [|count [(i0 & Hi0 & Hout & Hbefore) | Hnone]].
  - right. intros i Hi. lia.
  - left. exists i0. repeat split; try assumption; lia.
  - destruct (sourceOutOfRange elemVector sourceOffset (Z.of_nat count)) eqn:E.
    + left. exists (Z.of_nat count). repeat split; try assumption; lia.
    + right. intros i Hi. destruct (Z.eq_dec i (Z.of_nat count)) as [->|Hne];
        [assumption | apply Hnone; lia].
Qed.

Lemma first_sourceOutOfRange `{Host} (elemVector : list IR.Elem)
    (sourceOffset numElems : Z) :
  (exists i, 0 <= i < numElems /\ sourceOutOfRange elemVector sourceOffset i = true) ->
  exists i0, 0 <= i0 < numElems
    /\ sourceOutOfRange elemVector sourceOffset i0 = true
    /\ forall i, 0 <= i < i0 -> sourceOutOfRange elemVector sourceOffset i = false.
Proof.
  intros (i & Hi & Hout).
  destruct (first_sourceOutOfRange_dec elemVector sourceOffset (Z.to_nat numElems))
    as [(i0 & Hi0 & Hout0 & Hbefore) | Hnone].
  - exists i0. repeat split; try assumption; lia.
  - rewrite Hnone in Hout by lia. discriminate.
Qed.

(** The iterations before the first source index out of range: each is a
    checked write, and together they touch no slot but their destinations. *)
Lemma initElem_prefix `{Host} (moduleInstance : ModuleInstance)
    (elemVector : list IR.Elem) (destOffset sourceOffset : Z)
    (count : nat) (index : Z) (table : Table) :
  HostOk -> TableOk table -> 0 <= index ->
  (forall i, index <= i < index + Z.of_nat count ->
     sourceOutOfRange elemVector sourceOffset i = false) ->
  exists table' r,
    forLoop count index (initElem moduleInstance elemVector destOffset sourceOffset) table
      = Some (table', r)
    /\ (r = Ok tt \/ r = Throw outOfBoundsTableAccess)
    /\ numElements table' = numElements table
    /\ numReservedElements table' = numReservedElements table
    /\ (forall j, (forall k, index <= k < index + Z.of_nat count ->
                     j <> Uptr (destOffset + k)) ->
          load table' j = load table j).
Proof.
  intros Hh. revert index table.
  induction count as [|count IH]; intros index table Hok Hidx Hin.
  - exists table, (Ok tt). simpl. repeat split; auto.
  - cbn [forLoop]. unfold initElem at 1. fold (sourceOutOfRange elemVector sourceOffset index).
    rewrite Hin by lia.
    match goal with
    | |- context [setTableElement table ?i ?v] =>
        destruct (setTableElement table i v) as [t1 r1] eqn:Hs
    end.
    destruct (setTableElement_cases _ _ _ _ _ Hs)
      as [[-> ->] | (Hlt & _ & Ht1 & (old & ->))].
    + exists table, (Throw outOfBoundsTableAccess). repeat split; auto.
    + assert (Hsat : saturatedIndexOf table (Uptr (destOffset + index))
                     = Uptr (destOffset + index)).
      { destruct Hh as (Hw & _). destruct Hok as (_ & Hres).
        apply saturatedIndex_id; try assumption.
        pose proof (Uptr_range (destOffset + index) Hw). lia. }
      rewrite Hsat in Ht1.
      assert (Hok1 : TableOk t1) by (subst t1; exact Hok).
      destruct (IH (index + 1) t1 Hok1 ltac:(lia)) as (t' & r & Hloop & Hr & Hn & Hres & Hload).
      { intros i Hi. apply Hin. lia. }
      exists t', r. split; [exact Hloop|]. split; [exact Hr|].
      split; [subst t1; exact Hn|]. split; [subst t1; exact Hres|].
      intros j Hj. rewrite Hload by (intros k Hk; apply Hj; lia).
      subst t1. apply load_store_ne. intros Heq. apply (Hj index); [lia|congruence].
Qed.

(** C4, as the code has it: when some iteration of [initElemSegment] has a
    source index that is out of the segment or has wrapped around, the call
    throws.  With [i0] the first such iteration, the iterations before it
    are carried out as checked writes: if they all succeed the exception is
    [outOfBoundsElemSegmentAccess], and if one of them throws it is that
    write's [outOfBoundsTableAccess].  No slot other than the destinations
    of the iterations before [i0] is modified; in particular nothing is
    modified when the first source index is already out of range. *)
Theorem initElemSegment_source_out_of_range `{Host} (moduleInstance : ModuleInstance)
    (elemVector : list IR.Elem) (table : Table)
    (destOffset sourceOffset numElems : Z) :
  HostOk -> TableOk table ->
  (exists i, 0 <= i < numElems
     /\ sourceOutOfRange elemVector sourceOffset i = true) ->
  exists i0 table' e,
    0 <= i0 < numElems
    /\ sourceOutOfRange elemVector sourceOffset i0 = true
    /\ (forall i, 0 <= i < i0 -> sourceOutOfRange elemVector sourceOffset i = false)
    /\ initElemSegment moduleInstance elemVector table destOffset sourceOffset numElems
       = Some (table', Throw e)
    /\ ((e = outOfBoundsElemSegmentAccess
         /\ initElemSegment moduleInstance elemVector table destOffset sourceOffset i0
            = Some (table', Ok tt))
        \/ (e = outOfBoundsTableAccess
            /\ initElemSegment moduleInstance elemVector table destOffset sourceOffset i0
               = Some (table', Throw outOfBoundsTableAccess)))
    /\ (forall j, (forall k, 0 <= k < i0 -> j <> Uptr (destOffset + k)) ->
          load table' j = load table j)
    /\ (i0 = 0 -> e = outOfBoundsElemSegmentAccess /\ table' = table).
Proof.
  intros Hh Hok Hex.
  destruct (first_sourceOutOfRange _ _ _ Hex) as (i0 & Hi0 & Hout & Hbefore).
  destruct (initElem_prefix moduleInstance elemVector destOffset sourceOffset
              (Z.to_nat i0) 0 table Hh Hok ltac:(lia))
    as (table' & r & Hloop & Hr & _ & _ & Hload).
  { intros i Hi. apply Hbefore. lia. }
  assert (Hsplit : Z.to_nat numElems
                   = (Z.to_nat i0 + S (Z.to_nat (numElems - i0 - 1)))%nat) by lia.
  assert (Hload' : forall j, (forall k, 0 <= k < i0 -> j <> Uptr (destOffset + k)) ->
                             load table' j = load table j).
  { intros j Hj. apply Hload. intros k Hk. apply Hj. lia. }
  unfold initElemSegment. rewrite Hsplit, forLoop_split, Hloop.
  destruct Hr as [-> | ->].
  - exists i0, table', outOfBoundsElemSegmentAccess.
    split; [assumption|]. split; [assumption|]. split; [assumption|].
    split.
    { cbn [forLoop]. unfold initElem at 1.
      fold (sourceOutOfRange elemVector sourceOffset (0 + Z.of_nat (Z.to_nat i0))).
      replace (0 + Z.of_nat (Z.to_nat i0)) with i0 by lia. now rewrite Hout. }
    split; [left; split; [reflexivity | exact Hloop]|].
    split; [assumption|].
    intros ->. split; [reflexivity|]. simpl in Hloop. now injection Hloop as <-.
  - exists i0, table', outOfBoundsTableAccess.
    split; [assumption|]. split; [assumption|]. split; [assumption|].
    split; [reflexivity|].
    split; [right; split; [reflexivity | exact Hloop]|].
    split; [assumption|].
    intros ->. simpl in Hloop. discriminate Hloop.
Qed.

Lemma tableABCD_ok : TableOk (H := host64) tableABCD.
Proof. unfold TableOk. vm_compute. intuition discriminate. Qed.

Lemma initElemSegment_source_out_of_range_witness :
  HostOk (H := host64) /\ TableOk (H := host64) tableABCD
  /\ (exists i, 0 <= i < 2
        /\ sourceOutOfRange (H := host64) [IR.ref_func 0; IR.ref_func 1] 1 i = true)
  /\ exists i0 table' e,
       0 <= i0 < 2
       /\ sourceOutOfRange (H := host64) [IR.ref_func 0; IR.ref_func 1] 1 i0 = true
       /\ (forall i, 0 <= i < i0 ->
             sourceOutOfRange (H := host64) [IR.ref_func 0; IR.ref_func 1] 1 i = false)
       /\ initElemSegment (H := host64) module2 [IR.ref_func 0; IR.ref_func 1]
            tableABCD 0 1 2 = Some (table', Throw e)
       /\ ((e = outOfBoundsElemSegmentAccess
            /\ initElemSegment (H := host64) module2 [IR.ref_func 0; IR.ref_func 1]
                 tableABCD 0 1 i0 = Some (table', Ok tt))
           \/ (e = outOfBoundsTableAccess
               /\ initElemSegment (H := host64) module2 [IR.ref_func 0; IR.ref_func 1]
                    tableABCD 0 1 i0 = Some (table', Throw outOfBoundsTableAccess)))
       /\ (forall j, (forall k, 0 <= k < i0 -> j <> Uptr (H := host64) (0 + k)) ->
             load table' j = load tableABCD j)
       /\ (i0 = 0 -> e = outOfBoundsElemSegmentAccess /\ table' = tableABCD).
Proof.
  assert (Hex : exists i, 0 <= i < 2
            /\ sourceOutOfRange (H := host64) [IR.ref_func 0; IR.ref_func 1] 1 i = true).
  { exists 1. split; [lia | reflexivity]. }
  split; [exact host64_ok|]. split; [exact tableABCD_ok|]. split; [exact Hex|].
  exact (initElemSegment_source_out_of_range (H := host64) module2
           [IR.ref_func 0; IR.ref_func 1] tableABCD 0 1 2 host64_ok tableABCD_ok Hex).
Defined.

(** Scenario 5 of the spec on the code: a segment of length 2 and
    [table.init(dest=0, src=1, n=2)] on the table holding [A, B, C, D].
    Iteration 1 has its source index out of the segment and the call throws
    [outOfBoundsElemSegmentAccess], but iteration 0 has already written
    slot 0, which now holds [D] instead of [A]. *)
Lemma initElemSegment_partial_write :
  (exists i, 0 <= i < 2
     /\ sourceOutOfRange (H := host64) [IR.ref_func 0; IR.ref_func 1] 1 i = true)
  /\ exists table',
       initElemSegment (H := host64) module2 [IR.ref_func 0; IR.ref_func 1]
         tableABCD 0 1 2 = Some (table', Throw outOfBoundsElemSegmentAccess)
       /\ getTableElement (H := host64) tableABCD 0 = Ok objA
       /\ getTableElement (H := host64) table' 0 = Ok objD
       /\ load table' 0 <> load tableABCD 0
       /\ ~ (forall j, load table' j = load tableABCD j).
Proof.
  split; [exists 1; split; [lia | reflexivity]|].
  eexists. split; [vm_compute; reflexivity|].
  split; [vm_compute; reflexivity|]. split; [vm_compute; reflexivity|].
  assert (Hne : load
    (default tableABCD
       (fst <$> initElemSegment (H := host64) module2 [IR.ref_func 0; IR.ref_func 1]
                  tableABCD 0 1 2)) 0 <> load tableABCD 0)
    by (vm_compute; discriminate).
  split; [exact Hne | intros Hall; apply Hne, Hall].
Qed.

(** ** The order of [table.copy] *)

Example copy_orders : descending 3 = [2; 1; 0] /\ ascending 3 = [0; 1; 2].
Proof. split; reflexivity. Qed.

Lemma descending_fmap (n : nat) :
  descending (Z.of_nat n) = (fun i => Z.of_nat n - i - 1) <$> seqZ 0 (Z.of_nat n).
Proof.
  unfold descending. induction n as [|n IH].
  - reflexivity.
  - transitivity (Z.of_nat n :: reverse (seqZ 0 (Z.of_nat n))).
    { rewrite seqZ_S, reverse_snoc. f_equal. }
    rewrite IH, (seqZ_cons 0 (Z.of_nat (S n))) by lia.
    replace (Z.pred (Z.of_nat (S n))) with (Z.of_nat n) by lia.
    change (Z.succ 0) with (1 + 0). rewrite <- (fmap_add_seqZ 1 0 (Z.of_nat n)).
    rewrite fmap_cons, <- list_fmap_compose. f_equal; [lia|].
    apply list_fmap_ext. intros k x Hx. simpl. lia.
Qed.

(** A counted loop whose body at [i] is the element step at offset [f i]
    carries out the steps of the list [f <$> seqZ index count]. *)
Lemma forLoop_copyInOrder `{Host} (sourceTableId destTableId destOffset sourceOffset : Z)
    (body : Z -> ContextRuntimeData -> option (ContextRuntimeData * Result unit))
    (f : Z -> Z) (count : nat) (index : Z) (contextRuntimeData : ContextRuntimeData) :
  (forall i, index <= i < index + Z.of_nat count ->
     body i = copyElement sourceTableId destTableId
                (destOffset + f i) (sourceOffset + f i)) ->
  forLoop count index body contextRuntimeData
  = copyInOrder sourceTableId destTableId destOffset sourceOffset
      (f <$> seqZ index (Z.of_nat count)) contextRuntimeData.
Proof.
  revert index contextRuntimeData.
  induction count as [|count IH]; intros index rd Hbody.
  - reflexivity.
  - rewrite seqZ_cons by lia.
    replace (Z.pred (Z.of_nat (S count))) with (Z.of_nat count) by lia.
    cbn [forLoop fmap list_fmap copyInOrder]. rewrite Hbody by lia.
    destruct (copyElement sourceTableId destTableId (destOffset + f index)
                (sourceOffset + f index) rd) as [[rd' [[]|e]]|]; try reflexivity.
    apply IH. intros i Hi. apply Hbody. lia.
Qed.

Lemma copy_index_ascending `{Host} (offset index : Z) :
  uptrBits = 64 -> 0 <= offset < 2 ^ 32 -> 0 <= index < 2 ^ 32 ->
  Uptr (U64 (U64 offset + U64 index)) = offset + index.
Proof.
  intros Hw Ho Hi. change (2 ^ 32) with 4294967296 in *.
  rewrite Uptr_64 by assumption. unfold U64.
  change (2 ^ 64) with 18446744073709551616.
  rewrite (Z.mod_small offset), (Z.mod_small index) by lia.
  now rewrite !(Z.mod_small (offset + index)) by lia.
Qed.

Lemma copy_index_descending `{Host} (offset numElements index : Z) :
  uptrBits = 64 -> 0 <= offset < 2 ^ 32 -> 0 <= index < numElements ->
  numElements < 2 ^ 32 ->
  Uptr (U64 (U64 offset + U64 (Uptr (Uptr (numElements - index) - 1))))
  = offset + (numElements - index - 1).
Proof.
  intros Hw Ho Hi Hn. change (2 ^ 32) with 4294967296 in *.
  rewrite !Uptr_64 by assumption. unfold U64.
  change (2 ^ 64) with 18446744073709551616.
  rewrite (Z.mod_small (numElements - index)) by lia.
  rewrite (Z.mod_small (numElements - index - 1)) by lia.
  rewrite (Z.mod_small (numElements - index - 1)) by lia.
  rewrite (Z.mod_small offset) by lia.
  now rewrite !(Z.mod_small (offset + (numElements - index - 1))) by lia.
Qed.

(** C5: [table.copy] carries out its element steps in descending order of
    the index when [sourceOffset < destOffset] and in ascending order
    otherwise; and on the table of size 4 holding [A, B, C, D],
    [copy(dest=1, src=0, n=3)] within the table leaves [A, A, B, C]. *)
Theorem table_copy_order `{Host} (contextRuntimeData : ContextRuntimeData)
    (destOffset sourceOffset numElements sourceTableId destTableId : Z) :
  HostOk ->
  0 <= destOffset < 2 ^ 32 -> 0 <= sourceOffset < 2 ^ 32 -> 0 <= numElements < 2 ^ 32 ->
  is_Some (getTableFromRuntimeData contextRuntimeData sourceTableId) ->
  is_Some (getTableFromRuntimeData contextRuntimeData destTableId) ->
  table_copy contextRuntimeData destOffset sourceOffset numElements
             sourceTableId destTableId
  = copy_spec contextRuntimeData destOffset sourceOffset numElements
              sourceTableId destTableId
  /\ exists contextRuntimeData' table',
       table_copy (H := host64) storeABCD 1 0 3 0 0 = Some (contextRuntimeData', Ok tt)
       /\ getTableFromRuntimeData contextRuntimeData' 0 = Some table'
       /\ getTableElement (H := host64) tableABCD <$> [0; 1; 2; 3]
          = [Ok objA; Ok objB; Ok objC; Ok objD]
       /\ getTableElement (H := host64) table' <$> [0; 1; 2; 3]
          = [Ok objA; Ok objA; Ok objB; Ok objC]
       /\ getTableNumElements table' = 4.
Proof.
  intros (Hw & _) Hd Hs Hn [sourceTable Hsrc] [destTable Hdst]. split.
  - unfold table_copy, copy_spec, unwindSignalsAsExceptions.
    rewrite Hsrc, Hdst. cbn [mbind option_bind].
    pose proof (Z2Nat.id numElements ltac:(lia)) as Hnat.
    destruct (sourceOffset <? destOffset).
    + rewrite <- Hnat at 2.
      rewrite descending_fmap. apply forLoop_copyInOrder.
      intros i Hi. rewrite Hnat.
      rewrite !copy_index_descending by (try assumption; lia).
      reflexivity.
    + unfold ascending. rewrite <- (list_fmap_id (seqZ 0 numElements)).
      rewrite <- Hnat at 2.
      apply forLoop_copyInOrder.
      intros i Hi. rewrite !copy_index_ascending by (try assumption; lia).
      reflexivity.
  - eexists. eexists. split; [vm_compute; reflexivity|].
    split; [vm_compute; reflexivity|]. vm_compute. repeat split; reflexivity.
Qed.

(** ** Invariant I2 *)

Lemma store_I2 `{Host} (table : Table) (k value : Z) :
  HostOk -> I2 table ->
  biasedTableElementValueToObject (load table k) <> getOutOfBoundsElement ->
  I2 (store table k value).
Proof.
  intros (Hw & _ & Ho & _) Hi2 Hk i Hi. simpl in Hi.
  destruct (Z.eq_dec k i) as [->|Hne].
  - exfalso. apply Hk. rewrite (Hi2 i Hi). apply decode_zero. rewrite Hw. lia.
  - rewrite load_store_ne by assumption. now apply Hi2.
Qed.

Lemma setTableElementNonNull_inv `{Host} (table table' : Table)
    (index object : Z) (r : Result Z) :
  HostOk -> TableInv table ->
  setTableElementNonNull table index object = (table', r) -> TableInv table'.
Proof.
  intros Hh [Hok Hi2] Hs.
  destruct (setTableElementNonNull_cases _ _ _ _ _ Hs) as [[-> _] | (_ & Hd & -> & _)].
  - now split.
  - split; [exact Hok | now apply store_I2].
Qed.

Lemma setTableElement_inv `{Host} (table table' : Table)
    (index newValue : Z) (r : Result Z) :
  HostOk -> TableInv table ->
  setTableElement table index newValue = (table', r) -> TableInv table'.
Proof.
  intros Hh [Hok Hi2] Hs.
  destruct (setTableElement_cases _ _ _ _ _ Hs) as [[-> _] | (_ & Hd & -> & _)].
  - now split.
  - split; [exact Hok | now apply store_I2].
Qed.

Lemma growTableImpl_inv `{Host} (table table' : Table)
    (numElementsToGrow : Z) (initializeNewElements : bool)
    (initializeToElement : Z) (r : option Z) :
  HostOk -> TableInv table -> 0 <= numElementsToGrow < 2 ^ 64 ->
  growTableImpl table numElementsToGrow initializeNewElements initializeToElement
    = (table', r) ->
  TableInv table'.
Proof.
  intros Hh [Hok Hi2] Hd Hg. destruct r as [old|];
    [|apply growTableImpl_false in Hg; subst table'; now split].
  destruct (Z.eq_dec numElementsToGrow 0) as [->|Hnz].
  { unfold growTableImpl in Hg. simpl in Hg. injection Hg as <- _. now split. }
  destruct (growTableImpl_success _ _ _ _ _ _ Hg Hnz)
    as (charged & Ha & Hold & _ & _ & Hle & Hle' & Ht').
  destruct (allocateTableElems_fields _ _ _ Ha) as (Hn & Hr & Hv & _).
  pose proof Hh as (Hw & Hm & _). destruct Hok as (Hn0 & Hres).
  rewrite U64_small in Hle' by lia.
  assert (Hnew : Uptr (old + numElementsToGrow) = numElements table + numElementsToGrow).
  { rewrite Hold. apply Uptr_small. rewrite Hw. lia. }
  rewrite Hnew, Hold in Ht'.
  replace (numElements table + numElementsToGrow - numElements table)
    with numElementsToGrow in Ht' by ring.
  assert (Hcharged : forall j, load charged j = load table j).
  { intros j. unfold load. now rewrite Hv. }
  assert (Hfields : numReservedElements table' = numReservedElements table
                    /\ numElements table' = numElements table + numElementsToGrow
                    /\ forall j, numElements table + numElementsToGrow <= j ->
                                 load table' j = load table j).
  { subst table'. destruct initializeNewElements; simpl.
    - destruct (storeNewElements_fields (Z.to_nat numElementsToGrow) (numElements table)
                  (objectToBiasedTableElementValue initializeToElement) charged)
        as (_ & Hsr & _).
      split; [congruence|]. split; [reflexivity|]. intros j Hj.
      change (load (withNumElements ?n ?t) j) with (load t j).
      rewrite storeNewElements_outside by lia. apply Hcharged.
    - split; [assumption|]. split; [reflexivity|]. intros j Hj. apply Hcharged. }
  destruct Hfields as (Hr' & Hn' & Hl'). split.
  - unfold TableOk. rewrite Hr', Hn', Hw. rewrite Hw in Hres. lia.
  - intros i Hi. rewrite Hr', Hn' in Hi. rewrite Hl' by lia. apply Hi2. lia.
Qed.

Lemma forLoop_invariant {St : Type} (P : St -> Prop)
    (body : Z -> St -> option (St * Result unit)) :
  (forall i s s' r, P s -> body i s = Some (s', r) -> P s') ->
  forall count index s s' r,
    P s -> forLoop count index body s = Some (s', r) -> P s'.
Proof.
  intros Hbody. induction count as [|count IH]; intros index s s' r Hs Hloop.
  - simpl in Hloop. now injection Hloop as <- _.
  - simpl in Hloop. destruct (body index s) as [[s1 [[]|e]]|] eqn:Hb; [| |discriminate].
    + eapply IH; [|exact Hloop]. eapply Hbody; eassumption.
    + injection Hloop as <- _. eapply Hbody; eassumption.
Qed.

Lemma putTable_inv `{Host} (contextRuntimeData : ContextRuntimeData)
    (tableId : Z) (table : Table) :
  StoreInv contextRuntimeData -> TableInv table ->
  StoreInv (putTable contextRuntimeData tableId table).
Proof.
  intros Hrd Ht id t. unfold getTableFromRuntimeData, putTable. simpl.
  destruct (Z.eq_dec tableId id) as [->|Hne].
  - rewrite lookup_insert_eq. now intros [= <-].
  - rewrite lookup_insert_ne by assumption. apply Hrd.
Qed.

Lemma copyElement_inv `{Host} (sourceTableId destTableId destIndex sourceIndex : Z)
    (contextRuntimeData contextRuntimeData' : ContextRuntimeData) (r : Result unit) :
  HostOk -> StoreInv contextRuntimeData ->
  copyElement sourceTableId destTableId destIndex sourceIndex contextRuntimeData
    = Some (contextRuntimeData', r) ->
  StoreInv contextRuntimeData'.
Proof.
  intros Hh Hrd. unfold copyElement.
  destruct (getTableFromRuntimeData contextRuntimeData sourceTableId)
    as [sourceTable|] eqn:Hsrc; [|discriminate]. cbn [mbind option_bind].
  destruct (getTableElementNonNull sourceTable sourceIndex) as [object|e].
  - destruct (getTableFromRuntimeData contextRuntimeData destTableId)
      as [destTable|] eqn:Hdst; [|discriminate]. cbn [mbind option_bind].
    destruct (setTableElementNonNull destTable destIndex object) as [t1 r1] eqn:Hs.
    assert (Ht1 : TableInv t1).
    { eapply setTableElementNonNull_inv; [exact Hh | | exact Hs]. eapply Hrd, Hdst. }
    destruct r1; intros [= <- _]; now apply putTable_inv.
  - now intros [= <- _].
Qed.

Lemma table_copy_inv `{Host} (contextRuntimeData contextRuntimeData' : ContextRuntimeData)
    (destOffset sourceOffset numElements sourceTableId destTableId : Z)
    (r : Result unit) :
  HostOk -> StoreInv contextRuntimeData ->
  table_copy contextRuntimeData destOffset sourceOffset numElements
             sourceTableId destTableId = Some (contextRuntimeData', r) ->
  StoreInv contextRuntimeData'.
Proof.
  intros Hh Hrd. unfold table_copy, unwindSignalsAsExceptions.
  destruct (getTableFromRuntimeData contextRuntimeData sourceTableId); [|discriminate].
  destruct (getTableFromRuntimeData contextRuntimeData destTableId); [|discriminate].
  cbn [mbind option_bind].
  destruct (sourceOffset <? destOffset); intros Hloop;
    (eapply (forLoop_invariant StoreInv); [|exact Hrd|exact Hloop]);
    intros i s s' r' Hs Hb; cbv beta in Hb;
    exact (copyElement_inv _ _ _ _ _ _ _ Hh Hs Hb).
Qed.

Lemma table_fill_inv `{Host} (contextRuntimeData contextRuntimeData' : ContextRuntimeData)
    (destOffset value numElements destTableId : Z) (r : Result unit) :
  HostOk -> StoreInv contextRuntimeData ->
  table_fill contextRuntimeData destOffset value numElements destTableId
    = Some (contextRuntimeData', r) ->
  StoreInv contextRuntimeData'.
Proof.
  intros Hh Hrd. unfold table_fill, unwindSignalsAsExceptions.
  destruct (getTableFromRuntimeData contextRuntimeData destTableId)
    as [destTable|] eqn:Hdst; [|discriminate]. cbn [mbind option_bind].
  match goal with
  | |- context [forLoop ?c ?i ?b ?s] => destruct (forLoop c i b s) as [[t1 r1]|] eqn:Hloop
  end; [|discriminate].
  cbn [mbind option_bind]. intros [= <- _]. apply putTable_inv; [exact Hrd|].
  eapply (forLoop_invariant TableInv); [|eapply Hrd, Hdst|exact Hloop].
  intros i s s' r' Hs Hb. cbv beta in Hb.
  match type of Hb with
  | context [setTableElementNonNull s ?k ?v] =>
      destruct (setTableElementNonNull s k v) as [t2 r2] eqn:Hset
  end.
  assert (Ht2 : TableInv t2) by (eapply setTableElementNonNull_inv; eassumption).
  destruct r2; now injection Hb as <- _.
Qed.

Lemma initElemSegment_inv `{Host} (moduleInstance : ModuleInstance)
    (elemVector : list IR.Elem) (table table' : Table)
    (destOffset sourceOffset numElems : Z) (r : Result unit) :
  HostOk -> TableInv table ->
  initElemSegment moduleInstance elemVector table destOffset sourceOffset numElems
    = Some (table', r) ->
  TableInv table'.
Proof.
  intros Hh Ht Hloop. unfold initElemSegment in Hloop.
  eapply (forLoop_invariant TableInv); [|exact Ht|exact Hloop].
  intros i s s' r' Hs Hb. unfold initElem in Hb.
  match type of Hb with
  | (if ?c then _ else _) = _ => destruct c
  end; [now injection Hb as <- _|].
  match type of Hb with
  | context [setTableElement s ?k ?v] =>
      destruct (setTableElement s k v) as [t2 r2] eqn:Hset
  end.
  assert (Ht2 : TableInv t2) by (eapply setTableElement_inv; eassumption).
  destruct r2; now injection Hb as <- _.
Qed.

(** ** Creation establishes the invariant *)

Lemma createTableImpl_inv `{Host} (tables tables' : list Table)
    (type : IR.TableType) (resourceQuota : option ResourceQuota) (table : Table) :
  HostOk -> createTableImpl tables type resourceQuota = Some (Some table, tables') ->
  TableInv table /\ numElements table = 0.
Proof.
  intros (Hw & _) Hc. unfold createTableImpl in Hc.
  destruct (shiftDefined 32); [|discriminate].
  match type of Hc with (if ?c then _ else _) = _ => destruct c end; [discriminate|].
  injection Hc as <- _. split; [|reflexivity]. split.
  - unfold TableOk. simpl. pose proof (Uptr_range tableMaxElements Hw). rewrite Hw. lia.
  - intros i _. reflexivity.
Qed.

Lemma withId_inv `{Host} (i : Z) (table : Table) :
  TableInv table -> TableInv (withId i table).
Proof. intros Ht. exact Ht. Qed.

Lemma createTable_inv `{Host} (tables tables' : list Table) (type : IR.TableType)
    (element : Z) (resourceQuota : option ResourceQuota) (addedId : Z) (table : Table) :
  HostOk ->
  createTable tables type element resourceQuota addedId = Some (Some table, tables') ->
  TableInv table.
Proof.
  intros Hh Hc. unfold createTable in Hc.
  destruct (createTableImpl tables type resourceQuota) as [[[t0|] tables0]|] eqn:Hi;
    [| discriminate | discriminate]. cbn [mbind option_bind] in Hc.
  destruct (createTableImpl_inv _ _ _ _ _ Hh Hi) as [Ht0 _].
  match type of Hc with
  | context [growTableImpl t0 ?d ?i ?e] =>
      destruct (growTableImpl t0 d i e) as [t1 [old|]] eqn:Hg
  end; [|discriminate].
  destruct (addedId =? UINTPTR_MAX); [discriminate|]. injection Hc as <- _.
  apply withId_inv. eapply growTableImpl_inv; [exact Hh|exact Ht0| |exact Hg].
  destruct Hh as (Hw & _). apply Uptr_range, Hw.
Qed.

Lemma copyElements_fields (count : nat) (first : Z) (table newTable : Table) :
  numElements (copyElements count first table newTable) = numElements newTable
  /\ numReservedElements (copyElements count first table newTable)
     = numReservedElements newTable
  /\ forall j, j < first \/ first + Z.of_nat count <= j ->
       load (copyElements count first table newTable) j = load newTable j.
Proof.
  revert first newTable. induction count as [|count IH]; intros first newTable; simpl.
  - repeat split; reflexivity.
  - destruct (IH (first + 1) (store newTable first (load table first))) as (Hn & Hr & Hl).
    split; [exact Hn|]. split; [exact Hr|]. intros j Hj.
    rewrite Hl by lia. apply load_store_ne. lia.
Qed.

Lemma cloneTable_inv `{Host} (tables tables' : list Table) (table newTable : Table) :
  HostOk -> TableOk table ->
  cloneTable tables table = Some (Some newTable, tables') ->
  TableInv newTable.
Proof.
  intros Hh Hok Hc. unfold cloneTable in Hc.
  destruct (createTableImpl tables (type table) (resourceQuota table))
    as [[[t0|] tables0]|] eqn:Hi; [| discriminate | discriminate].
  cbn [mbind option_bind] in Hc.
  destruct (createTableImpl_inv _ _ _ _ _ Hh Hi) as [Ht0 Hn0].
  destruct (growTableImpl t0 (numElements table) false getUninitializedElement)
    as [t1 [old|]] eqn:Hg; [|discriminate].
  injection Hc as <- _. apply withId_inv.
  pose proof Hh as (Hw & Hm & _). destruct Hok as (Hn & _). rewrite Hw in Hn.
  assert (Ht1 : TableInv t1) by exact (growTableImpl_inv _ _ _ _ _ _ Hh Ht0 Hn Hg).
  assert (Hn1 : numElements t1 = numElements table).
  { destruct (Z.eq_dec (numElements table) 0) as [Hz|Hnz].
    - rewrite Hz in Hg. unfold growTableImpl in Hg. simpl in Hg.
      injection Hg as <- _. congruence.
    - destruct (growTableImpl_success _ _ _ _ _ _ Hg Hnz)
        as (charged & _ & Hold & _ & _ & _ & _ & ->).
      simpl. rewrite Hold, Hn0. apply Uptr_small. rewrite Hw. lia. }
  destruct (copyElements_fields (Z.to_nat (numElements table)) 0 table t1)
    as (Hcn & Hcr & Hcl).
  destruct Ht1 as [[Hb1 Hr1] Hi1]. split.
  - unfold TableOk. rewrite Hcn, Hcr. now split.
  - intros i Hin. rewrite Hcn, Hcr in Hin. rewrite Hcl by lia. now apply Hi1.
Qed.

Lemma setTableElement_zero `{Host} (table : Table) (index newValue : Z) :
  HostOk -> TableOk table -> 0 <= index < numReservedElements table ->
  load table index = 0 ->
  setTableElement table index newValue = (table, Throw outOfBoundsTableAccess).
Proof.
  intros (Hw & _ & Ho & _) (Hn & Hres) Hidx Hz.
  unfold setTableElement, unwindSignalsAsExceptions, setTableElementNonNull.
  destruct (index >=? numReservedElements table) eqn:Hge; [reflexivity|].
  rewrite saturatedIndex_id by assumption. rewrite Hz.
  rewrite decode_zero by (rewrite Hw; lia). now rewrite Z.eqb_refl.
Qed.

Lemma runOp_inv `{Host} (op : TableOp)
    (contextRuntimeData contextRuntimeData' : ContextRuntimeData) :
  HostOk -> StoreInv contextRuntimeData ->
  runOp op contextRuntimeData = Some contextRuntimeData' ->
  StoreInv contextRuntimeData'.
Proof.
  intros Hh Hrd Hop. pose proof Hh as (Hw & _).
  destruct op as [initialValue deltaNumElements tableId | tableId | index tableId
                 | index value tableId
                 | destIndex sourceIndex numElems moduleInstanceId tableId elemSegmentIndex
                 | moduleInstanceId elemSegmentIndex
                 | destOffset sourceOffset numElems sourceTableId destTableId
                 | destOffset value numElems destTableId
                 | tableType element quota addedId | tableId newTableId
                 | tableId numElementsToGrow initialElement | tableId index newValue];
    cbn [runOp] in Hop.
  - (* table.grow *)
    unfold table_grow in Hop.
    destruct (getTableFromRuntimeData contextRuntimeData tableId) as [table|] eqn:Ht;
      [|discriminate]. cbn [mbind option_bind] in Hop.
    match type of Hop with
    | context [growTable table ?d ?e] => destruct (growTable table d e) as [t1 r1] eqn:Hg
    end.
    assert (Ht1 : TableInv t1).
    { unfold growTable in Hg.
      exact (growTableImpl_inv _ _ _ _ _ _ Hh (Hrd _ _ Ht) (Uptr_range _ Hw) Hg). }
    destruct r1; injection Hop as <-; now apply putTable_inv.
  - (* table.size *)
    destruct (table_size contextRuntimeData tableId); [|discriminate].
    now injection Hop as <-.
  - (* table.get *)
    destruct (table_get contextRuntimeData index tableId); [|discriminate].
    now injection Hop as <-.
  - (* table.set *)
    unfold table_set in Hop.
    destruct (getTableFromRuntimeData contextRuntimeData tableId) as [table|] eqn:Ht;
      [|discriminate]. cbn [mbind option_bind] in Hop.
    destruct (setTableElement table (Uptr index) value) as [t1 r1] eqn:Hs.
    assert (Ht1 : TableInv t1)
      by exact (setTableElement_inv _ _ _ _ _ Hh (Hrd _ _ Ht) Hs).
    destruct r1; injection Hop as <-; now apply putTable_inv.
  - (* table.init *)
    unfold table_init in Hop.
    destruct (getModuleInstanceFromRuntimeData contextRuntimeData moduleInstanceId)
      as [moduleInstance|]; [|discriminate]. cbn [mbind option_bind] in Hop.
    destruct (getTableFromRuntimeData contextRuntimeData tableId) as [table|] eqn:Ht;
      [|discriminate]. cbn [mbind option_bind] in Hop.
    destruct (elemSegments moduleInstance !! Z.to_nat elemSegmentIndex)
      as [[elemVector|]|]; [| |discriminate]; cbn [mbind option_bind] in Hop.
    + destruct (initElemSegment moduleInstance elemVector table (Uptr destIndex)
                  (Uptr sourceIndex) (Uptr numElems)) as [[t1 r1]|] eqn:Hi;
        [|discriminate]. cbn [mbind option_bind fmap option_fmap option_map] in Hop.
      injection Hop as <-. apply putTable_inv; [exact Hrd|].
      exact (initElemSegment_inv _ _ _ _ _ _ _ _ Hh (Hrd _ _ Ht) Hi).
    + now injection Hop as <-.
  - (* elem.drop *)
    unfold elem_drop in Hop.
    destruct (getModuleInstanceFromRuntimeData contextRuntimeData moduleInstanceId)
      as [moduleInstance|]; [|discriminate]. cbn [mbind option_bind] in Hop.
    destruct (elemSegments moduleInstance !! Z.to_nat elemSegmentIndex)
      as [[elemVector|]|]; [| |discriminate]; cbn [mbind option_bind] in Hop;
      injection Hop as <-; exact Hrd.
  - (* table.copy *)
    destruct (table_copy contextRuntimeData destOffset sourceOffset numElems
                sourceTableId destTableId) as [[rd1 r1]|] eqn:Hc; [|discriminate].
    injection Hop as <-. exact (table_copy_inv _ _ _ _ _ _ _ _ Hh Hrd Hc).
  - (* table.fill *)
    destruct (table_fill contextRuntimeData destOffset value numElems destTableId)
      as [[rd1 r1]|] eqn:Hf; [|discriminate].
    injection Hop as <-. exact (table_fill_inv _ _ _ _ _ _ _ Hh Hrd Hf).
  - (* createTable *)
    destruct (createTable [] tableType element quota addedId)
      as [[[table|] tables']|] eqn:Hc; [| |discriminate]; cbn in Hop;
      injection Hop as <-; [|exact Hrd].
    apply putTable_inv; [exact Hrd|]. exact (createTable_inv _ _ _ _ _ _ _ Hh Hc).
  - (* cloneTable *)
    destruct (getTableFromRuntimeData contextRuntimeData tableId) as [table|] eqn:Ht;
      [|discriminate]. cbn [mbind option_bind] in Hop.
    destruct (cloneTable [] table) as [[[newTable|] tables']|] eqn:Hc;
      [| |discriminate]; cbn in Hop; injection Hop as <-; [|exact Hrd].
    apply putTable_inv; [exact Hrd|].
    exact (cloneTable_inv _ _ _ _ Hh (proj1 (Hrd _ _ Ht)) Hc).
  - (* growTable *)
    destruct (getTableFromRuntimeData contextRuntimeData tableId) as [table|] eqn:Ht;
      [|discriminate]. cbn [mbind option_bind] in Hop. injection Hop as <-.
    apply putTable_inv; [exact Hrd|].
    destruct (growTable table (Uptr numElementsToGrow) initialElement) as [t1 r1] eqn:Hg.
    unfold growTable in Hg.
    exact (growTableImpl_inv _ _ _ _ _ _ Hh (Hrd _ _ Ht) (Uptr_range _ Hw) Hg).
  - (* setTableElement *)
    destruct (getTableFromRuntimeData contextRuntimeData tableId) as [table|] eqn:Ht;
      [|discriminate]. cbn [mbind option_bind] in Hop. injection Hop as <-.
    apply putTable_inv; [exact Hrd|].
    destruct (setTableElement table (Uptr index) newValue) as [t1 r1] eqn:Hs.
    exact (setTableElement_inv _ _ _ _ _ Hh (Hrd _ _ Ht) Hs).
Qed.

(** C6: every table operation preserves invariant I2.  After any
    operation on a compartment whose tables satisfy I2, every table of the
    compartment satisfies it again: each slot from the current count up to
    the reserved count holds the zero word; and a write to such a slot
    throws [outOfBoundsTableAccess] before it stores anything, leaving the
    table as it is. *)
Theorem tableOp_preserves_I2 `{Host} (op : TableOp)
    (contextRuntimeData contextRuntimeData' : ContextRuntimeData) :
  HostOk -> StoreInv contextRuntimeData ->
  runOp op contextRuntimeData = Some contextRuntimeData' ->
  forall tableId table,
    getTableFromRuntimeData contextRuntimeData' tableId = Some table ->
    I2 table
    /\ forall index value,
         numElements table <= index < numReservedElements table ->
         load table index = 0
         /\ biasedTableElementValueToObject (load table index) = getOutOfBoundsElement
         /\ setTableElement table index value = (table, Throw outOfBoundsTableAccess).
Proof.
  intros Hh Hrd Hop tableId table Ht.
  destruct (runOp_inv _ _ _ Hh Hrd Hop _ _ Ht) as [Hok Hi2].
  split; [exact Hi2|]. intros index value Hidx.
  assert (Hz : load table index = 0) by now apply Hi2.
  split; [exact Hz|]. split.
  - rewrite Hz. destruct Hh as (Hw & _ & Ho & _). apply decode_zero. rewrite Hw. lia.
  - apply setTableElement_zero; try assumption. destruct Hok as (Hn & _). lia.
Qed.

Lemma tableABCD_fields :
  numElements tableABCD = 4 /\ numReservedElements tableABCD = 2 ^ 32
  /\ biasedValues tableABCD
     = <[3 := 8384]> (<[2 := 8320]> (<[1 := 8256]> (<[0 := 8192]> ∅))).
Proof. vm_compute. repeat split; reflexivity. Qed.

Lemma tableABCD_I2 : I2 tableABCD.
Proof.
  destruct tableABCD_fields as (Hn & Hr & Hv). intros i Hi. rewrite Hn in Hi.
  unfold load. rewrite Hv, !lookup_insert_ne by lia. reflexivity.
Qed.

Lemma storeABCD_inv : StoreInv (H := host64) storeABCD.
Proof.
  intros tableId table Hl. unfold getTableFromRuntimeData, storeABCD in Hl. simpl in Hl.
  apply lookup_singleton_Some in Hl as [_ <-].
  split; [exact tableABCD_ok | exact tableABCD_I2].
Qed.

Lemma tableOp_preserves_I2_witness :
  HostOk (H := host64) /\ StoreInv (H := host64) storeABCD
  /\ runOp (H := host64) (OpCopy 1 0 3 0 0) storeABCD = Some storeAABC
  /\ forall tableId table,
       getTableFromRuntimeData storeAABC tableId = Some table ->
       I2 table
       /\ forall index value,
            numElements table <= index < numReservedElements table ->
            load table index = 0
            /\ biasedTableElementValueToObject (H := host64) (load table index)
               = getOutOfBoundsElement (H := host64)
            /\ setTableElement (H := host64) table index value
               = (table, Throw outOfBoundsTableAccess).
Proof.
  assert (Hop : runOp (H := host64) (OpCopy 1 0 3 0 0) storeABCD = Some storeAABC)
    by (vm_compute; reflexivity).
  split; [exact host64_ok|]. split; [exact storeABCD_inv|]. split; [exact Hop|].
  exact (tableOp_preserves_I2 (H := host64) (OpCopy 1 0 3 0 0) storeABCD storeAABC
           host64_ok storeABCD_inv Hop).
Defined.

Lemma table_copy_order_witness :
  HostOk (H := host64)
  /\ 0 <= 1 < 2 ^ 32 /\ 0 <= 0 < 2 ^ 32 /\ 0 <= 3 < 2 ^ 32
  /\ is_Some (getTableFromRuntimeData storeABCD 0)
  /\ is_Some (getTableFromRuntimeData storeABCD 0)
  /\ (table_copy (H := host64) storeABCD 1 0 3 0 0
      = copy_spec (H := host64) storeABCD 1 0 3 0 0
      /\ exists contextRuntimeData' table',
           table_copy (H := host64) storeABCD 1 0 3 0 0 = Some (contextRuntimeData', Ok tt)
           /\ getTableFromRuntimeData contextRuntimeData' 0 = Some table'
           /\ getTableElement (H := host64) tableABCD <$> [0; 1; 2; 3]
              = [Ok objA; Ok objB; Ok objC; Ok objD]
           /\ getTableElement (H := host64) table' <$> [0; 1; 2; 3]
              = [Ok objA; Ok objA; Ok objB; Ok objC]
           /\ getTableNumElements table' = 4).
Proof.
  assert (H1 : 0 <= 1 < 2 ^ 32) by (vm_compute; intuition discriminate).
  assert (H0 : 0 <= 0 < 2 ^ 32) by (vm_compute; intuition discriminate).
  assert (H3 : 0 <= 3 < 2 ^ 32) by (vm_compute; intuition discriminate).
  assert (Hs : is_Some (getTableFromRuntimeData storeABCD 0))
    by (exists tableABCD; reflexivity).
  split; [exact host64_ok|]. split; [exact H1|]. split; [exact H0|].
  split; [exact H3|]. split; [exact Hs|]. split; [exact Hs|].
  exact (table_copy_order (H := host64) storeABCD 1 0 3 0 0 host64_ok H1 H0 H3 Hs Hs).
Defined.

(** ** The reservation *)

(** On a 64-bit host [createTableImpl] reserves [2^32] slots of 8 bytes and
    one guard page after them, whatever the type of the table. *)
Lemma createTableImpl_64bit `{Host} (tables tables' : list Table)
    (type : IR.TableType) (resourceQuota : option ResourceQuota) (table : Table) :
  uptrBits = 64 -> 0 <= getPageSizeLog2 < 35 ->
  createTableImpl tables type resourceQuota = Some (Some table, tables') ->
  numReservedElements table = 2 ^ 32
  /\ numReservedBytes table = 8 * 2 ^ 32
  /\ elements table = allocateVirtualPages (2 ^ 35 / 2 ^ getPageSizeLog2 + 1)
  /\ tables' = tables ++ [table].
Proof.
  intros Hw Hp Hc. unfold createTableImpl in Hc.
  destruct (shiftDefined 32); [|discriminate].
  match type of Hc with (if ?c then _ else _) = _ => destruct c end; [discriminate|].
  injection Hc as <- <-.
  assert (Hel : tableMaxElements = 2 ^ 32).
  { unfold tableMaxElements, Uptr_shl, Uptr, U64. rewrite Hw. reflexivity. }
  assert (Hby : tableMaxBytes = 2 ^ 35).
  { unfold tableMaxBytes, sizeofElement. rewrite Hel, Hw. reflexivity. }
  assert (Hpg : tableMaxPages = 2 ^ 35 / 2 ^ getPageSizeLog2).
  { unfold tableMaxPages. rewrite Hby. apply Z.shiftr_div_pow2. lia. }
  simpl. rewrite Hel, Hby, Hpg. unfold Uptr, U64, numGuardPages. rewrite Hw.
  assert (Hdiv : 0 <= 2 ^ 35 / 2 ^ getPageSizeLog2 <= 2 ^ 35).
  { split; [apply Z.div_pos; lia|].
    apply Z.div_le_upper_bound; [lia|].
    assert (1 <= 2 ^ getPageSizeLog2) by (apply Z.pow_le_mono_r with (b := 0); lia || lia).
    nia. }
  change (2 ^ 35) with 34359738368 in *. change (2 ^ 64) with 18446744073709551616.
  change (2 ^ 32) with 4294967296.
  rewrite (Z.mod_small (_ + 1)) by lia. rewrite (Z.mod_small (_ + 1)) by lia.
  repeat split; reflexivity.
Qed.

(** The reserved count does not change once the table is created. *)
Lemma growTableImpl_reserved `{Host} (table table' : Table)
    (numElementsToGrow : Z) (initializeNewElements : bool)
    (initializeToElement : Z) (r : option Z) :
  growTableImpl table numElementsToGrow initializeNewElements initializeToElement
    = (table', r) ->
  numReservedElements table' = numReservedElements table
  /\ numReservedBytes table' = numReservedBytes table
  /\ elements table' = elements table.
Proof.
  intros Hg. destruct r as [old|];
    [|apply growTableImpl_false in Hg; subst table'; repeat split; reflexivity].
  destruct (Z.eq_dec numElementsToGrow 0) as [->|Hnz].
  { unfold growTableImpl in Hg. simpl in Hg. injection Hg as <- _.
    repeat split; reflexivity. }
  destruct (growTableImpl_success _ _ _ _ _ _ Hg Hnz)
    as (charged & Ha & _ & _ & _ & _ & _ & ->).
  assert (Hc : numReservedElements charged = numReservedElements table
               /\ numReservedBytes charged = numReservedBytes table
               /\ elements charged = elements table).
  { unfold allocateTableElems in Ha. destruct (resourceQuota table) as [q|].
    - destruct (allocate (tableElems q) numElementsToGrow); [|discriminate].
      injection Ha as <-. repeat split; reflexivity.
    - injection Ha as <-. repeat split; reflexivity. }
  destruct initializeNewElements; [|exact Hc]. simpl.
  generalize (objectToBiasedTableElementValue initializeToElement) as v.
  generalize (Z.to_nat (Uptr (old + numElementsToGrow) - old)) as count.
  intros count v. revert Hc. generalize charged as t, old as first.
  induction count as [|count IH]; intros t first Ht; simpl; [exact Ht|].
  apply IH. exact Ht.
Qed.

Lemma setTableElement_reserved `{Host} (table table' : Table)
    (index newValue : Z) (r : Result Z) :
  setTableElement table index newValue = (table', r) ->
  numReservedElements table' = numReservedElements table
  /\ numReservedBytes table' = numReservedBytes table
  /\ elements table' = elements table.
Proof.
  intros Hs. destruct (setTableElement_cases _ _ _ _ _ Hs) as [[-> _] | (_ & _ & -> & _)];
    repeat split; reflexivity.
Qed.

(** C8 on the code.  On the 64-bit host, whatever the type of the table,
    [createTableImpl] reserves [2^32] slots of 8 bytes, followed by one
    guard page: [2^23 + 1] pages of 4 KiB.  On the 32-bit host the count of
    slots [Uptr(1) << 32] is a shift by the full width of [Uptr]: it is
    undefined, the 32-bit wrap-around of the shifted value is 0, and
    neither is the 4 Mi slots announced for such a host. *)
Theorem createTableImpl_reservation :
  (forall tables type resourceQuota,
     exists table,
       createTableImpl (H := host64) tables type resourceQuota
         = Some (Some table, tables ++ [table])
       /\ numReservedElements table = 2 ^ 32
       /\ numReservedBytes table = 8 * 2 ^ 32
       /\ elements table = allocateVirtualPages (Host := host64) (2 ^ 23 + numGuardPages)
       /\ numGuardPages = 1)
  /\ (forall tables type resourceQuota,
        createTableImpl (H := host32) tables type resourceQuota = None)
  /\ shiftDefined (H := host32) 32 = false
  /\ tableMaxElements (H := host32) = 0
  /\ tableMaxElements (H := host32) <> 4 * 2 ^ 20.
Proof.
  split.
  { intros tables type quota. eexists. split; [vm_compute; reflexivity|].
    vm_compute. repeat split; reflexivity. }
  split; [intros tables type quota; reflexivity|].
  split; [reflexivity|]. split; [reflexivity|]. vm_compute. discriminate.
Qed.

(** ** Resolving an address *)

(** What [isAddressOwnedByTable] returns is a table of the list whose
    reservation holds the address. *)
Lemma isAddressOwnedByTable_Some `{Host} (tables : list Table) (address : Z)
    (table : Table) (index : Z) :
  isAddressOwnedByTable tables address = Some (table, index) ->
  table ∈ tables /\ reservedRange table address
  /\ index = (address - elements table) / sizeofElement.
Proof.
  induction tables as [|t rest IH]; simpl; [discriminate|].
  destruct ((address >=? elements t) && (address <? elements t + numReservedBytes t))
    eqn:E.
  - intros [= <- <-]. split; [left|]. split; [|reflexivity].
    apply andb_prop in E as [E1 E2]. unfold reservedRange. lia.
  - intros Hr. destruct (IH Hr) as (Hin & Hrange & Hidx).
    split; [now right|]. now split.
Qed.

Lemma isAddressOwnedByTable_None `{Host} (tables : list Table) (address : Z) :
  (forall t, t ∈ tables -> ~ reservedRange t address) ->
  isAddressOwnedByTable tables address = None.
Proof.
  induction tables as [|t rest IH]; intros Hno; simpl; [reflexivity|].
  destruct ((address >=? elements t) && (address <? elements t + numReservedBytes t))
    eqn:E.
  - exfalso. apply (Hno t); [left|].
    apply andb_prop in E as [E1 E2]. unfold reservedRange. lia.
  - apply IH. intros t' Hin. apply Hno. now right.
Qed.

(** C9, as the code has it: for a live table [T] and an address among the
    slots of its reservation, from the base up to but not including the
    guard page, [isAddressOwnedByTable] returns [T] and the index
    [(address - base) / sizeof(Element)]; for an address on the guard page
    of [T] it does not return [T]; and for an address in the slots of no
    live table it returns [false]. *)
Theorem isAddressOwnedByTable_reserved `{Host} (tables : list Table)
    (table : Table) (address : Z) :
  table ∈ tables -> I5 tables ->
  (reservedRange table address ->
   isAddressOwnedByTable tables address
   = Some (table, (address - elements table) / sizeofElement))
  /\ (guardRange table address ->
      forall index, isAddressOwnedByTable tables address <> Some (table, index))
  /\ ((forall t, t ∈ tables -> ~ reservedRange t address) ->
      isAddressOwnedByTable tables address = None).
Proof.
  intros Hin Hi5. split; [|split].
  - intros Hrange.
    destruct (isAddressOwnedByTable tables address) as [[t index]|] eqn:Hr.
    + destruct (isAddressOwnedByTable_Some _ _ _ _ Hr) as (Hint & Hranget & ->).
      now rewrite (Hi5 t table address Hint Hin Hranget Hrange).
    + exfalso. revert Hin Hr. clear Hi5.
      induction tables as [|t rest IH]; intros Hin Hr; [inversion Hin|].
      simpl in Hr.
      destruct ((address >=? elements t) && (address <? elements t + numReservedBytes t))
        eqn:E; [discriminate|].
      apply elem_of_cons in Hin as [->|Hin]; [|now apply IH].
      unfold reservedRange in Hrange.
      apply andb_false_iff in E as [E|E]; lia.
  - intros Hguard index Hr.
    destruct (isAddressOwnedByTable_Some _ _ _ _ Hr) as (_ & Hrange & _).
    unfold guardRange in Hguard. unfold reservedRange in Hrange. lia.
  - apply isAddressOwnedByTable_None.
Qed.

Lemma table24_I5 : I5 [table24].
Proof.
  intros t1 t2 address H1 H2 _ _.
  apply list_elem_of_singleton in H1, H2. congruence.
Qed.

Lemma isAddressOwnedByTable_reserved_witness :
  table24 ∈ [table24] /\ I5 [table24]
  /\ ((reservedRange table24 (2 ^ 40 + 8) ->
       isAddressOwnedByTable (H := host64) [table24] (2 ^ 40 + 8)
       = Some (table24, (2 ^ 40 + 8 - elements table24) / sizeofElement (H := host64)))
      /\ (guardRange (H := host64) table24 (2 ^ 40 + 8) ->
          forall index,
            isAddressOwnedByTable (H := host64) [table24] (2 ^ 40 + 8)
            <> Some (table24, index))
      /\ ((forall t, t ∈ [table24] -> ~ reservedRange t (2 ^ 40 + 8)) ->
          isAddressOwnedByTable (H := host64) [table24] (2 ^ 40 + 8) = None)).
Proof.
  assert (Hin : table24 ∈ [table24]) by (apply list_elem_of_singleton; reflexivity).
  split; [exact Hin|]. split; [exact table24_I5|].
  exact (isAddressOwnedByTable_reserved (H := host64) [table24] table24 (2 ^ 40 + 8)
           Hin table24_I5).
Defined.

(** C9 on the code: [table24] is the only live table, its reservation is
    the [2^35] bytes from [2^40] and its guard page the 4096 bytes after
    them.  Inside the reservation an address resolves to the table and the
    index; the first address of the guard page resolves to nothing. *)
Lemma isAddressOwnedByTable_guard_page :
  table24 ∈ [table24]
  /\ elements table24 = 2 ^ 40 /\ numReservedBytes table24 = 2 ^ 35
  /\ guardRange (H := host64) table24 (2 ^ 40 + 2 ^ 35)
  /\ isAddressOwnedByTable (H := host64) [table24] (2 ^ 40 + 8) = Some (table24, 1)
  /\ isAddressOwnedByTable (H := host64) [table24] (2 ^ 40 + 2 ^ 35) = None
  /\ ~ (exists index,
          isAddressOwnedByTable (H := host64) [table24] (2 ^ 40 + 2 ^ 35)
          = Some (table24, index)).
Proof.
  assert (Hnone : isAddressOwnedByTable (H := host64) [table24] (2 ^ 40 + 2 ^ 35) = None)
    by (vm_compute; reflexivity).
  split; [apply list_elem_of_singleton; reflexivity|].
  split; [vm_compute; reflexivity|]. split; [vm_compute; reflexivity|].
  split; [unfold guardRange; vm_compute; intuition discriminate|].
  split; [vm_compute; reflexivity|]. split; [exact Hnone|].
  intros [index Hr]. rewrite Hnone in Hr. discriminate Hr.
Qed.

(** ** The scenarios of the specification *)

(** Scenario 1: after [createTable] with [{min=2, max=4}] and the initial
    element [F], the size is 2, both elements read as [F] and index 2 is out
    of bounds. *)
Example scenario_create :
  tableOf 2 4 objA None [] = Some table24
  /\ getTableNumElements table24 = 2
  /\ getTableElement (H := host64) table24 <$> [0; 1; 2]
     = [Ok objA; Ok objA; Throw outOfBoundsTableAccess].
Proof. vm_compute. repeat split; reflexivity. Qed.

(** Scenario 2, and the other reasons for which growth fails: the sum
    exceeds the maximum of the type, the delta alone exceeds it, the quota
    denies the charge, the platform refuses the commit.  Each call returns
    [false] and the table, quota included, as it was. *)
Example scenario_grow_fails :
  growTableImpl (H := host64) table24q 3 true 8192 = (table24q, None)
  /\ growTableImpl (H := host64) table24q 5 true 8192 = (table24q, None)
  /\ growTableImpl (H := host64)
       (withResourceQuota (Some {| tableElems := {| current := 2; maxValue := 2 |} |})
          table24q) 1 true 8192
     = (withResourceQuota (Some {| tableElems := {| current := 2; maxValue := 2 |} |})
          table24q, None)
  /\ growTableImpl (H := hostNoCommit) table04 1 true 8192 = (table04, None).
Proof. vm_compute. repeat split; reflexivity. Qed.

(** Scenario 3: a null written to slot 0 reads back as null, and the slot
    holds the uninitialized sentinel, for which [callIndirectFail] throws
    [uninitializedTableElement]. *)
Example scenario_null :
  let table := (setTableElement (H := host64) table24 0 0).1 in
  getTableElement (H := host64) table 0 = Ok 0
  /\ getTableElementNonNull (H := host64) table 0
     = Ok (getUninitializedElement (H := host64))
  /\ callIndirectFail (H := host64) (getUninitializedElement (H := host64))
     = uninitializedTableElement.
Proof. vm_compute. repeat split; reflexivity. Qed.

(** * Further properties of the table operations *)

(** ** Live slots *)

Lemma getTableElementNonNull_live `{Host} (table : Table) (index : Z) :
  HostOk -> TableOk table -> isLive table index ->
  getTableElementNonNull table index
  = Ok (biasedTableElementValueToObject (load table index)).
Proof.
  intros (Hw & _) (_ & Hres) (Hidx & Hlive). unfold getTableElementNonNull.
  destruct (index >=? numReservedElements table) eqn:Hge; [lia|].
  rewrite saturatedIndex_id by assumption.
  destruct (biasedTableElementValueToObject (load table index) =? getOutOfBoundsElement)
    eqn:E; [lia|reflexivity].
Qed.

Lemma setTableElementNonNull_live `{Host} (table : Table) (index object : Z) :
  HostOk -> TableOk table -> isLive table index ->
  setTableElementNonNull table index object
  = (store table index (objectToBiasedTableElementValue object),
     Ok (biasedTableElementValueToObject (load table index))).
Proof.
  intros (Hw & _) (_ & Hres) (Hidx & Hlive). unfold setTableElementNonNull.
  destruct (index >=? numReservedElements table) eqn:Hge; [lia|].
  rewrite saturatedIndex_id by assumption.
  destruct (biasedTableElementValueToObject (load table index) =? getOutOfBoundsElement)
    eqn:E; [lia|reflexivity].
Qed.

Lemma isLive_store_eq `{Host} (table : Table) (index object : Z) :
  HostOk -> 0 <= index < numReservedElements table -> isObject object ->
  isLive (store table index (objectToBiasedTableElementValue object)) index.
Proof.
  intros (Hw & _) Hidx (Hr & Hne). split; [exact Hidx|].
  rewrite load_store_eq, decode_encode by assumption. exact Hne.
Qed.

Lemma isLive_store_ne `{Host} (table : Table) (index j value : Z) :
  index <> j -> isLive table j -> isLive (store table index value) j.
Proof.
  intros Hne (Hj & Hlive). split; [exact Hj|]. now rewrite load_store_ne.
Qed.

Lemma isObject_uninitialized `{Host} : HostOk -> isObject getUninitializedElement.
Proof. intros (Hw & _ & _ & Hu & Hne). split; [rewrite Hw; lia | congruence]. Qed.

(** What [setTableElement] stores for a value: the uninitialized sentinel
    for null. *)
Lemma isObject_stored `{Host} (value : Z) :
  HostOk -> isObject value ->
  isObject (if value =? 0 then getUninitializedElement else value).
Proof.
  intros Hh Hv. destruct (value =? 0); [now apply isObject_uninitialized | exact Hv].
Qed.

(** ** Writing, then reading *)

(** X1: a write to a live slot returns what a read of the slot returned
    before it, and a read after it returns the value written (null for
    null); no other slot and no count changes. *)
Theorem setTableElement_then_get `{Host} (table : Table) (index value : Z) :
  HostOk -> TableOk table -> isLive table index ->
  isObject value -> value <> getUninitializedElement ->
  exists table',
    setTableElement table index value = (table', getTableElement table index)
    /\ getTableElement table' index = Ok value
    /\ (forall j, j <> index -> load table' j = load table j)
    /\ numElements table' = numElements table
    /\ numReservedElements table' = numReservedElements table.
Proof.
  intros Hh Hok Hlive Hv Hnu.
  set (stored := if value =? 0 then getUninitializedElement else value).
  assert (Hs : isObject stored) by now apply isObject_stored.
  exists (store table index (objectToBiasedTableElementValue stored)).
  assert (Hlive' : isLive (store table index (objectToBiasedTableElementValue stored)) index)
    by (apply isLive_store_eq; [assumption | apply Hlive | assumption]).
  split; [|split; [|split; [|split]]]; try reflexivity.
  - unfold setTableElement, getTableElement, unwindSignalsAsExceptions. fold stored.
    rewrite setTableElementNonNull_live, getTableElementNonNull_live by assumption.
    reflexivity.
  - unfold getTableElement, unwindSignalsAsExceptions.
    rewrite getTableElementNonNull_live by assumption.
    rewrite load_store_eq, decode_encode by apply Hs.
    unfold stored. destruct (value =? 0) eqn:Hz.
    + rewrite Z.eqb_refl. f_equal. lia.
    + destruct (value =? getUninitializedElement) eqn:E; [lia|reflexivity].
  - intros j Hj. apply load_store_ne. congruence.
Qed.

Lemma table24_live0 : isLive (H := host64) table24 0.
Proof. unfold isLive. vm_compute. intuition discriminate. Qed.

Lemma setTableElement_then_get_witness :
  HostOk (H := host64) /\ TableOk (H := host64) table24
  /\ isLive (H := host64) table24 0
  /\ isObject (H := host64) objB /\ objB <> getUninitializedElement (H := host64)
  /\ exists table',
       setTableElement (H := host64) table24 0 objB
       = (table', getTableElement (H := host64) table24 0)
       /\ getTableElement (H := host64) table' 0 = Ok objB
       /\ (forall j, j <> 0 -> load table' j = load table24 j)
       /\ numElements table' = numElements table24
       /\ numReservedElements table' = numReservedElements table24.
Proof.
  assert (Hv : isObject (H := host64) objB)
    by (unfold isObject; vm_compute; intuition discriminate).
  assert (Hnu : objB <> getUninitializedElement (H := host64))
    by (vm_compute; discriminate).
  split; [exact host64_ok|]. split; [exact table24_ok|]. split; [exact table24_live0|].
  split; [exact Hv|]. split; [exact Hnu|].
  exact (setTableElement_then_get (H := host64) table24 0 objB
           host64_ok table24_ok table24_live0 Hv Hnu).
Defined.

(** ** Growth, in full *)

(** Everything a call of [growTableImpl] that returns [true] leaves behind. *)
Lemma growTableImpl_success_fields `{Host} (table table' : Table)
    (numElementsToGrow : Z) (initializeNewElements : bool)
    (initializeToElement oldNumElements : Z) :
  HostOk -> TableOk table -> 0 <= numElementsToGrow < 2 ^ 64 ->
  growTableImpl table numElementsToGrow initializeNewElements initializeToElement
    = (table', Some oldNumElements) ->
  oldNumElements = numElements table
  /\ numElements table' = numElements table + numElementsToGrow
  /\ numReservedElements table' = numReservedElements table
  /\ type table' = type table
  /\ (forall j, numElements table <= j < numElements table + numElementsToGrow ->
        load table' j = if initializeNewElements
                        then objectToBiasedTableElementValue initializeToElement
                        else load table j)
  /\ (forall j, j < numElements table \/ numElements table + numElementsToGrow <= j ->
        load table' j = load table j)
  /\ (numElementsToGrow <> 0 ->
      numElements table + numElementsToGrow <= IR.max (IR.size (type table))
      /\ numElements table + numElementsToGrow <= maxTableElems
      /\ exists charged, allocateTableElems table numElementsToGrow = Some charged
                         /\ resourceQuota table' = resourceQuota charged).
Proof.
  intros Hh Hok Hd Hg. destruct (Z.eq_dec numElementsToGrow 0) as [->|Hnz].
  { unfold growTableImpl in Hg. simpl in Hg. injection Hg as <- <-.
    rewrite Z.add_0_r. repeat split; try reflexivity; try lia. }
  destruct (growTableImpl_success _ _ _ _ _ _ Hg Hnz)
    as (charged & Ha & Hold & Hle1 & Hle2 & Hle & Hle' & Ht').
  destruct (allocateTableElems_fields _ _ _ Ha) as (Hn & Hr & Hv & Hty).
  pose proof Hh as (Hw & Hm & _). destruct Hok as (Hn0 & Hres). rewrite Hw in Hn0.
  rewrite U64_small in Hle' by lia.
  assert (Hnew : Uptr (oldNumElements + numElementsToGrow)
                 = numElements table + numElementsToGrow).
  { rewrite Hold. apply Uptr_small. rewrite Hw. lia. }
  rewrite Hnew, Hold in Ht'.
  replace (numElements table + numElementsToGrow - numElements table)
    with numElementsToGrow in Ht' by ring.
  assert (Hcharged : forall j, load charged j = load table j).
  { intros j. unfold load. now rewrite Hv. }
  assert (Hmaxle : numElements table + numElementsToGrow <= IR.max (IR.size (type table))).
  { rewrite Hold in Hle2.
    destruct (Z_lt_ge_dec (IR.max (IR.size (type table))) (2 ^ 64)) as [Hlt|Hge].
    - rewrite U64_small in Hle2 by lia. lia.
    - lia. }
  split; [exact Hold|]. subst table'.
  destruct initializeNewElements; simpl.
  - destruct (storeNewElements_fields (Z.to_nat numElementsToGrow) (numElements table)
                (objectToBiasedTableElementValue initializeToElement) charged)
      as (_ & Hsr & Hsq).
    split; [reflexivity|]. split; [congruence|].
    split.
    { clear -Hty. generalize (Z.to_nat numElementsToGrow) as c.
      generalize (numElements table) as f. revert Hty. generalize charged as t.
      intros t Hty f c. revert t f Hty.
      induction c as [|c IH]; intros t f Hty; simpl; [exact Hty|]. now apply IH. }
    split.
    { intros j Hj. change (load (withNumElements ?n ?t) j) with (load t j).
      apply storeNewElements_inside. lia. }
    split.
    { intros j Hj. change (load (withNumElements ?n ?t) j) with (load t j).
      rewrite storeNewElements_outside by lia. apply Hcharged. }
    intros _. split; [exact Hmaxle|]. split; [lia|]. exists charged. now split.
  - split; [reflexivity|]. split; [exact Hr|]. split; [exact Hty|].
    split; [intros j _; apply Hcharged|]. split; [intros j _; apply Hcharged|].
    intros _. split; [exact Hmaxle|]. split; [lia|]. exists charged. now split.
Qed.

(** X2: when [growTable] succeeds with any initial element other than the
    out-of-bounds sentinel, every new index reads as that element, through
    [getTableElementNonNull] as it is and through [getTableElement] with
    the uninitialized sentinel turned into null; the quota of the table, if
    it has one, has been charged the delta. *)
Theorem growTable_initial_element `{Host} (table table' : Table)
    (numElementsToGrow initialElement oldNumElements : Z) :
  HostOk -> TableOk table ->
  maxTableElems <= numReservedElements table ->
  0 <= numElementsToGrow < 2 ^ 64 -> isObject initialElement ->
  growTable table numElementsToGrow initialElement = (table', Some oldNumElements) ->
  (forall j, numElements table <= j < numElements table + numElementsToGrow ->
     getTableElementNonNull table' j = Ok initialElement
     /\ getTableElement table' j
        = Ok (if initialElement =? getUninitializedElement then 0 else initialElement))
  /\ (numElementsToGrow <> 0 ->
      forall q, resourceQuota table = Some q ->
        resourceQuota table'
        = Some {| tableElems :=
                    {| current := current (tableElems q) + numElementsToGrow;
                       maxValue := maxValue (tableElems q) |} |}).
Proof.
  intros Hh Hok Hmax Hd Hobj Hg. unfold growTable in Hg.
  destruct (growTableImpl_success_fields _ _ _ _ _ _ Hh Hok Hd Hg)
    as (_ & Hn' & Hr' & _ & Hnew & _ & Hlim).
  pose proof Hh as (Hw & _). split.
  - intros j Hj.
    assert (Hnz : numElementsToGrow <> 0) by lia.
    destruct (Hlim Hnz) as (_ & Hle & _).
    assert (Hok' : TableOk table').
    { destruct Hok as (Hb & Hres). unfold TableOk. rewrite Hn', Hr', Hw in *.
      destruct Hh as (_ & Hm & _). lia. }
    assert (Hlive : isLive table' j).
    { split; [destruct Hok; lia|]. rewrite (Hnew j Hj), decode_encode by apply Hobj.
      apply Hobj. }
    assert (Hget : getTableElementNonNull table' j = Ok initialElement).
    { rewrite getTableElementNonNull_live by assumption.
      now rewrite (Hnew j Hj), decode_encode by apply Hobj. }
    split; [exact Hget|]. unfold getTableElement, unwindSignalsAsExceptions.
    now rewrite Hget.
  - intros Hnz q Hq. destruct (Hlim Hnz) as (_ & _ & charged & Ha & ->).
    unfold allocateTableElems in Ha. rewrite Hq in Ha. unfold allocate in Ha.
    destruct (current (tableElems q) + numElementsToGrow <=? maxValue (tableElems q));
      [|discriminate].
    now injection Ha as <-.
Qed.

Lemma growTable_initial_element_witness :
  HostOk (H := host64) /\ TableOk (H := host64) table24q
  /\ maxTableElems (Host := host64) <= numReservedElements table24q
  /\ 0 <= 2 < 2 ^ 64 /\ isObject (H := host64) objB
  /\ growTable (H := host64) table24q 2 objB
     = ((growTable (H := host64) table24q 2 objB).1, Some 2)
  /\ ((forall j, numElements table24q <= j < numElements table24q + 2 ->
         getTableElementNonNull (H := host64)
           (growTable (H := host64) table24q 2 objB).1 j = Ok objB
         /\ getTableElement (H := host64) (growTable (H := host64) table24q 2 objB).1 j
            = Ok (if objB =? getUninitializedElement (H := host64) then 0 else objB))
      /\ (2 <> 0 ->
          forall q, resourceQuota table24q = Some q ->
            resourceQuota (growTable (H := host64) table24q 2 objB).1
            = Some {| tableElems :=
                        {| current := current (tableElems q) + 2;
                           maxValue := maxValue (tableElems q) |} |})).
Proof.
  assert (Hok : TableOk (H := host64) table24q)
    by (unfold TableOk; vm_compute; intuition discriminate).
  assert (Hmax : maxTableElems (Host := host64) <= numReservedElements table24q)
    by (vm_compute; discriminate).
  assert (Hd : 0 <= 2 < 2 ^ 64) by (vm_compute; intuition discriminate).
  assert (Hobj : isObject (H := host64) objB)
    by (unfold isObject; vm_compute; intuition discriminate).
  assert (Hg : growTable (H := host64) table24q 2 objB
               = ((growTable (H := host64) table24q 2 objB).1, Some 2))
    by (vm_compute; reflexivity).
  split; [exact host64_ok|]. split; [exact Hok|]. split; [exact Hmax|].
  split; [exact Hd|]. split; [exact Hobj|]. split; [exact Hg|].
  exact (growTable_initial_element (H := host64) table24q _ 2 objB 2
           host64_ok Hok Hmax Hd Hobj Hg).
Defined.

Lemma allocateTableElems_elements (table table' : Table) (n : Z) :
  allocateTableElems table n = Some table' -> elements table' = elements table.
Proof.
  unfold allocateTableElems. destruct (resourceQuota table) as [q|].
  - destruct (allocate (tableElems q) n); [|discriminate]. now intros [= <-].
  - now intros [= <-].
Qed.

(** X3: a growth by a non-zero delta fails in exactly four cases: the quota
    denies the charge, the new count would exceed the maximum of the type,
    it would exceed [IR::maxTableElems], or the platform refuses to commit
    the pages the growth needs.  The checks of the code, written so that
    they cannot overflow, are the plain comparisons of the sums. *)
Theorem growTableImpl_fails_iff `{Host} (table : Table)
    (numElementsToGrow : Z) (initializeNewElements : bool) (initializeToElement : Z) :
  HostOk -> TableOk table -> 0 < numElementsToGrow < 2 ^ 64 ->
  0 <= IR.max (IR.size (type table)) < 2 ^ 64 ->
  (growTableImpl table numElementsToGrow initializeNewElements initializeToElement).2 = None
  <-> (allocateTableElems table numElementsToGrow = None
       \/ numElements table + numElementsToGrow > IR.max (IR.size (type table))
       \/ numElements table + numElementsToGrow > maxTableElems
       \/ commitRefused table numElementsToGrow = true).
Proof.
  intros (Hw & Hm & _) (Hn0 & _) Hd Hmx. rewrite Hw in Hn0.
  unfold growTableImpl. destruct (numElementsToGrow =? 0) eqn:Hz; [lia|].
  destruct (allocateTableElems table numElementsToGrow) as [charged|] eqn:Ha;
    [|simpl; tauto].
  destruct (allocateTableElems_fields _ _ _ Ha) as (Hn & _ & _ & Hty).
  pose proof (allocateTableElems_elements _ _ _ Ha) as Hel.
  rewrite Hty, Hn, Hel.
  match goal with
  | |- context [if negb ?a && negb ?b then _ else _] =>
      change (negb a && negb b) with (commitRefused table numElementsToGrow)
  end.
  destruct (numElementsToGrow >? IR.max (IR.size (type table))) eqn:C1.
  { simpl. split; [intros _; right; left; lia | reflexivity]. }
  rewrite (U64_small (IR.max (IR.size (type table)) - numElementsToGrow)) by lia.
  destruct (numElements table >? IR.max (IR.size (type table)) - numElementsToGrow) eqn:C2.
  { simpl. split; [intros _; right; left; lia | reflexivity]. }
  destruct (numElementsToGrow >? maxTableElems) eqn:C3.
  { simpl. split; [intros _; right; right; left; lia | reflexivity]. }
  rewrite (U64_small (maxTableElems - numElementsToGrow)) by lia.
  destruct (numElements table >? maxTableElems - numElementsToGrow) eqn:C4.
  { simpl. split; [intros _; right; right; left; lia | reflexivity]. }
  simpl. destruct (commitRefused table numElementsToGrow) eqn:C5.
  - simpl. split; [intros _; now repeat right | reflexivity].
  - simpl. split; [discriminate|]. intros [Hq | [Hx | [Hx | Hx]]];
      [discriminate | lia | lia | discriminate].
Qed.

Lemma growTableImpl_fails_iff_witness :
  HostOk (H := host64) /\ TableOk (H := host64) table24q /\ 0 < 3 < 2 ^ 64
  /\ 0 <= IR.max (IR.size (type table24q)) < 2 ^ 64
  /\ ((growTableImpl (H := host64) table24q 3 true 8192).2 = None
      <-> (allocateTableElems table24q 3 = None
           \/ numElements table24q + 3 > IR.max (IR.size (type table24q))
           \/ numElements table24q + 3 > maxTableElems (Host := host64)
           \/ commitRefused (H := host64) table24q 3 = true)).
Proof.
  assert (Hok : TableOk (H := host64) table24q)
    by (unfold TableOk; vm_compute; intuition discriminate).
  assert (Hd : 0 < 3 < 2 ^ 64) by (vm_compute; intuition discriminate).
  assert (Hmx : 0 <= IR.max (IR.size (type table24q)) < 2 ^ 64)
    by (vm_compute; intuition discriminate).
  split; [exact host64_ok|]. split; [exact Hok|]. split; [exact Hd|]. split; [exact Hmx|].
  exact (growTableImpl_fails_iff (H := host64) table24q 3 true 8192
           host64_ok Hok Hd Hmx).
Defined.

(** ** Tables persist, and stay within their limits *)

Lemma tableStep_refl (table : Table) : tableStep table table.
Proof. unfold tableStep. repeat split; lia. Qed.

Lemma tableStep_trans (t1 t2 t3 : Table) :
  tableStep t1 t2 -> tableStep t2 t3 -> tableStep t1 t3.
Proof. unfold tableStep. intros (?&?&?&?&?) (?&?&?&?&?). repeat split; try congruence; lia. Qed.

Lemma tableStep_store (table : Table) (index value : Z) :
  tableStep table (store table index value).
Proof. unfold tableStep. simpl. repeat split; lia. Qed.

Lemma I3_store `{Host} (table : Table) (index value : Z) :
  I3 table -> I3 (store table index value).
Proof. intros Hi. exact Hi. Qed.

Lemma setTableElementNonNull_step `{Host} (table table' : Table)
    (index object : Z) (r : Result Z) :
  setTableElementNonNull table index object = (table', r) ->
  tableStep table table' /\ (I3 table -> I3 table').
Proof.
  intros Hs. destruct (setTableElementNonNull_cases _ _ _ _ _ Hs)
    as [[-> _] | (_ & _ & -> & _)].
  - split; [apply tableStep_refl | auto].
  - split; [apply tableStep_store | apply I3_store].
Qed.

Lemma setTableElement_step `{Host} (table table' : Table)
    (index newValue : Z) (r : Result Z) :
  setTableElement table index newValue = (table', r) ->
  tableStep table table' /\ (I3 table -> I3 table').
Proof.
  intros Hs. destruct (setTableElement_cases _ _ _ _ _ Hs)
    as [[-> _] | (_ & _ & -> & _)].
  - split; [apply tableStep_refl | auto].
  - split; [apply tableStep_store | apply I3_store].
Qed.

Lemma growTableImpl_step `{Host} (table table' : Table)
    (numElementsToGrow : Z) (initializeNewElements : bool)
    (initializeToElement : Z) (r : option Z) :
  HostOk -> TableOk table -> 0 <= numElementsToGrow < 2 ^ 64 ->
  growTableImpl table numElementsToGrow initializeNewElements initializeToElement
    = (table', r) ->
  tableStep table table' /\ (I3 table -> I3 table').
Proof.
  intros Hh Hok Hd Hg. destruct r as [old|].
  - destruct (growTableImpl_reserved _ _ _ _ _ _ Hg) as (Hr & Hb & He).
    destruct (growTableImpl_success_fields _ _ _ _ _ _ Hh Hok Hd Hg)
      as (_ & Hn' & _ & Hty & _ & _ & Hlim).
    split; [unfold tableStep; repeat split; try assumption; lia|].
    intros (Hi1 & Hi2). unfold I3. rewrite Hn', Hty.
    destruct (Z.eq_dec numElementsToGrow 0) as [->|Hnz]; [lia|].
    destruct (Hlim Hnz) as (? & ? & _). lia.
  - apply growTableImpl_false in Hg. subst table'.
    split; [apply tableStep_refl | auto].
Qed.

Lemma tableStepI3_refl `{Host} (table : Table) : tableStepI3 table table.
Proof. split; [apply tableStep_refl | auto]. Qed.

Lemma tableStepI3_trans `{Host} (t1 t2 t3 : Table) :
  tableStepI3 t1 t2 -> tableStepI3 t2 t3 -> tableStepI3 t1 t3.
Proof.
  intros [H12 I12] [H23 I23]. split; [eapply tableStep_trans; eassumption | auto].
Qed.

Lemma storeStep_refl `{Host} (contextRuntimeData : ContextRuntimeData) :
  storeStep contextRuntimeData contextRuntimeData.
Proof.
  intros tableId. destruct (getTableFromRuntimeData contextRuntimeData tableId);
    constructor. apply tableStepI3_refl.
Qed.

Lemma storeStep_trans `{Host} (rd1 rd2 rd3 : ContextRuntimeData) :
  storeStep rd1 rd2 -> storeStep rd2 rd3 -> storeStep rd1 rd3.
Proof.
  intros H12 H23 tableId. specialize (H12 tableId). specialize (H23 tableId).
  destruct H12 as [t1 t2 Ht|]; inversion H23; subst; constructor.
  eapply tableStepI3_trans; eassumption.
Qed.

Lemma storeStep_putTable `{Host} (contextRuntimeData : ContextRuntimeData)
    (tableId : Z) (table table' : Table) :
  getTableFromRuntimeData contextRuntimeData tableId = Some table ->
  tableStepI3 table table' ->
  storeStep contextRuntimeData (putTable contextRuntimeData tableId table').
Proof.
  intros Hget Hstep id. unfold getTableFromRuntimeData, putTable in *. simpl.
  destruct (Z.eq_dec tableId id) as [<-|Hne].
  - rewrite lookup_insert_eq, Hget. now constructor.
  - rewrite lookup_insert_ne by assumption.
    destruct (compartmentTables contextRuntimeData !! id); constructor.
    apply tableStepI3_refl.
Qed.

Lemma copyElement_step `{Host} (sourceTableId destTableId destIndex sourceIndex : Z)
    (contextRuntimeData contextRuntimeData' : ContextRuntimeData) (r : Result unit) :
  copyElement sourceTableId destTableId destIndex sourceIndex contextRuntimeData
    = Some (contextRuntimeData', r) ->
  storeStep contextRuntimeData contextRuntimeData'.
Proof.
  unfold copyElement.
  destruct (getTableFromRuntimeData contextRuntimeData sourceTableId)
    as [sourceTable|] eqn:Hsrc; [|discriminate]. cbn [mbind option_bind].
  destruct (getTableElementNonNull sourceTable sourceIndex) as [object|e].
  - destruct (getTableFromRuntimeData contextRuntimeData destTableId)
      as [destTable|] eqn:Hdst; [|discriminate]. cbn [mbind option_bind].
    destruct (setTableElementNonNull destTable destIndex object) as [t1 r1] eqn:Hs.
    pose proof (setTableElementNonNull_step _ _ _ _ _ Hs) as Hstep.
    destruct r1; intros [= <- _]; now apply (storeStep_putTable _ _ destTable).
  - intros [= <- _]. apply storeStep_refl.
Qed.

Lemma table_copy_step `{Host} (contextRuntimeData contextRuntimeData' : ContextRuntimeData)
    (destOffset sourceOffset numElems sourceTableId destTableId : Z) (r : Result unit) :
  table_copy contextRuntimeData destOffset sourceOffset numElems
             sourceTableId destTableId = Some (contextRuntimeData', r) ->
  storeStep contextRuntimeData contextRuntimeData'.
Proof.
  unfold table_copy, unwindSignalsAsExceptions.
  destruct (getTableFromRuntimeData contextRuntimeData sourceTableId); [|discriminate].
  destruct (getTableFromRuntimeData contextRuntimeData destTableId); [|discriminate].
  cbn [mbind option_bind].
  destruct (sourceOffset <? destOffset); intros Hloop;
    (eapply (forLoop_invariant (storeStep contextRuntimeData));
     [|apply storeStep_refl|exact Hloop]);
    intros i s s' r' Hs Hb; cbv beta in Hb;
    exact (storeStep_trans _ _ _ Hs (copyElement_step _ _ _ _ _ _ _ Hb)).
Qed.

Lemma table_fill_step `{Host} (contextRuntimeData contextRuntimeData' : ContextRuntimeData)
    (destOffset value numElems destTableId : Z) (r : Result unit) :
  table_fill contextRuntimeData destOffset value numElems destTableId
    = Some (contextRuntimeData', r) ->
  storeStep contextRuntimeData contextRuntimeData'.
Proof.
  unfold table_fill, unwindSignalsAsExceptions.
  destruct (getTableFromRuntimeData contextRuntimeData destTableId)
    as [destTable|] eqn:Hdst; [|discriminate]. cbn [mbind option_bind].
  match goal with
  | |- context [forLoop ?c ?i ?b ?s] => destruct (forLoop c i b s) as [[t1 r1]|] eqn:Hloop
  end; [|discriminate].
  cbn [mbind option_bind]. intros [= <- _]. apply (storeStep_putTable _ _ destTable _ Hdst).
  eapply (forLoop_invariant (tableStepI3 destTable));
    [|apply tableStepI3_refl|exact Hloop].
  intros i s s' r' Hs Hb. cbv beta in Hb.
  match type of Hb with
  | context [setTableElementNonNull s ?k ?v] =>
      destruct (setTableElementNonNull s k v) as [t2 r2] eqn:Hset
  end.
  pose proof (setTableElementNonNull_step _ _ _ _ _ Hset) as Hstep.
  destruct r2; injection Hb as <- _; exact (tableStepI3_trans _ _ _ Hs Hstep).
Qed.

Lemma initElemSegment_step `{Host} (moduleInstance : ModuleInstance)
    (elemVector : list IR.Elem) (table table' : Table)
    (destOffset sourceOffset numElems : Z) (r : Result unit) :
  initElemSegment moduleInstance elemVector table destOffset sourceOffset numElems
    = Some (table', r) ->
  tableStepI3 table table'.
Proof.
  intros Hloop. unfold initElemSegment in Hloop.
  eapply (forLoop_invariant (tableStepI3 table)); [|apply tableStepI3_refl|exact Hloop].
  intros i s s' r' Hs Hb. unfold initElem in Hb.
  match type of Hb with
  | (if ?c then _ else _) = _ => destruct c
  end; [now injection Hb as <- _|].
  match type of Hb with
  | context [setTableElement s ?k ?v] =>
      destruct (setTableElement s k v) as [t2 r2] eqn:Hset
  end.
  pose proof (setTableElement_step _ _ _ _ _ Hset) as Hstep.
  destruct r2; injection Hb as <- _; exact (tableStepI3_trans _ _ _ Hs Hstep).
Qed.

(** ** What creation returns *)

Lemma createTableImpl_fields `{Host} (tables tables' : list Table)
    (tableType : IR.TableType) (quota : option ResourceQuota) (table : Table) :
  uptrBits = 64 ->
  createTableImpl tables tableType quota = Some (Some table, tables') ->
  type table = tableType /\ resourceQuota table = quota
  /\ numElements table = 0 /\ numReservedElements table = 2 ^ 32
  /\ id table = UINTPTR_MAX /\ biasedValues table = ∅
  /\ tables' = tables ++ [table].
Proof.
  intros Hw Hc. unfold createTableImpl in Hc.
  destruct (shiftDefined 32); [|discriminate].
  match type of Hc with (if ?c then _ else _) = _ => destruct c end; [discriminate|].
  injection Hc as <- <-. simpl. repeat split; try reflexivity.
  unfold tableMaxElements, Uptr_shl, Uptr, U64. rewrite Hw. reflexivity.
Qed.

(** X4: the table [createTable] returns has the type asked for and the id
    the compartment handed out, and is the last of the global list; its
    count is the minimum of the type, which is within the maximum; every
    index below the count reads as the initial element (null for null) and
    every index from the count on is out of bounds. *)
Theorem createTable_success `{Host} (tables tables' : list Table)
    (tableType : IR.TableType) (element : Z) (quota : option ResourceQuota)
    (addedId : Z) (table : Table) :
  HostOk -> maxTableElems <= 2 ^ 32 ->
  0 <= IR.min (IR.size tableType) < 2 ^ 64 ->
  isObject element -> element <> getUninitializedElement ->
  createTable tables tableType element quota addedId = Some (Some table, tables') ->
  type table = tableType /\ id table = addedId /\ addedId <> UINTPTR_MAX
  /\ tables' = tables ++ [table]
  /\ numElements table = IR.min (IR.size tableType)
  /\ (IR.min (IR.size tableType) <> 0 ->
      IR.min (IR.size tableType) <= IR.max (IR.size tableType))
  /\ (forall i, 0 <= i < numElements table -> getTableElement table i = Ok element)
  /\ (forall i, numElements table <= i ->
        getTableElement table i = Throw outOfBoundsTableAccess).
Proof.
  intros Hh Himpl Hmin Hobj Hnu Hc. pose proof Hh as (Hw & Hm & Ho & Hu & Hne).
  unfold createTable in Hc.
  destruct (createTableImpl tables tableType quota) as [[[t0|] tables0]|] eqn:Hi;
    [| discriminate | discriminate]. cbn [mbind option_bind] in Hc.
  destruct (createTableImpl_fields _ _ _ _ _ Hw Hi)
    as (Hty0 & _ & Hn0 & Hr0 & _ & Hv0 & _).
  destruct (createTableImpl_inv _ _ _ _ _ Hh Hi) as [[Hok0 Hi20] _].
  match type of Hc with
  | context [growTableImpl t0 ?d ?i ?e] =>
      destruct (growTableImpl t0 d i e) as [t1 [old|]] eqn:Hg
  end; [|discriminate].
  destruct (addedId =? UINTPTR_MAX) eqn:Hid; [discriminate|]. injection Hc as <- <-.
  rewrite Uptr_small in Hg by (rewrite Hw; exact Hmin).
  set (stored := if element =? 0 then getUninitializedElement else element) in Hg.
  assert (Hs : isObject stored) by now apply isObject_stored.
  destruct (growTableImpl_success_fields _ _ _ _ _ _ Hh Hok0 Hmin Hg)
    as (_ & Hn1 & Hr1 & Hty1 & Hnew & Hout & Hlim).
  rewrite Hn0, Z.add_0_l in *.
  assert (Hok1 : TableOk t1).
  { unfold TableOk. rewrite Hn1, Hr1, Hr0, Hw. split; [lia|]. reflexivity. }
  split; [simpl; congruence|]. split; [reflexivity|]. split; [lia|].
  split; [reflexivity|]. split; [exact Hn1|]. split.
  { intros Hnz. destruct (Hlim Hnz) as (Hle & _). rewrite Hty0 in Hle. exact Hle. }
  split.
  - intros i Hi'. simpl in Hi'. rewrite Hn1 in Hi'.
    assert (Hnz : IR.min (IR.size tableType) <> 0) by lia.
    destruct (Hlim Hnz) as (_ & Hle & _).
    change (getTableElement (withId addedId t1) i) with (getTableElement t1 i).
    assert (Hlive : isLive t1 i).
    { split; [rewrite Hr1, Hr0; lia|].
      rewrite (Hnew i Hi'), decode_encode by apply Hs. apply Hs. }
    unfold getTableElement, unwindSignalsAsExceptions.
    rewrite getTableElementNonNull_live by assumption.
    rewrite (Hnew i Hi'), decode_encode by apply Hs.
    unfold stored. destruct (element =? 0) eqn:Hz.
    + rewrite Z.eqb_refl. f_equal. lia.
    + destruct (element =? getUninitializedElement) eqn:E; [lia|reflexivity].
  - intros i Hi'. simpl in Hi'. rewrite Hn1 in Hi'.
    change (getTableElement (withId addedId t1) i) with (getTableElement t1 i).
    unfold getTableElement, unwindSignalsAsExceptions.
    destruct (Z_lt_ge_dec i (numReservedElements t1)) as [Hlt|Hge].
    + rewrite getTableElementNonNull_zero; try assumption; [reflexivity|lia|].
      rewrite Hout by lia. unfold load. now rewrite Hv0.
    + unfold getTableElementNonNull.
      destruct (i >=? numReservedElements t1) eqn:E; [reflexivity|lia].
Qed.

Lemma createTable_success_witness :
  HostOk (H := host64) /\ maxTableElems (Host := host64) <= 2 ^ 32
  /\ 0 <= IR.min (IR.size (funcrefTable 2 4)) < 2 ^ 64
  /\ isObject (H := host64) objA /\ objA <> getUninitializedElement (H := host64)
  /\ createTable (H := host64) [] (funcrefTable 2 4) objA None 0
     = Some (Some table24, [table24])
  /\ (type table24 = funcrefTable 2 4 /\ id table24 = 0
      /\ 0 <> UINTPTR_MAX (H := host64)
      /\ [table24] = [] ++ [table24]
      /\ numElements table24 = IR.min (IR.size (funcrefTable 2 4))
      /\ (IR.min (IR.size (funcrefTable 2 4)) <> 0 ->
          IR.min (IR.size (funcrefTable 2 4)) <= IR.max (IR.size (funcrefTable 2 4)))
      /\ (forall i, 0 <= i < numElements table24 ->
            getTableElement (H := host64) table24 i = Ok objA)
      /\ (forall i, numElements table24 <= i ->
            getTableElement (H := host64) table24 i = Throw outOfBoundsTableAccess)).
Proof.
  assert (Himpl : maxTableElems (Host := host64) <= 2 ^ 32) by (vm_compute; discriminate).
  assert (Hmin : 0 <= IR.min (IR.size (funcrefTable 2 4)) < 2 ^ 64)
    by (vm_compute; intuition discriminate).
  assert (Hobj : isObject (H := host64) objA)
    by (unfold isObject; vm_compute; intuition discriminate).
  assert (Hnu : objA <> getUninitializedElement (H := host64))
    by (vm_compute; discriminate).
  assert (Hc : createTable (H := host64) [] (funcrefTable 2 4) objA None 0
               = Some (Some table24, [table24])) by (vm_compute; reflexivity).
  split; [exact host64_ok|]. split; [exact Himpl|]. split; [exact Hmin|].
  split; [exact Hobj|]. split; [exact Hnu|]. split; [exact Hc|].
  exact (createTable_success (H := host64) [] [table24] (funcrefTable 2 4) objA None 0
           table24 host64_ok Himpl Hmin Hobj Hnu Hc).
Defined.

Lemma copyElements_inside (count : nat) (first : Z) (table newTable : Table) (j : Z) :
  first <= j < first + Z.of_nat count ->
  load (copyElements count first table newTable) j = load table j.
Proof.
  revert first newTable. induction count as [|count IH]; intros first newTable Hj; simpl.
  - lia.
  - destruct (Z.eq_dec j first) as [->|Hne].
    + destruct (copyElements_fields count (first + 1) table
                  (store newTable first (load table first))) as (_ & _ & Hl).
      rewrite Hl by lia. apply load_store_eq.
    + apply IH. lia.
Qed.

Lemma copyElements_type (count : nat) (first : Z) (table newTable : Table) :
  type (copyElements count first table newTable) = type newTable.
Proof.
  revert first newTable. induction count as [|count IH]; intros first newTable; simpl.
  - reflexivity.
  - now rewrite IH.
Qed.

Lemma cloneTable_fields `{Host} (tables tables' : list Table) (table newTable : Table) :
  HostOk -> TableOk table ->
  cloneTable tables table = Some (Some newTable, tables') ->
  type newTable = type table /\ id newTable = id table
  /\ numElements newTable = numElements table
  /\ (forall i, 0 <= i < numElements table -> load newTable i = load table i)
  /\ (forall i, numElements table <= i -> load newTable i = 0)
  /\ tables' = tables ++ [newTable].
Proof.
  intros Hh Hok Hc. pose proof Hh as (Hw & Hm & _). unfold cloneTable in Hc.
  destruct (createTableImpl tables (type table) (resourceQuota table))
    as [[[t0|] tables0]|] eqn:Hi; [| discriminate | discriminate].
  cbn [mbind option_bind] in Hc.
  destruct (createTableImpl_fields _ _ _ _ _ Hw Hi)
    as (Hty0 & _ & Hn0 & _ & _ & Hv0 & _).
  destruct (createTableImpl_inv _ _ _ _ _ Hh Hi) as [[Hok0 _] _].
  destruct (growTableImpl t0 (numElements table) false getUninitializedElement)
    as [t1 [old|]] eqn:Hg; [|discriminate].
  injection Hc as <- <-.
  destruct Hok as (Hn & _). rewrite Hw in Hn.
  destruct (growTableImpl_success_fields _ _ _ _ _ _ Hh Hok0 Hn Hg)
    as (_ & Hn1 & _ & Hty1 & Hnew & Hout & _).
  rewrite Hn0, Z.add_0_l in *.
  destruct (copyElements_fields (Z.to_nat (numElements table)) 0 table t1)
    as (Hcn & _ & Hcl).
  assert (Hzero : forall i, load t1 i = 0).
  { intros i. destruct (Z_lt_ge_dec i 0) as [Hneg|Hpos].
    - rewrite Hout by lia. unfold load. now rewrite Hv0.
    - destruct (Z_lt_ge_dec i (numElements table)).
      + rewrite Hnew by lia. unfold load. now rewrite Hv0.
      + rewrite Hout by lia. unfold load. now rewrite Hv0. }
  split; [simpl; rewrite copyElements_type; congruence|]. split; [reflexivity|].
  split; [simpl; congruence|]. split; [|split; [|reflexivity]].
  - intros i Hi'. change (load (withId ?a ?t) i) with (load t i).
    apply copyElements_inside. lia.
  - intros i Hi'. change (load (withId ?a ?t) i) with (load t i).
    rewrite Hcl by lia. apply Hzero.
Qed.

(** X5: the table [cloneTable] returns has the type, the id and the count
    of the original, holds in every slot below the count the word the
    original holds there, and the zero word in every slot from the count
    on; it is the last of the global list. *)
Theorem cloneTable_success `{Host} (tables tables' : list Table) (table newTable : Table) :
  HostOk -> TableOk table ->
  cloneTable tables table = Some (Some newTable, tables') ->
  type newTable = type table /\ id newTable = id table
  /\ numElements newTable = numElements table
  /\ (forall i, 0 <= i < numElements table -> load newTable i = load table i)
  /\ (forall i, numElements table <= i -> load newTable i = 0)
  /\ tables' = tables ++ [newTable].
Proof. apply @cloneTable_fields. Qed.

Lemma cloneTable_success_witness :
  HostOk (H := host64) /\ TableOk (H := host64) tableABCD7
  /\ cloneTable (H := host64) [tableABCD7] tableABCD7
     = Some (Some (withId 7 tableABCD), [tableABCD7; withId 7 tableABCD])
  /\ (type (withId 7 tableABCD) = type tableABCD7
      /\ id (withId 7 tableABCD) = id tableABCD7
      /\ numElements (withId 7 tableABCD) = numElements tableABCD7
      /\ (forall i, 0 <= i < numElements tableABCD7 ->
            load (withId 7 tableABCD) i = load tableABCD7 i)
      /\ (forall i, numElements tableABCD7 <= i -> load (withId 7 tableABCD) i = 0)
      /\ [tableABCD7; withId 7 tableABCD] = [tableABCD7] ++ [withId 7 tableABCD]).
Proof.
  assert (Hok : TableOk (H := host64) tableABCD7)
    by (unfold TableOk; vm_compute; intuition discriminate).
  assert (Hc : cloneTable (H := host64) [tableABCD7] tableABCD7
               = Some (Some (withId 7 tableABCD), [tableABCD7; withId 7 tableABCD]))
    by (vm_compute; reflexivity).
  split; [exact host64_ok|]. split; [exact Hok|]. split; [exact Hc|].
  exact (cloneTable_success (H := host64) [tableABCD7] [tableABCD7; withId 7 tableABCD]
           tableABCD7 (withId 7 tableABCD) host64_ok Hok Hc).
Defined.

Lemma runOp_storeStep `{Host} (op : TableOp)
    (contextRuntimeData contextRuntimeData' : ContextRuntimeData) :
  HostOk -> StoreInv contextRuntimeData ->
  runOp op contextRuntimeData = Some contextRuntimeData' ->
  opNewTableId op = None ->
  storeStep contextRuntimeData contextRuntimeData'.
Proof.
  intros Hh Hrd Hop Hnew. pose proof Hh as (Hw & _).
  destruct op as [initialValue deltaNumElements tableId | tableId | index tableId
                 | index value tableId
                 | destIndex sourceIndex numElems moduleInstanceId tableId elemSegmentIndex
                 | moduleInstanceId elemSegmentIndex
                 | destOffset sourceOffset numElems sourceTableId destTableId
                 | destOffset value numElems destTableId
                 | tableType element quota addedId | tableId newTableId
                 | tableId numElementsToGrow initialElement | tableId index newValue];
    cbn [runOp] in Hop; try discriminate Hnew.
  - unfold table_grow in Hop.
    destruct (getTableFromRuntimeData contextRuntimeData tableId) as [table|] eqn:Ht;
      [|discriminate]. cbn [mbind option_bind] in Hop.
    match type of Hop with
    | context [growTable table ?d ?e] => destruct (growTable table d e) as [t1 r1] eqn:Hg
    end.
    unfold growTable in Hg.
    pose proof (growTableImpl_step _ _ _ _ _ _ Hh (proj1 (Hrd _ _ Ht)) (Uptr_range _ Hw) Hg)
      as Hstep.
    destruct r1; injection Hop as <-; exact (storeStep_putTable _ _ _ _ Ht Hstep).
  - destruct (table_size contextRuntimeData tableId); [|discriminate].
    injection Hop as <-. apply storeStep_refl.
  - destruct (table_get contextRuntimeData index tableId); [|discriminate].
    injection Hop as <-. apply storeStep_refl.
  - unfold table_set in Hop.
    destruct (getTableFromRuntimeData contextRuntimeData tableId) as [table|] eqn:Ht;
      [|discriminate]. cbn [mbind option_bind] in Hop.
    destruct (setTableElement table (Uptr index) value) as [t1 r1] eqn:Hs.
    pose proof (setTableElement_step _ _ _ _ _ Hs) as Hstep.
    destruct r1; injection Hop as <-; exact (storeStep_putTable _ _ _ _ Ht Hstep).
  - unfold table_init in Hop.
    destruct (getModuleInstanceFromRuntimeData contextRuntimeData moduleInstanceId)
      as [moduleInstance|]; [|discriminate]. cbn [mbind option_bind] in Hop.
    destruct (getTableFromRuntimeData contextRuntimeData tableId) as [table|] eqn:Ht;
      [|discriminate]. cbn [mbind option_bind] in Hop.
    destruct (elemSegments moduleInstance !! Z.to_nat elemSegmentIndex)
      as [[elemVector|]|]; [| |discriminate]; cbn [mbind option_bind] in Hop.
    + destruct (initElemSegment moduleInstance elemVector table (Uptr destIndex)
                  (Uptr sourceIndex) (Uptr numElems)) as [[t1 r1]|] eqn:Hi;
        [|discriminate]. cbn [mbind option_bind fmap option_fmap option_map] in Hop.
      injection Hop as <-.
      exact (storeStep_putTable _ _ _ _ Ht (initElemSegment_step _ _ _ _ _ _ _ _ Hi)).
    + injection Hop as <-. apply storeStep_refl.
  - unfold elem_drop in Hop.
    destruct (getModuleInstanceFromRuntimeData contextRuntimeData moduleInstanceId)
      as [moduleInstance|]; [|discriminate]. cbn [mbind option_bind] in Hop.
    destruct (elemSegments moduleInstance !! Z.to_nat elemSegmentIndex)
      as [[elemVector|]|]; [| |discriminate]; cbn [mbind option_bind] in Hop;
      injection Hop as <-; [|apply storeStep_refl].
    intros tableId. unfold getTableFromRuntimeData, putModuleInstance. simpl.
    destruct (compartmentTables contextRuntimeData !! tableId); constructor.
    apply tableStepI3_refl.
  - destruct (table_copy contextRuntimeData destOffset sourceOffset numElems
                sourceTableId destTableId) as [[rd1 r1]|] eqn:Hc; [|discriminate].
    injection Hop as <-. exact (table_copy_step _ _ _ _ _ _ _ _ Hc).
  - destruct (table_fill contextRuntimeData destOffset value numElems destTableId)
      as [[rd1 r1]|] eqn:Hf; [|discriminate].
    injection Hop as <-. exact (table_fill_step _ _ _ _ _ _ _ Hf).
  - destruct (getTableFromRuntimeData contextRuntimeData tableId) as [table|] eqn:Ht;
      [|discriminate]. cbn [mbind option_bind] in Hop. injection Hop as <-.
    destruct (growTable table (Uptr numElementsToGrow) initialElement) as [t1 r1] eqn:Hg.
    unfold growTable in Hg.
    exact (storeStep_putTable _ _ _ _ Ht
             (growTableImpl_step _ _ _ _ _ _ Hh (proj1 (Hrd _ _ Ht)) (Uptr_range _ Hw) Hg)).
  - destruct (getTableFromRuntimeData contextRuntimeData tableId) as [table|] eqn:Ht;
      [|discriminate]. cbn [mbind option_bind] in Hop. injection Hop as <-.
    destruct (setTableElement table (Uptr index) newValue) as [t1 r1] eqn:Hs.
    exact (storeStep_putTable _ _ _ _ Ht (setTableElement_step _ _ _ _ _ Hs)).
Qed.

Lemma createTable_I3 `{Host} (tables tables' : list Table) (tableType : IR.TableType)
    (element : Z) (quota : option ResourceQuota) (addedId : Z) (table : Table) :
  HostOk -> 0 <= IR.max (IR.size tableType) < 2 ^ 64 ->
  createTable tables tableType element quota addedId = Some (Some table, tables') ->
  I3 table.
Proof.
  intros Hh Hmx Hc. pose proof Hh as (Hw & Hm & _). unfold createTable in Hc.
  destruct (createTableImpl tables tableType quota) as [[[t0|] tables0]|] eqn:Hi;
    [| discriminate | discriminate]. cbn [mbind option_bind] in Hc.
  destruct (createTableImpl_fields _ _ _ _ _ Hw Hi) as (Hty0 & _ & Hn0 & _).
  destruct (createTableImpl_inv _ _ _ _ _ Hh Hi) as [[Hok0 _] _].
  match type of Hc with
  | context [growTableImpl t0 ?d ?i ?e] =>
      destruct (growTableImpl t0 d i e) as [t1 [old|]] eqn:Hg
  end; [|discriminate].
  destruct (addedId =? UINTPTR_MAX); [discriminate|]. injection Hc as <- _.
  destruct (growTableImpl_step _ _ _ _ _ _ Hh Hok0 (Uptr_range _ Hw) Hg) as [_ Hi3].
  apply Hi3. unfold I3. rewrite Hn0, Hty0. lia.
Qed.

Lemma cloneTable_I3 `{Host} (tables tables' : list Table) (table newTable : Table) :
  HostOk -> TableOk table -> I3 table ->
  cloneTable tables table = Some (Some newTable, tables') ->
  I3 newTable.
Proof.
  intros Hh Hok Hi3 Hc.
  destruct (cloneTable_fields _ _ _ _ Hh Hok Hc) as (Hty & _ & Hn & _).
  unfold I3. rewrite Hty, Hn. exact Hi3.
Qed.

(** X6: every table operation preserves invariant I3.  After any
    operation on a compartment whose tables are within the maximum of their
    type and within [IR::maxTableElems], every table of the compartment,
    one just created or cloned included, is within both again. *)
Theorem tableOp_preserves_I3 `{Host} (op : TableOp)
    (contextRuntimeData contextRuntimeData' : ContextRuntimeData) :
  HostOk -> StoreInv contextRuntimeData -> StoreI3 contextRuntimeData ->
  opTyped op ->
  runOp op contextRuntimeData = Some contextRuntimeData' ->
  forall tableId table,
    getTableFromRuntimeData contextRuntimeData' tableId = Some table ->
    numElements table <= IR.max (IR.size (type table))
    /\ numElements table <= maxTableElems.
Proof.
  intros Hh Hrd Hi3 Hty Hop tableId table Ht.
  destruct (opNewTableId op) as [newId|] eqn:Hnew.
  - destruct op; try discriminate Hnew; cbn [runOp] in Hop; cbn [opTyped] in Hty.
    + destruct (createTable [] type0 element resourceQuota0 addedId)
        as [[[newTable|] tables']|] eqn:Hc; [| |discriminate]; cbn in Hop;
        injection Hop as <-; [|exact (Hi3 _ _ Ht)].
      unfold getTableFromRuntimeData, putTable in Ht. simpl in Ht.
      destruct (Z.eq_dec addedId tableId) as [->|Hne].
      * rewrite lookup_insert_eq in Ht. injection Ht as <-.
        exact (createTable_I3 _ _ _ _ _ _ _ Hh Hty Hc).
      * rewrite lookup_insert_ne in Ht by assumption. exact (Hi3 _ _ Ht).
    + destruct (getTableFromRuntimeData contextRuntimeData tableId0)
        as [source|] eqn:Hs; [|discriminate]. cbn [mbind option_bind] in Hop.
      destruct (cloneTable [] source) as [[[newTable|] tables']|] eqn:Hc;
        [| |discriminate]; cbn in Hop; injection Hop as <-; [|exact (Hi3 _ _ Ht)].
      unfold getTableFromRuntimeData, putTable in Ht. simpl in Ht.
      destruct (Z.eq_dec newTableId tableId) as [->|Hne].
      * rewrite lookup_insert_eq in Ht. injection Ht as <-.
        exact (cloneTable_I3 _ _ _ _ Hh (proj1 (Hrd _ _ Hs)) (Hi3 _ _ Hs) Hc).
      * rewrite lookup_insert_ne in Ht by assumption. exact (Hi3 _ _ Ht).
  - pose proof (runOp_storeStep _ _ _ Hh Hrd Hop Hnew tableId) as Hstep.
    rewrite Ht in Hstep. inversion Hstep as [t0 t1 [_ Hkeep] Ht0 |]; subst.
    apply Hkeep. apply (Hi3 tableId). congruence.
Qed.

(** X7: no operation removes a table, changes its type, moves or resizes
    its reservation, or lowers its count.  A table of the compartment is
    still there after any operation that does not enter a new table under
    its id, with the same type, base address and reserved sizes, and at
    least as many elements. *)
Theorem tableOp_keeps_tables `{Host} (op : TableOp)
    (contextRuntimeData contextRuntimeData' : ContextRuntimeData)
    (tableId : Z) (table : Table) :
  HostOk -> StoreInv contextRuntimeData ->
  runOp op contextRuntimeData = Some contextRuntimeData' ->
  getTableFromRuntimeData contextRuntimeData tableId = Some table ->
  opNewTableId op <> Some tableId ->
  exists table',
    getTableFromRuntimeData contextRuntimeData' tableId = Some table'
    /\ type table' = type table
    /\ elements table' = elements table
    /\ numReservedBytes table' = numReservedBytes table
    /\ numReservedElements table' = numReservedElements table
    /\ numElements table <= numElements table'.
Proof.
  intros Hh Hrd Hop Ht Hid.
  destruct (opNewTableId op) as [newId|] eqn:Hnew.
  - assert (Hsame : getTableFromRuntimeData contextRuntimeData' tableId = Some table).
    { destruct op; try discriminate Hnew; cbn [runOp] in Hop; injection Hnew as <-.
      - destruct (createTable [] type0 element resourceQuota0 addedId)
          as [[[newTable|] tables']|]; [| |discriminate]; cbn in Hop;
          injection Hop as <-; [|exact Ht].
        unfold getTableFromRuntimeData, putTable in *. simpl.
        rewrite lookup_insert_ne by congruence. exact Ht.
      - destruct (getTableFromRuntimeData contextRuntimeData tableId0)
          as [source|]; [|discriminate]. cbn [mbind option_bind] in Hop.
        destruct (cloneTable [] source) as [[[newTable|] tables']|];
          [| |discriminate]; cbn in Hop; injection Hop as <-; [|exact Ht].
        unfold getTableFromRuntimeData, putTable in *. simpl.
        rewrite lookup_insert_ne by congruence. exact Ht. }
    exists table. split; [exact Hsame|]. repeat split; lia.
  - pose proof (runOp_storeStep _ _ _ Hh Hrd Hop Hnew tableId) as Hstep.
    rewrite Ht in Hstep. inversion Hstep as [t0 t1 [Hs _] Ht0 Ht1|]; subst.
    exists t1. split; [reflexivity|]. exact Hs.
Qed.

Lemma store24_inv : StoreInv (H := host64) store24.
Proof.
  intros tableId table Hl. unfold getTableFromRuntimeData, store24 in Hl. simpl in Hl.
  apply lookup_singleton_Some in Hl as [_ <-].
  split; [exact table24_ok | exact table24_I2].
Qed.

Lemma store24_I3 : StoreI3 (H := host64) store24.
Proof.
  intros tableId table Hl. unfold getTableFromRuntimeData, store24 in Hl. simpl in Hl.
  apply lookup_singleton_Some in Hl as [_ <-].
  unfold I3. vm_compute. split; discriminate.
Qed.

Lemma store24_grow : runOp (H := host64) (OpGrow 0 1 0) store24 = Some store34.
Proof. vm_compute. reflexivity. Qed.

Lemma tableOp_preserves_I3_witness :
  HostOk (H := host64) /\ StoreInv (H := host64) store24
  /\ StoreI3 (H := host64) store24 /\ opTyped (OpGrow 0 1 0)
  /\ runOp (H := host64) (OpGrow 0 1 0) store24 = Some store34
  /\ forall tableId table,
       getTableFromRuntimeData store34 tableId = Some table ->
       numElements table <= IR.max (IR.size (type table))
       /\ numElements table <= maxTableElems (Host := host64).
Proof.
  split; [exact host64_ok|]. split; [exact store24_inv|]. split; [exact store24_I3|].
  split; [exact I|]. split; [exact store24_grow|].
  exact (tableOp_preserves_I3 (H := host64) (OpGrow 0 1 0) store24 store34
           host64_ok store24_inv store24_I3 I store24_grow).
Defined.

Lemma tableOp_keeps_tables_witness :
  HostOk (H := host64) /\ StoreInv (H := host64) store24
  /\ runOp (H := host64) (OpGrow 0 1 0) store24 = Some store34
  /\ getTableFromRuntimeData store24 0 = Some table24
  /\ opNewTableId (OpGrow 0 1 0) <> Some 0
  /\ exists table',
       getTableFromRuntimeData store34 0 = Some table'
       /\ type table' = type table24
       /\ elements table' = elements table24
       /\ numReservedBytes table' = numReservedBytes table24
       /\ numReservedElements table' = numReservedElements table24
       /\ numElements table24 <= numElements table'.
Proof.
  assert (Ht : getTableFromRuntimeData store24 0 = Some table24) by reflexivity.
  assert (Hid : opNewTableId (OpGrow 0 1 0) <> Some 0) by discriminate.
  split; [exact host64_ok|]. split; [exact store24_inv|]. split; [exact store24_grow|].
  split; [exact Ht|]. split; [exact Hid|].
  exact (tableOp_keeps_tables (H := host64) (OpGrow 0 1 0) store24 store34 0 table24
           host64_ok store24_inv store24_grow Ht Hid).
Defined.

(** ** [table.fill] *)

Lemma table_fill_unfold `{Host} (contextRuntimeData : ContextRuntimeData)
    (destOffset value numElems destTableId : Z) (destTable : Table) :
  getTableFromRuntimeData contextRuntimeData destTableId = Some destTable ->
  table_fill contextRuntimeData destOffset value numElems destTableId
  = '(destTable', result) ←
      forLoop (Z.to_nat numElems) 0
        (fillElement destOffset (if value =? 0 then getUninitializedElement else value))
        destTable;
    Some (putTable contextRuntimeData destTableId destTable', result).
Proof. intros Hget. unfold table_fill. rewrite Hget. reflexivity. Qed.

(** The iterations of the loop over live slots: each stores the value. *)
Lemma fill_loop_live `{Host} (destOffset value : Z) (count : nat) (first : Z)
    (table : Table) :
  HostOk -> TableOk table -> isObject value ->
  0 <= destOffset < 2 ^ 32 -> 0 <= first -> first + Z.of_nat count <= 2 ^ 32 ->
  (forall k, first <= k < first + Z.of_nat count -> isLive table (destOffset + k)) ->
  exists table',
    forLoop count first (fillElement destOffset value) table = Some (table', Ok tt)
    /\ numElements table' = numElements table
    /\ numReservedElements table' = numReservedElements table
    /\ (forall k, first <= k < first + Z.of_nat count ->
          load table' (destOffset + k) = objectToBiasedTableElementValue value)
    /\ (forall j, j < destOffset + first \/ destOffset + first + Z.of_nat count <= j ->
          load table' j = load table j).
Proof.
  intros Hh. revert first table.
  induction count as [|count IH]; intros first table Hok Hobj Hd Hf Hc Hlive.
  - exists table. simpl. repeat split; try reflexivity. intros k Hk. lia.
  - cbn [forLoop]. unfold fillElement at 1.
    pose proof Hh as (Hw & _).
    rewrite copy_index_ascending by (try assumption; lia).
    rewrite setTableElementNonNull_live by (try assumption; apply Hlive; lia).
    set (t1 := store table (destOffset + first) (objectToBiasedTableElementValue value)).
    destruct (IH (first + 1) t1) as (t' & Hloop & Hn & Hr & Hin & Hout);
      try assumption; try lia.
    { intros k Hk. apply isLive_store_ne; [lia | apply Hlive; lia]. }
    exists t'. split; [exact Hloop|]. split; [exact Hn|]. split; [exact Hr|]. split.
    + intros k Hk. destruct (Z.eq_dec k first) as [->|Hne].
      * rewrite Hout by lia. apply load_store_eq.
      * apply Hin. lia.
    + intros j Hj. rewrite Hout by lia. apply load_store_ne. lia.
Qed.

(** X8: [table.fill] over live slots returns normally; afterwards each of
    the slots reads as the value (null for null), and no other slot and no
    count has changed. *)
Theorem table_fill_in_bounds `{Host} (contextRuntimeData : ContextRuntimeData)
    (destOffset value numElems destTableId : Z) (destTable : Table) :
  HostOk ->
  getTableFromRuntimeData contextRuntimeData destTableId = Some destTable ->
  TableOk destTable ->
  0 <= destOffset < 2 ^ 32 -> 0 <= numElems < 2 ^ 32 ->
  isObject value -> value <> getUninitializedElement ->
  (forall k, 0 <= k < numElems -> isLive destTable (destOffset + k)) ->
  exists destTable',
    table_fill contextRuntimeData destOffset value numElems destTableId
    = Some (putTable contextRuntimeData destTableId destTable', Ok tt)
    /\ (forall k, 0 <= k < numElems ->
          getTableElement destTable' (destOffset + k) = Ok value)
    /\ (forall j, j < destOffset \/ destOffset + numElems <= j ->
          load destTable' j = load destTable j)
    /\ numElements destTable' = numElements destTable.
Proof.
  intros Hh Hget Hok Hd Hn Hobj Hnu Hlive.
  set (stored := if value =? 0 then getUninitializedElement else value).
  assert (Hs : isObject stored) by now apply isObject_stored.
  destruct (fill_loop_live destOffset stored (Z.to_nat numElems) 0 destTable)
    as (t' & Hloop & Hn' & Hr' & Hin & Hout); try assumption; try lia.
  { intros k Hk. apply Hlive. lia. }
  exists t'. split; [|split; [|split]].
  - rewrite (table_fill_unfold _ _ _ _ _ _ Hget). fold stored. now rewrite Hloop.
  - intros k Hk. unfold getTableElement, unwindSignalsAsExceptions.
    assert (Hl : load t' (destOffset + k) = objectToBiasedTableElementValue stored)
      by (apply Hin; lia).
    assert (Hok' : TableOk t') by (unfold TableOk; rewrite Hn', Hr'; exact Hok).
    assert (Hlive' : isLive t' (destOffset + k)).
    { split; [rewrite Hr'; apply Hlive; lia|].
      rewrite Hl, decode_encode by apply Hs. apply Hs. }
    rewrite getTableElementNonNull_live by assumption.
    rewrite Hl, decode_encode by apply Hs.
    unfold stored. destruct (value =? 0) eqn:Hz.
    + rewrite Z.eqb_refl. f_equal. lia.
    + destruct (value =? getUninitializedElement) eqn:E; [lia|reflexivity].
  - intros j Hj. apply Hout. lia.
  - exact Hn'.
Qed.

Lemma setTableElementNonNull_past_size `{Host} (table : Table) (index object : Z) :
  HostOk -> TableOk table -> I2 table -> numElements table <= index ->
  setTableElementNonNull table index object = (table, Throw outOfBoundsTableAccess).
Proof.
  intros (Hw & _ & Ho & _) ((Hn & _) & Hres) Hi2 Hidx. unfold setTableElementNonNull.
  destruct (index >=? numReservedElements table) eqn:Hge; [reflexivity|].
  rewrite saturatedIndex_id by (try assumption; lia).
  rewrite (Hi2 index) by lia. rewrite decode_zero by (rewrite Hw; lia).
  now rewrite Z.eqb_refl.
Qed.

(** X9: [table.fill] over a range that starts within the table and ends
    past its count throws [outOfBoundsTableAccess], after it has written
    the value to the slots of the range that are below the count; those
    slots now read as the value, and no other slot has changed. *)
Theorem table_fill_past_size `{Host} (contextRuntimeData : ContextRuntimeData)
    (destOffset value numElems destTableId : Z) (destTable : Table) :
  HostOk ->
  getTableFromRuntimeData contextRuntimeData destTableId = Some destTable ->
  TableOk destTable -> I2 destTable ->
  0 <= destOffset < 2 ^ 32 -> 0 <= numElems < 2 ^ 32 ->
  isObject value -> value <> getUninitializedElement ->
  destOffset <= numElements destTable < destOffset + numElems ->
  (forall i, destOffset <= i < numElements destTable -> isLive destTable i) ->
  exists destTable',
    table_fill contextRuntimeData destOffset value numElems destTableId
    = Some (putTable contextRuntimeData destTableId destTable',
            Throw outOfBoundsTableAccess)
    /\ (forall i, destOffset <= i < numElements destTable ->
          getTableElement destTable' i = Ok value)
    /\ (forall j, j < destOffset \/ numElements destTable <= j ->
          load destTable' j = load destTable j)
    /\ numElements destTable' = numElements destTable.
Proof.
  intros Hh Hget Hok Hi2 Hd Hn Hobj Hnu Hrange Hlive.
  set (stored := if value =? 0 then getUninitializedElement else value).
  assert (Hs : isObject stored) by now apply isObject_stored.
  set (m := numElements destTable - destOffset).
  destruct (fill_loop_live destOffset stored (Z.to_nat m) 0 destTable)
    as (t' & Hloop & Hn' & Hr' & Hin & Hout); try assumption; try (unfold m; lia).
  { intros k Hk. apply Hlive. unfold m in Hk. lia. }
  assert (Hok' : TableOk t') by (unfold TableOk; rewrite Hn', Hr'; exact Hok).
  assert (Hi2' : I2 t').
  { intros i Hi. rewrite Hn', Hr' in Hi. rewrite Hout by (unfold m; lia). now apply Hi2. }
  exists t'. split; [|split; [|split]].
  - rewrite (table_fill_unfold _ _ _ _ _ _ Hget). fold stored.
    replace (Z.to_nat numElems)
      with (Z.to_nat m + S (Z.to_nat (numElems - m - 1)))%nat by (unfold m; lia).
    rewrite forLoop_split, Hloop. cbn [forLoop]. unfold fillElement at 1.
    pose proof Hh as (Hw & _).
    rewrite copy_index_ascending by (try assumption; unfold m; lia).
    rewrite setTableElementNonNull_past_size by (try assumption; unfold m; lia).
    reflexivity.
  - intros i Hi. unfold getTableElement, unwindSignalsAsExceptions.
    assert (Hl : load t' i = objectToBiasedTableElementValue stored).
    { replace i with (destOffset + (i - destOffset)) by ring. apply Hin. unfold m. lia. }
    assert (Hlive' : isLive t' i).
    { split; [rewrite Hr'; apply Hlive; lia|].
      rewrite Hl, decode_encode by apply Hs. apply Hs. }
    rewrite getTableElementNonNull_live by assumption.
    rewrite Hl, decode_encode by apply Hs.
    unfold stored. destruct (value =? 0) eqn:Hz.
    + rewrite Z.eqb_refl. f_equal. lia.
    + destruct (value =? getUninitializedElement) eqn:E; [lia|reflexivity].
  - intros j Hj. apply Hout. unfold m. lia.
  - exact Hn'.
Qed.

Lemma tableABCD_live (i : Z) : 0 <= i < 4 -> isLive (H := host64) tableABCD i.
Proof.
  intros Hi. assert (Hc : i = 0 \/ i = 1 \/ i = 2 \/ i = 3) by lia.
  destruct Hc as [-> | [-> | [-> | ->]]]; unfold isLive; vm_compute; intuition discriminate.
Qed.

Lemma table_fill_in_bounds_witness :
  HostOk (H := host64)
  /\ getTableFromRuntimeData storeABCD 0 = Some tableABCD
  /\ TableOk (H := host64) tableABCD
  /\ 0 <= 1 < 2 ^ 32 /\ 0 <= 2 < 2 ^ 32
  /\ isObject (H := host64) 0 /\ 0 <> getUninitializedElement (H := host64)
  /\ (forall k, 0 <= k < 2 -> isLive (H := host64) tableABCD (1 + k))
  /\ exists destTable',
       table_fill (H := host64) storeABCD 1 0 2 0
       = Some (putTable storeABCD 0 destTable', Ok tt)
       /\ (forall k, 0 <= k < 2 ->
             getTableElement (H := host64) destTable' (1 + k) = Ok 0)
       /\ (forall j, j < 1 \/ 1 + 2 <= j -> load destTable' j = load tableABCD j)
       /\ numElements destTable' = numElements tableABCD.
Proof.
  assert (Hget : getTableFromRuntimeData storeABCD 0 = Some tableABCD) by reflexivity.
  assert (H1 : 0 <= 1 < 2 ^ 32) by (vm_compute; intuition discriminate).
  assert (H2 : 0 <= 2 < 2 ^ 32) by (vm_compute; intuition discriminate).
  assert (Hobj : isObject (H := host64) 0)
    by (unfold isObject; vm_compute; intuition discriminate).
  assert (Hnu : 0 <> getUninitializedElement (H := host64)) by (vm_compute; discriminate).
  assert (Hlive : forall k, 0 <= k < 2 -> isLive (H := host64) tableABCD (1 + k))
    by (intros k Hk; apply tableABCD_live; lia).
  split; [exact host64_ok|]. split; [exact Hget|]. split; [exact tableABCD_ok|].
  split; [exact H1|]. split; [exact H2|]. split; [exact Hobj|]. split; [exact Hnu|].
  split; [exact Hlive|].
  exact (table_fill_in_bounds (H := host64) storeABCD 1 0 2 0 tableABCD
           host64_ok Hget tableABCD_ok H1 H2 Hobj Hnu Hlive).
Defined.

Lemma table_fill_past_size_witness :
  HostOk (H := host64)
  /\ getTableFromRuntimeData storeABCD 0 = Some tableABCD
  /\ TableOk (H := host64) tableABCD /\ I2 tableABCD
  /\ 0 <= 2 < 2 ^ 32 /\ 0 <= 5 < 2 ^ 32
  /\ isObject (H := host64) objA /\ objA <> getUninitializedElement (H := host64)
  /\ 2 <= numElements tableABCD < 2 + 5
  /\ (forall i, 2 <= i < numElements tableABCD -> isLive (H := host64) tableABCD i)
  /\ exists destTable',
       table_fill (H := host64) storeABCD 2 objA 5 0
       = Some (putTable storeABCD 0 destTable', Throw outOfBoundsTableAccess)
       /\ (forall i, 2 <= i < numElements tableABCD ->
             getTableElement (H := host64) destTable' i = Ok objA)
       /\ (forall j, j < 2 \/ numElements tableABCD <= j ->
             load destTable' j = load tableABCD j)
       /\ numElements destTable' = numElements tableABCD.
Proof.
  assert (Hget : getTableFromRuntimeData storeABCD 0 = Some tableABCD) by reflexivity.
  assert (H2 : 0 <= 2 < 2 ^ 32) by (vm_compute; intuition discriminate).
  assert (H5 : 0 <= 5 < 2 ^ 32) by (vm_compute; intuition discriminate).
  assert (Hobj : isObject (H := host64) objA)
    by (unfold isObject; vm_compute; intuition discriminate).
  assert (Hnu : objA <> getUninitializedElement (H := host64))
    by (vm_compute; discriminate).
  assert (Hr : 2 <= numElements tableABCD < 2 + 5)
    by (vm_compute; intuition discriminate).
  assert (Hlive : forall i, 2 <= i < numElements tableABCD ->
                            isLive (H := host64) tableABCD i).
  { intros i Hi. apply tableABCD_live. destruct tableABCD_fields as (Hn & _).
    rewrite Hn in Hi. lia. }
  split; [exact host64_ok|]. split; [exact Hget|]. split; [exact tableABCD_ok|].
  split; [exact tableABCD_I2|]. split; [exact H2|]. split; [exact H5|].
  split; [exact Hobj|]. split; [exact Hnu|]. split; [exact Hr|]. split; [exact Hlive|].
  exact (table_fill_past_size (H := host64) storeABCD 2 objA 5 0 tableABCD
           host64_ok Hget tableABCD_ok tableABCD_I2 H2 H5 Hobj Hnu Hr Hlive).
Defined.

(** ** [table.init] and [elem.drop] *)

Lemma init_loop_live `{Host} (moduleInstance : ModuleInstance)
    (elemVector : list IR.Elem) (destOffset sourceOffset : Z)
    (count : nat) (first : Z) (table : Table) :
  HostOk -> TableOk table ->
  0 <= destOffset -> 0 <= sourceOffset -> 0 <= first ->
  destOffset + first + Z.of_nat count <= 2 ^ 64 ->
  sourceOffset + first + Z.of_nat count <= Z.of_nat (length elemVector) ->
  Z.of_nat (length elemVector) < 2 ^ 64 ->
  (forall k, first <= k < first + Z.of_nat count ->
     isLive table (destOffset + k)
     /\ isObject (elemObjectOf moduleInstance
                    (nth (Z.to_nat (sourceOffset + k)) elemVector IR.ref_null))) ->
  exists table',
    forLoop count first (initElem moduleInstance elemVector destOffset sourceOffset) table
      = Some (table', Ok tt)
    /\ numElements table' = numElements table
    /\ numReservedElements table' = numReservedElements table
    /\ (forall k, first <= k < first + Z.of_nat count ->
          load table' (destOffset + k)
          = objectToBiasedTableElementValue
              (let object := elemObjectOf moduleInstance
                               (nth (Z.to_nat (sourceOffset + k)) elemVector IR.ref_null) in
               if object =? 0 then getUninitializedElement else object))
    /\ (forall j, j < destOffset + first \/ destOffset + first + Z.of_nat count <= j ->
          load table' j = load table j).
Proof.
  intros Hh. pose proof Hh as (Hw & _). revert first table.
  induction count as [|count IH]; intros first table Hok Hd Hs Hf Hdb Hsb Hlen Hk.
  - exists table. simpl. repeat split; try reflexivity. intros k Hk'. lia.
  - cbn [forLoop]. unfold initElem at 1.
    rewrite !Uptr_small by (rewrite Hw; lia).
    destruct (sourceOffset + first >=? Z.of_nat (length elemVector)) eqn:E1; [lia|].
    destruct (sourceOffset + first <? sourceOffset) eqn:E2; [lia|]. cbn [orb].
    fold (elemObjectOf moduleInstance
            (nth (Z.to_nat (sourceOffset + first)) elemVector IR.ref_null)).
    set (object := elemObjectOf moduleInstance
                     (nth (Z.to_nat (sourceOffset + first)) elemVector IR.ref_null)).
    destruct (Hk first ltac:(lia)) as (Hlive & Hobj). fold object in Hobj.
    unfold setTableElement, unwindSignalsAsExceptions.
    rewrite setTableElementNonNull_live by assumption.
    set (t1 := store table (destOffset + first)
                 (objectToBiasedTableElementValue
                    (if object =? 0 then getUninitializedElement else object))).
    destruct (IH (first + 1) t1) as (t' & Hloop & Hn & Hr & Hin & Hout);
      try assumption; try lia.
    { intros k Hk'. destruct (Hk k ltac:(lia)) as (Hl & Ho). split; [|exact Ho].
      apply isLive_store_ne; [lia | exact Hl]. }
    exists t'. split; [exact Hloop|]. split; [exact Hn|]. split; [exact Hr|]. split.
    + intros k Hk'. destruct (Z.eq_dec k first) as [->|Hne].
      * rewrite Hout by lia. apply load_store_eq.
      * apply Hin. lia.
    + intros j Hj. rewrite Hout by lia. apply load_store_ne. lia.
Qed.

(** X10: [initElemSegment] with a source range inside the segment and a
    destination range of live slots returns normally; afterwards each
    destination slot reads as the object of its segment entry, null for
    [ref_null] and the function of the module for [ref_func], and no other
    slot and no count has changed. *)
Theorem initElemSegment_in_bounds `{Host} (moduleInstance : ModuleInstance)
    (elemVector : list IR.Elem) (table : Table)
    (destOffset sourceOffset numElems : Z) :
  HostOk -> TableOk table ->
  0 <= destOffset -> 0 <= sourceOffset -> 0 <= numElems ->
  destOffset + numElems <= 2 ^ 64 ->
  sourceOffset + numElems <= Z.of_nat (length elemVector) ->
  Z.of_nat (length elemVector) < 2 ^ 64 ->
  (forall k, 0 <= k < numElems ->
     isLive table (destOffset + k)
     /\ elemInRange moduleInstance
          (nth (Z.to_nat (sourceOffset + k)) elemVector IR.ref_null)
     /\ isObject (elemObjectOf moduleInstance
                    (nth (Z.to_nat (sourceOffset + k)) elemVector IR.ref_null))
     /\ elemObjectOf moduleInstance
          (nth (Z.to_nat (sourceOffset + k)) elemVector IR.ref_null)
        <> getUninitializedElement) ->
  exists table',
    initElemSegment moduleInstance elemVector table destOffset sourceOffset numElems
      = Some (table', Ok tt)
    /\ (forall k, 0 <= k < numElems ->
          getTableElement table' (destOffset + k)
          = Ok (elemObjectOf moduleInstance
                  (nth (Z.to_nat (sourceOffset + k)) elemVector IR.ref_null)))
    /\ (forall j, j < destOffset \/ destOffset + numElems <= j ->
          load table' j = load table j)
    /\ numElements table' = numElements table.
Proof.
  intros Hh Hok Hd Hs Hn Hdb Hsb Hlen Hk.
  destruct (init_loop_live moduleInstance elemVector destOffset sourceOffset
              (Z.to_nat numElems) 0 table)
    as (t' & Hloop & Hn' & Hr' & Hin & Hout); try assumption; try lia.
  { intros k Hk'. destruct (Hk k ltac:(lia)) as (Hl & _ & Ho & _). now split. }
  exists t'. split; [exact Hloop|]. split; [|split; [|exact Hn']].
  - intros k Hk'. destruct (Hk k Hk') as (Hl & _ & Ho & Hnu).
    set (object := elemObjectOf moduleInstance
                     (nth (Z.to_nat (sourceOffset + k)) elemVector IR.ref_null)) in *.
    assert (Hs' : isObject (if object =? 0 then getUninitializedElement else object))
      by now apply isObject_stored.
    assert (Hload : load t' (destOffset + k)
                    = objectToBiasedTableElementValue
                        (if object =? 0 then getUninitializedElement else object))
      by (apply Hin; lia).
    assert (Hok' : TableOk t') by (unfold TableOk; rewrite Hn', Hr'; exact Hok).
    assert (Hlive' : isLive t' (destOffset + k)).
    { split; [rewrite Hr'; apply Hl|]. rewrite Hload, decode_encode by apply Hs'.
      apply Hs'. }
    unfold getTableElement, unwindSignalsAsExceptions.
    rewrite getTableElementNonNull_live by assumption.
    rewrite Hload, decode_encode by apply Hs'.
    destruct (object =? 0) eqn:Hz.
    + rewrite Z.eqb_refl. f_equal. lia.
    + destruct (object =? getUninitializedElement) eqn:E; [lia|reflexivity].
  - intros j Hj. apply Hout. lia.
Qed.

Lemma initElemSegment_in_bounds_witness :
  HostOk (H := host64) /\ TableOk (H := host64) tableABCD
  /\ 0 <= 1 /\ 0 <= 0 /\ 0 <= 2 /\ 1 + 2 <= 2 ^ 64
  /\ 0 + 2 <= Z.of_nat (length [IR.ref_func 0; IR.ref_func 1])
  /\ Z.of_nat (length [IR.ref_func 0; IR.ref_func 1]) < 2 ^ 64
  /\ (forall k, 0 <= k < 2 ->
        isLive (H := host64) tableABCD (1 + k)
        /\ elemInRange module2
             (nth (Z.to_nat (0 + k)) [IR.ref_func 0; IR.ref_func 1] IR.ref_null)
        /\ isObject (H := host64)
             (elemObjectOf module2
                (nth (Z.to_nat (0 + k)) [IR.ref_func 0; IR.ref_func 1] IR.ref_null))
        /\ elemObjectOf module2
             (nth (Z.to_nat (0 + k)) [IR.ref_func 0; IR.ref_func 1] IR.ref_null)
           <> getUninitializedElement (H := host64))
  /\ exists table',
       initElemSegment (H := host64) module2 [IR.ref_func 0; IR.ref_func 1]
         tableABCD 1 0 2 = Some (table', Ok tt)
       /\ (forall k, 0 <= k < 2 ->
             getTableElement (H := host64) table' (1 + k)
             = Ok (elemObjectOf module2
                     (nth (Z.to_nat (0 + k)) [IR.ref_func 0; IR.ref_func 1] IR.ref_null)))
       /\ (forall j, j < 1 \/ 1 + 2 <= j -> load table' j = load tableABCD j)
       /\ numElements table' = numElements tableABCD.
Proof.
  assert (H1 : 0 <= 1) by lia. assert (H0 : 0 <= 0) by lia. assert (H2 : 0 <= 2) by lia.
  assert (Hdb : 1 + 2 <= 2 ^ 64) by (vm_compute; discriminate).
  assert (Hsb : 0 + 2 <= Z.of_nat (length [IR.ref_func 0; IR.ref_func 1]))
    by (vm_compute; discriminate).
  assert (Hlen : Z.of_nat (length [IR.ref_func 0; IR.ref_func 1]) < 2 ^ 64)
    by (vm_compute; reflexivity).
  assert (Hk : forall k, 0 <= k < 2 ->
        isLive (H := host64) tableABCD (1 + k)
        /\ elemInRange module2
             (nth (Z.to_nat (0 + k)) [IR.ref_func 0; IR.ref_func 1] IR.ref_null)
        /\ isObject (H := host64)
             (elemObjectOf module2
                (nth (Z.to_nat (0 + k)) [IR.ref_func 0; IR.ref_func 1] IR.ref_null))
        /\ elemObjectOf module2
             (nth (Z.to_nat (0 + k)) [IR.ref_func 0; IR.ref_func 1] IR.ref_null)
           <> getUninitializedElement (H := host64)).
  { intros k Hk. assert (Hc : k = 0 \/ k = 1) by lia.
    destruct Hc as [-> | ->];
      (split; [apply tableABCD_live; lia|]);
      unfold elemInRange, isObject; vm_compute; intuition discriminate. }
  split; [exact host64_ok|]. split; [exact tableABCD_ok|]. split; [exact H1|].
  split; [exact H0|]. split; [exact H2|]. split; [exact Hdb|]. split; [exact Hsb|].
  split; [exact Hlen|]. split; [exact Hk|].
  exact (initElemSegment_in_bounds (H := host64) module2 [IR.ref_func 0; IR.ref_func 1]
           tableABCD 1 0 2 host64_ok tableABCD_ok H1 H0 H2 Hdb Hsb Hlen Hk).
Defined.

(** X11: after [elem.drop] has dropped a segment, the tables are as they
    were; dropping the segment again throws [invalidArgument], and so does
    every [table.init] from it, whatever the ranges, without touching the
    store. *)
Theorem elem_drop_then_init `{Host}
    (contextRuntimeData contextRuntimeData' : ContextRuntimeData)
    (moduleInstanceId elemSegmentIndex : Z) :
  elem_drop contextRuntimeData moduleInstanceId elemSegmentIndex
    = Some (contextRuntimeData', Ok tt) ->
  compartmentTables contextRuntimeData' = compartmentTables contextRuntimeData
  /\ elem_drop contextRuntimeData' moduleInstanceId elemSegmentIndex
     = Some (contextRuntimeData', Throw invalidArgument)
  /\ forall destIndex sourceIndex numElems tableId,
       is_Some (getTableFromRuntimeData contextRuntimeData tableId) ->
       table_init contextRuntimeData' destIndex sourceIndex numElems
                  moduleInstanceId tableId elemSegmentIndex
       = Some (contextRuntimeData', Throw invalidArgument).
Proof.
  intros Hdrop. unfold elem_drop in Hdrop.
  destruct (getModuleInstanceFromRuntimeData contextRuntimeData moduleInstanceId)
    as [moduleInstance|] eqn:Hm; [|discriminate]. cbn [mbind option_bind] in Hdrop.
  destruct (elemSegments moduleInstance !! Z.to_nat elemSegmentIndex)
    as [[elemVector|]|] eqn:Hseg; [| discriminate | discriminate].
  cbn [mbind option_bind] in Hdrop. injection Hdrop as <-.
  assert (Hm' : getModuleInstanceFromRuntimeData
                  (putModuleInstance contextRuntimeData moduleInstanceId
                     {| functions := functions moduleInstance;
                        elemSegments := <[Z.to_nat elemSegmentIndex := None]>
                                          (elemSegments moduleInstance) |})
                  moduleInstanceId
                = Some {| functions := functions moduleInstance;
                          elemSegments := <[Z.to_nat elemSegmentIndex := None]>
                                            (elemSegments moduleInstance) |}).
  { unfold getModuleInstanceFromRuntimeData, putModuleInstance. simpl.
    apply lookup_insert_eq. }
  assert (Hseg' : <[Z.to_nat elemSegmentIndex := None]> (elemSegments moduleInstance)
                    !! Z.to_nat elemSegmentIndex = Some None).
  { apply list_lookup_insert_eq. eapply lookup_lt_Some. exact Hseg. }
  split; [reflexivity|]. split.
  - unfold elem_drop. rewrite Hm'. cbn [mbind option_bind elemSegments].
    rewrite Hseg'. reflexivity.
  - intros destIndex sourceIndex numElems tableId [table Ht].
    unfold table_init. rewrite Hm'. cbn [mbind option_bind].
    change (getTableFromRuntimeData (putModuleInstance contextRuntimeData ?a ?b) tableId)
      with (getTableFromRuntimeData contextRuntimeData tableId).
    rewrite Ht. cbn [mbind option_bind elemSegments]. rewrite Hseg'. reflexivity.
Qed.

Lemma elem_drop_then_init_witness :
  elem_drop storeABCDm 0 0
  = Some (putModuleInstance storeABCDm 0
            {| functions := [objC; objD]; elemSegments := [None] |}, Ok tt)
  /\ (compartmentTables
        (putModuleInstance storeABCDm 0
           {| functions := [objC; objD]; elemSegments := [None] |})
      = compartmentTables storeABCDm
      /\ elem_drop
           (putModuleInstance storeABCDm 0
              {| functions := [objC; objD]; elemSegments := [None] |}) 0 0
         = Some (putModuleInstance storeABCDm 0
                   {| functions := [objC; objD]; elemSegments := [None] |},
                 Throw invalidArgument)
      /\ forall destIndex sourceIndex numElems tableId,
           is_Some (getTableFromRuntimeData storeABCDm tableId) ->
           table_init (H := host64)
             (putModuleInstance storeABCDm 0
                {| functions := [objC; objD]; elemSegments := [None] |})
             destIndex sourceIndex numElems 0 tableId 0
           = Some (putModuleInstance storeABCDm 0
                     {| functions := [objC; objD]; elemSegments := [None] |},
                   Throw invalidArgument)).
Proof.
  assert (Hd : elem_drop storeABCDm 0 0
               = Some (putModuleInstance storeABCDm 0
                         {| functions := [objC; objD]; elemSegments := [None] |}, Ok tt))
    by reflexivity.
  split; [exact Hd|].
  exact (elem_drop_then_init (H := host64) storeABCDm _ 0 0 Hd).
Defined.

(** ** Pages *)

(** X12: for a byte count that does not wrap around, [getNumPlatformPages]
    is the count divided by the page size and rounded up: the least number
    of pages that hold that many bytes. *)
Theorem getNumPlatformPages_ceil `{Host} (numBytes : Z) :
  uptrBits = 64 -> 0 <= getPageSizeLog2 < 64 ->
  0 <= numBytes -> numBytes + 2 ^ getPageSizeLog2 - 1 < 2 ^ 64 ->
  getNumPlatformPages numBytes = (numBytes + 2 ^ getPageSizeLog2 - 1) / 2 ^ getPageSizeLog2
  /\ numBytes <= getNumPlatformPages numBytes * 2 ^ getPageSizeLog2
  /\ (getNumPlatformPages numBytes - 1) * 2 ^ getPageSizeLog2 < numBytes
  /\ (numBytes = 0 -> getNumPlatformPages numBytes = 0).
Proof.
  intros Hw Hp Hn Hb. set (P := 2 ^ getPageSizeLog2) in *.
  assert (HP : 0 < P) by (apply Z.pow_pos_nonneg; lia).
  assert (Hpages : getNumPlatformPages numBytes = (numBytes + P - 1) / P).
  { unfold getNumPlatformPages, Uptr_shr, Uptr_shl.
    rewrite Z.shiftl_1_l. fold P. unfold Uptr. rewrite Hw.
    assert (HPlt : P < 2 ^ 64) by (apply Z.pow_lt_mono_r; lia).
    rewrite (Z.mod_small P) by lia. rewrite Zminus_mod_idemp_l.
    rewrite Z.mod_small by lia. rewrite Z.shiftr_div_pow2 by lia. reflexivity. }
  rewrite Hpages.
  pose proof (Z.div_mod (numBytes + P - 1) P ltac:(lia)) as Hdm.
  pose proof (Z.mod_pos_bound (numBytes + P - 1) P HP) as Hmod.
  split; [reflexivity|]. split; [nia|]. split; [nia|].
  intros ->. apply Z.div_small. lia.
Qed.

Lemma getNumPlatformPages_ceil_witness :
  uptrBits (Host := host64) = 64 /\ 0 <= getPageSizeLog2 (Host := host64) < 64
  /\ 0 <= 4097 /\ 4097 + 2 ^ getPageSizeLog2 (Host := host64) - 1 < 2 ^ 64
  /\ (getNumPlatformPages (H := host64) 4097
      = (4097 + 2 ^ getPageSizeLog2 (Host := host64) - 1)
        / 2 ^ getPageSizeLog2 (Host := host64)
      /\ 4097 <= getNumPlatformPages (H := host64) 4097
                 * 2 ^ getPageSizeLog2 (Host := host64)
      /\ (getNumPlatformPages (H := host64) 4097 - 1)
         * 2 ^ getPageSizeLog2 (Host := host64) < 4097
      /\ (4097 = 0 -> getNumPlatformPages (H := host64) 4097 = 0)).
Proof.
  assert (Hw : uptrBits (Host := host64) = 64) by reflexivity.
  assert (Hp : 0 <= getPageSizeLog2 (Host := host64) < 64)
    by (vm_compute; intuition discriminate).
  assert (Hn : 0 <= 4097) by lia.
  assert (Hb : 4097 + 2 ^ getPageSizeLog2 (Host := host64) - 1 < 2 ^ 64)
    by (vm_compute; reflexivity).
  split; [exact Hw|]. split; [exact Hp|]. split; [exact Hn|]. split; [exact Hb|].
  exact (getNumPlatformPages_ceil (H := host64) 4097 Hw Hp Hn Hb).
Defined.

(** ** [callIndirectFail] *)

(** X13: [callIndirectFail] sorts the function of a slot as the checked
    read of the slot does: it throws [outOfBoundsTableAccess] exactly when
    [getTableElementNonNull] throws, [uninitializedTableElement] exactly
    when the read returns the uninitialized sentinel, which
    [getTableElement] turns into null, and
    [indirectCallSignatureMismatch] exactly when the read returns another
    object. *)
Theorem callIndirectFail_slot `{Host} (table : Table) (index : Z) :
  HostOk -> TableOk table -> 0 <= index < numReservedElements table ->
  (callIndirectFail (biasedTableElementValueToObject (load table index))
   = outOfBoundsTableAccess
   <-> getTableElementNonNull table index = Throw outOfBoundsTableAccess)
  /\ (callIndirectFail (biasedTableElementValueToObject (load table index))
      = uninitializedTableElement
      <-> getTableElementNonNull table index = Ok getUninitializedElement)
  /\ (callIndirectFail (biasedTableElementValueToObject (load table index))
      = indirectCallSignatureMismatch
      <-> exists object, getTableElementNonNull table index = Ok object
                         /\ object <> getUninitializedElement).
Proof.
  intros Hh Hok Hidx. pose proof Hh as (Hw & _ & _ & _ & Hne).
  set (f := biasedTableElementValueToObject (load table index)).
  assert (Hget : getTableElementNonNull table index
                 = if f =? getOutOfBoundsElement then Throw outOfBoundsTableAccess
                   else Ok f).
  { unfold getTableElementNonNull.
    destruct (index >=? numReservedElements table) eqn:Hge; [lia|].
    rewrite saturatedIndex_id by (try assumption; apply Hok). reflexivity. }
  rewrite Hget. unfold callIndirectFail.
  destruct (f =? getOutOfBoundsElement) eqn:E1.
  - split; [tauto|]. split; [split; discriminate|].
    split; [discriminate | intros (o & Ho & _); discriminate].
  - destruct (f =? getUninitializedElement) eqn:E2.
    + assert (Hf : f = getUninitializedElement) by lia.
      split; [split; discriminate|]. split; [split; [intros _; now rewrite Hf | reflexivity]|].
      split; [discriminate|]. intros (o & [= <-] & Ho). congruence.
    + split; [split; discriminate|]. split.
      * split; [discriminate|]. intros [= Hf]. lia.
      * split; [intros _; exists f; split; [reflexivity | lia] | reflexivity].
Qed.

Lemma callIndirectFail_slot_witness :
  HostOk (H := host64) /\ TableOk (H := host64) table24
  /\ 0 <= 2 < numReservedElements table24
  /\ ((callIndirectFail (H := host64)
         (biasedTableElementValueToObject (H := host64) (load table24 2))
       = outOfBoundsTableAccess
       <-> getTableElementNonNull (H := host64) table24 2 = Throw outOfBoundsTableAccess)
      /\ (callIndirectFail (H := host64)
            (biasedTableElementValueToObject (H := host64) (load table24 2))
          = uninitializedTableElement
          <-> getTableElementNonNull (H := host64) table24 2
              = Ok (getUninitializedElement (H := host64)))
      /\ (callIndirectFail (H := host64)
            (biasedTableElementValueToObject (H := host64) (load table24 2))
          = indirectCallSignatureMismatch
          <-> exists object, getTableElementNonNull (H := host64) table24 2 = Ok object
                             /\ object <> getUninitializedElement (H := host64))).
Proof.
  assert (Hidx : 0 <= 2 < numReservedElements table24)
    by (vm_compute; intuition discriminate).
  split; [exact host64_ok|]. split; [exact table24_ok|]. split; [exact Hidx|].
  exact (callIndirectFail_slot (H := host64) table24 2 host64_ok table24_ok Hidx).
Defined.

(** ** [table.copy] moves *)

Lemma table_copy_copy_spec `{Host} (contextRuntimeData : ContextRuntimeData)
    (destOffset sourceOffset numElems sourceTableId destTableId : Z) :
  uptrBits = 64 ->
  0 <= destOffset < 2 ^ 32 -> 0 <= sourceOffset < 2 ^ 32 -> 0 <= numElems < 2 ^ 32 ->
  is_Some (getTableFromRuntimeData contextRuntimeData sourceTableId) ->
  is_Some (getTableFromRuntimeData contextRuntimeData destTableId) ->
  table_copy contextRuntimeData destOffset sourceOffset numElems
             sourceTableId destTableId
  = copy_spec contextRuntimeData destOffset sourceOffset numElems
              sourceTableId destTableId.
Proof.
  intros Hw Hd Hs Hn [sourceTable Hsrc] [destTable Hdst].
  unfold table_copy, copy_spec, unwindSignalsAsExceptions.
  rewrite Hsrc, Hdst. cbn [mbind option_bind].
  pose proof (Z2Nat.id numElems ltac:(lia)) as Hnat.
  destruct (sourceOffset <? destOffset).
  - rewrite <- Hnat at 2. rewrite descending_fmap. apply forLoop_copyInOrder.
    intros i Hi. rewrite Hnat.
    rewrite !copy_index_descending by (try assumption; lia). reflexivity.
  - unfold ascending. rewrite <- (list_fmap_id (seqZ 0 numElems)).
    rewrite <- Hnat at 2. apply forLoop_copyInOrder.
    intros i Hi. rewrite !copy_index_ascending by (try assumption; lia). reflexivity.
Qed.

Lemma safeOrder_ascending (destOffset sourceOffset : Z) (count : nat) (first : Z)
    (done : list Z) :
  destOffset <= sourceOffset ->
  (forall k', k' ∈ done -> k' < first) ->
  safeOrder destOffset sourceOffset done (seqZ first (Z.of_nat count)).
Proof.
  intros Hle. revert first done. induction count as [|count IH]; intros first done Hdone.
  - exact I.
  - rewrite seqZ_cons by lia.
    replace (Z.pred (Z.of_nat (S count))) with (Z.of_nat count) by lia.
    cbn [safeOrder]. split.
    + intros k' Hk'. specialize (Hdone k' Hk'). lia.
    + apply IH. intros k' Hk'. apply elem_of_cons in Hk' as [->|Hk']; [lia|].
      specialize (Hdone k' Hk'). lia.
Qed.

Lemma safeOrder_descending (destOffset sourceOffset numElems : Z) (count : nat)
    (first : Z) (done : list Z) :
  sourceOffset < destOffset ->
  (forall k', k' ∈ done -> numElems - first - 1 < k') ->
  safeOrder destOffset sourceOffset done
    ((fun i => numElems - i - 1) <$> seqZ first (Z.of_nat count)).
Proof.
  intros Hlt. revert first done. induction count as [|count IH]; intros first done Hdone.
  - exact I.
  - rewrite seqZ_cons by lia.
    replace (Z.pred (Z.of_nat (S count))) with (Z.of_nat count) by lia.
    rewrite fmap_cons. cbn [safeOrder]. split.
    + intros k' Hk'. specialize (Hdone k' Hk'). lia.
    + apply IH. intros k' Hk'. apply elem_of_cons in Hk' as [->|Hk']; [lia|].
      specialize (Hdone k' Hk'). lia.
Qed.

Lemma copyInOrder_moves `{Host} (sourceTableId destTableId destOffset sourceOffset : Z)
    (contextRuntimeData0 : ContextRuntimeData) (src0 dst0 : Table) :
  HostOk ->
  getTableFromRuntimeData contextRuntimeData0 sourceTableId = Some src0 ->
  getTableFromRuntimeData contextRuntimeData0 destTableId = Some dst0 ->
  TableOk src0 -> TableOk dst0 ->
  forall (order done : list Z) (contextRuntimeData : ContextRuntimeData),
    (forall k, k ∈ order ->
       isLive src0 (sourceOffset + k) /\ isLive dst0 (destOffset + k)) ->
    (forall k, k ∈ done -> isLive src0 (sourceOffset + k)) ->
    (sourceTableId = destTableId -> safeOrder destOffset sourceOffset done order) ->
    copyInv destTableId destOffset sourceOffset contextRuntimeData0 src0 dst0
            done contextRuntimeData ->
    exists contextRuntimeData',
      copyInOrder sourceTableId destTableId destOffset sourceOffset order
                  contextRuntimeData = Some (contextRuntimeData', Ok tt)
      /\ copyInv destTableId destOffset sourceOffset contextRuntimeData0 src0 dst0
                 (reverse order ++ done) contextRuntimeData'.
Proof.
  intros Hh Hsrc0 Hdst0 Hoks Hokd. pose proof Hh as (Hw & _).
  induction order as [|k rest IH]; intros done rd Hlive Hdone Hsafe Hinv.
  - exists rd. split; [reflexivity | exact Hinv].
  - destruct Hinv as (dst & Hdst & Hn & Hr & Hkeep & Hmoved & Hothers).
    destruct (Hlive k ltac:(left)) as (Hls & Hld).
    assert (Hokdst : TableOk dst) by (unfold TableOk; rewrite Hn, Hr; exact Hokd).
    assert (Hsource : exists src,
               getTableFromRuntimeData rd sourceTableId = Some src
               /\ TableOk src /\ isLive src (sourceOffset + k)
               /\ load src (sourceOffset + k) = load src0 (sourceOffset + k)).
    { destruct (Z.eq_dec sourceTableId destTableId) as [Heq|Hne].
      - assert (Hsame : src0 = dst0) by (rewrite Heq in Hsrc0; congruence).
        destruct (Hsafe Heq) as (Hfresh & _).
        assert (Hl : load dst (sourceOffset + k) = load src0 (sourceOffset + k)).
        { rewrite Hkeep by exact Hfresh. now rewrite Hsame. }
        exists dst. rewrite Heq. split; [exact Hdst|]. split; [exact Hokdst|].
        split; [|exact Hl]. split; [rewrite Hr, <- Hsame; apply Hls|].
        rewrite Hl. apply Hls.
      - exists src0. rewrite (Hothers _ Hne).
        split; [exact Hsrc0|]. split; [exact Hoks|]. split; [exact Hls | reflexivity]. }
    destruct Hsource as (src & Hsrc & Hoksrc & Hlsrc & Hloadsrc).
    assert (Hldst : isLive dst (destOffset + k)).
    { split; [rewrite Hr; apply Hld|].
      destruct (decide (k ∈ done)) as [Hin|Hnin].
      - rewrite (Hmoved k Hin). apply (Hdone k Hin).
      - rewrite Hkeep; [apply Hld|]. intros k' Hk' Heq.
        apply Hnin. replace k with k' by lia. exact Hk'. }
    set (object := biasedTableElementValueToObject (load src0 (sourceOffset + k))).
    assert (Hobj : 0 <= object < 2 ^ uptrBits).
    { unfold object, biasedTableElementValueToObject. rewrite Hw. now apply Uptr_range. }
    set (dst1 := store dst (destOffset + k) (objectToBiasedTableElementValue object)).
    assert (Hstep : copyElement sourceTableId destTableId (destOffset + k)
                      (sourceOffset + k) rd
                    = Some (putTable rd destTableId dst1, Ok tt)).
    { unfold copyElement. rewrite Hsrc. cbn [mbind option_bind].
      rewrite getTableElementNonNull_live by assumption. rewrite Hloadsrc. fold object.
      rewrite Hdst. cbn [mbind option_bind].
      rewrite setTableElementNonNull_live by assumption. reflexivity. }
    destruct (IH (k :: done) (putTable rd destTableId dst1)) as (rd' & Hrest & Hinv').
    + intros k' Hk'. apply Hlive. now right.
    + intros k' Hk'. apply elem_of_cons in Hk' as [->|Hk']; [exact Hls | now apply Hdone].
    + intros Heq. apply (Hsafe Heq).
    + exists dst1. split.
      { unfold getTableFromRuntimeData, putTable. simpl. apply lookup_insert_eq. }
      split; [exact Hn|]. split; [exact Hr|]. split; [|split].
      * intros j Hj. unfold dst1. rewrite load_store_ne.
        -- apply Hkeep. intros k' Hk'. apply Hj. now right.
        -- intros Heq. apply (Hj k); [left | congruence].
      * intros k' Hk'. unfold dst1.
        destruct (Z.eq_dec k' k) as [->|Hne].
        -- now rewrite load_store_eq, decode_encode.
        -- rewrite load_store_ne by lia. apply Hmoved.
           apply elem_of_cons in Hk' as [->|Hk']; [congruence | exact Hk'].
      * intros tableId Hne. rewrite <- (Hothers _ Hne).
        unfold getTableFromRuntimeData, putTable. simpl.
        apply lookup_insert_ne. congruence.
    + exists rd'. split.
      * cbn [copyInOrder]. rewrite Hstep. exact Hrest.
      * rewrite reverse_cons, <- app_assoc. exact Hinv'.
Qed.

(** X14: [table.copy] between ranges of live slots moves the elements as
    [memmove] does, whether the tables are two or one and the ranges
    overlap or not: it returns normally, every destination slot then reads
    as the source slot read before the copy, and nothing else has changed,
    in the destination table or in any other. *)
Theorem table_copy_moves `{Host} (contextRuntimeData : ContextRuntimeData)
    (destOffset sourceOffset numElems sourceTableId destTableId : Z)
    (src0 dst0 : Table) :
  HostOk ->
  getTableFromRuntimeData contextRuntimeData sourceTableId = Some src0 ->
  getTableFromRuntimeData contextRuntimeData destTableId = Some dst0 ->
  TableOk src0 -> TableOk dst0 ->
  0 <= destOffset < 2 ^ 32 -> 0 <= sourceOffset < 2 ^ 32 -> 0 <= numElems < 2 ^ 32 ->
  (forall k, 0 <= k < numElems ->
     isLive src0 (sourceOffset + k) /\ isLive dst0 (destOffset + k)) ->
  exists contextRuntimeData' dst',
    table_copy contextRuntimeData destOffset sourceOffset numElems
               sourceTableId destTableId = Some (contextRuntimeData', Ok tt)
    /\ getTableFromRuntimeData contextRuntimeData' destTableId = Some dst'
    /\ (forall k, 0 <= k < numElems ->
          getTableElementNonNull dst' (destOffset + k)
          = getTableElementNonNull src0 (sourceOffset + k))
    /\ (forall j, j < destOffset \/ destOffset + numElems <= j ->
          load dst' j = load dst0 j)
    /\ numElements dst' = numElements dst0
    /\ (forall tableId, tableId <> destTableId ->
          getTableFromRuntimeData contextRuntimeData' tableId
          = getTableFromRuntimeData contextRuntimeData tableId).
Proof.
  intros Hh Hsrc Hdst Hoks Hokd Hd Hs Hn Hlive. pose proof Hh as (Hw & _).
  rewrite table_copy_copy_spec by (try assumption; eauto).
  unfold copy_spec.
  set (order := if sourceOffset <? destOffset then descending numElems
                else ascending numElems).
  assert (Hmem : forall k, k ∈ order <-> 0 <= k < numElems).
  { intros k. unfold order, descending, ascending.
    destruct (sourceOffset <? destOffset);
      rewrite ?elem_of_reverse, elem_of_seqZ; lia. }
  assert (Hsafe : safeOrder destOffset sourceOffset [] order).
  { unfold order. pose proof (Z2Nat.id numElems ltac:(lia)) as Hnat.
    destruct (sourceOffset <? destOffset) eqn:E.
    - rewrite <- Hnat. rewrite descending_fmap.
      apply safeOrder_descending; [lia|]. intros k' Hk'. inversion Hk'.
    - unfold ascending. rewrite <- Hnat.
      apply safeOrder_ascending; [lia|]. intros k' Hk'. inversion Hk'. }
  destruct (copyInOrder_moves sourceTableId destTableId destOffset sourceOffset
              contextRuntimeData src0 dst0 Hh Hsrc Hdst Hoks Hokd
              order [] contextRuntimeData)
    as (rd' & Hrun & dst' & Hdst' & Hn' & Hr' & Hkeep & Hmoved & Hothers).
  - intros k Hk. apply Hlive, Hmem, Hk.
  - intros k Hk. inversion Hk.
  - intros _. exact Hsafe.
  - exists dst0. split; [exact Hdst|]. repeat split; try reflexivity.
    intros k Hk. inversion Hk.
  - exists rd', dst'. split; [exact Hrun|]. split; [exact Hdst'|].
    assert (Hokd' : TableOk dst') by (unfold TableOk; rewrite Hn', Hr'; exact Hokd).
    split; [|split; [|split; [exact Hn' | exact Hothers]]].
    + intros k Hk. destruct (Hlive k Hk) as (Hls & Hld).
      assert (Hin : k ∈ reverse order ++ []).
      { rewrite app_nil_r, elem_of_reverse. now apply Hmem. }
      assert (Hld' : isLive dst' (destOffset + k)).
      { split; [rewrite Hr'; apply Hld|]. rewrite (Hmoved k Hin). apply Hls. }
      rewrite !getTableElementNonNull_live by assumption.
      now rewrite (Hmoved k Hin).
    + intros j Hj. apply Hkeep. intros k Hk.
      rewrite app_nil_r, elem_of_reverse in Hk. apply Hmem in Hk. lia.
Qed.

Lemma table_copy_moves_witness :
  HostOk (H := host64)
  /\ getTableFromRuntimeData storeABCD 0 = Some tableABCD
  /\ getTableFromRuntimeData storeABCD 0 = Some tableABCD
  /\ TableOk (H := host64) tableABCD /\ TableOk (H := host64) tableABCD
  /\ 0 <= 0 < 2 ^ 32 /\ 0 <= 1 < 2 ^ 32 /\ 0 <= 3 < 2 ^ 32
  /\ (forall k, 0 <= k < 3 ->
        isLive (H := host64) tableABCD (1 + k) /\ isLive (H := host64) tableABCD (0 + k))
  /\ exists contextRuntimeData' dst',
       table_copy (H := host64) storeABCD 0 1 3 0 0 = Some (contextRuntimeData', Ok tt)
       /\ getTableFromRuntimeData contextRuntimeData' 0 = Some dst'
       /\ (forall k, 0 <= k < 3 ->
             getTableElementNonNull (H := host64) dst' (0 + k)
             = getTableElementNonNull (H := host64) tableABCD (1 + k))
       /\ (forall j, j < 0 \/ 0 + 3 <= j -> load dst' j = load tableABCD j)
       /\ numElements dst' = numElements tableABCD
       /\ (forall tableId, tableId <> 0 ->
             getTableFromRuntimeData contextRuntimeData' tableId
             = getTableFromRuntimeData storeABCD tableId).
Proof.
  assert (Hget : getTableFromRuntimeData storeABCD 0 = Some tableABCD) by reflexivity.
  assert (H0 : 0 <= 0 < 2 ^ 32) by (vm_compute; intuition discriminate).
  assert (H1 : 0 <= 1 < 2 ^ 32) by (vm_compute; intuition discriminate).
  assert (H3 : 0 <= 3 < 2 ^ 32) by (vm_compute; intuition discriminate).
  assert (Hlive : forall k, 0 <= k < 3 ->
            isLive (H := host64) tableABCD (1 + k)
            /\ isLive (H := host64) tableABCD (0 + k))
    by (intros k Hk; split; apply tableABCD_live; lia).
  split; [exact host64_ok|]. split; [exact Hget|]. split; [exact Hget|].
  split; [exact tableABCD_ok|]. split; [exact tableABCD_ok|].
  split; [exact H0|]. split; [exact H1|]. split; [exact H3|]. split; [exact Hlive|].
  exact (table_copy_moves (H := host64) storeABCD 0 1 3 0 0 tableABCD tableABCD
           host64_ok Hget Hget tableABCD_ok tableABCD_ok H0 H1 H3 Hlive).
Defined.

(** ** [table.size] after [table.grow] *)

Lemma U32_small (x : Z) : 0 <= x < 2 ^ 32 -> U32 x = x.
Proof. intros Hx. unfold U32. now apply Z.mod_small. Qed.

(** X15: on a table within [IR::maxTableElems], itself below [2^32],
    [table.size] returns the count exactly; and after a [table.grow] it
    returns the old count plus the delta when the growth succeeded, and the
    old count when [table.grow] returned -1 for a failed growth. *)
Theorem table_grow_then_size `{Host} (contextRuntimeData : ContextRuntimeData)
    (initialValue deltaNumElements tableId : Z) (table : Table) :
  HostOk -> maxTableElems < 2 ^ 32 ->
  getTableFromRuntimeData contextRuntimeData tableId = Some table ->
  TableOk table -> numElements table <= maxTableElems ->
  0 <= deltaNumElements < 2 ^ 32 ->
  table_size contextRuntimeData tableId = Some (numElements table)
  /\ exists contextRuntimeData' result,
       table_grow contextRuntimeData initialValue deltaNumElements tableId
       = Some (contextRuntimeData', result)
       /\ ((result = -1
            /\ table_size contextRuntimeData' tableId = Some (numElements table))
           \/ (result = I32 (numElements table)
               /\ table_size contextRuntimeData' tableId
                  = Some (numElements table + deltaNumElements))).
Proof.
  intros Hh Himpl Hget Hok Hle Hd. pose proof Hh as (Hw & Hm & _).
  assert (Hn : 0 <= numElements table < 2 ^ 32) by (destruct Hok as ((? & _) & _); lia).
  assert (Hsize : forall t, table_size (putTable contextRuntimeData tableId t) tableId
                            = Some (U32 (numElements t))).
  { intros t. unfold table_size, getTableFromRuntimeData, putTable. simpl.
    now rewrite lookup_insert_eq. }
  split.
  { unfold table_size. rewrite Hget. cbn [mbind option_bind].
    unfold getTableNumElements. now rewrite U32_small. }
  unfold table_grow. rewrite Hget. cbn [mbind option_bind].
  assert (Hdelta : Uptr deltaNumElements = deltaNumElements).
  { apply Uptr_small. rewrite Hw. change (2 ^ 32) with 4294967296 in Hd.
    change (2 ^ 64) with 18446744073709551616. lia. }
  rewrite Hdelta.
  destruct (growTable table deltaNumElements
              (if initialValue =? 0 then getUninitializedElement else initialValue))
    as [t' [old|]] eqn:Hg; unfold growTable in Hg.
  - assert (Hd64 : 0 <= deltaNumElements < 2 ^ 64).
    { change (2 ^ 32) with 4294967296 in Hd.
      change (2 ^ 64) with 18446744073709551616. lia. }
    destruct (growTableImpl_success_fields _ _ _ _ _ _ Hh Hok Hd64 Hg)
      as (Hold & Hn' & _ & _ & _ & _ & Hlim).
    eexists _, _. split; [reflexivity|]. right. split; [now rewrite Hold|].
    rewrite Hsize, Hn'. f_equal. apply U32_small.
    destruct (Z.eq_dec deltaNumElements 0) as [->|Hnz]; [lia|].
    destruct (Hlim Hnz) as (_ & ? & _). lia.
  - apply growTableImpl_false in Hg. subst t'.
    eexists _, _. split; [reflexivity|]. left. split; [reflexivity|].
    rewrite Hsize. f_equal. now apply U32_small.
Qed.

Lemma table_grow_then_size_witness :
  HostOk (H := host64) /\ maxTableElems (Host := host64) < 2 ^ 32
  /\ getTableFromRuntimeData store24 0 = Some table24
  /\ TableOk (H := host64) table24
  /\ numElements table24 <= maxTableElems (Host := host64)
  /\ 0 <= 1 < 2 ^ 32
  /\ (table_size (H := host64) store24 0 = Some (numElements table24)
      /\ exists contextRuntimeData' result,
           table_grow (H := host64) store24 0 1 0 = Some (contextRuntimeData', result)
           /\ ((result = -1
                /\ table_size (H := host64) contextRuntimeData' 0
                   = Some (numElements table24))
               \/ (result = I32 (numElements table24)
                   /\ table_size (H := host64) contextRuntimeData' 0
                      = Some (numElements table24 + 1)))).
Proof.
  assert (Himpl : maxTableElems (Host := host64) < 2 ^ 32) by (vm_compute; reflexivity).
  assert (Hget : getTableFromRuntimeData store24 0 = Some table24) by reflexivity.
  assert (Hle : numElements table24 <= maxTableElems (Host := host64))
    by (vm_compute; discriminate).
  assert (Hd : 0 <= 1 < 2 ^ 32) by (vm_compute; intuition discriminate).
  split; [exact host64_ok|]. split; [exact Himpl|]. split; [exact Hget|].
  split; [exact table24_ok|]. split; [exact Hle|]. split; [exact Hd|].
  exact (table_grow_then_size (H := host64) store24 0 1 0 table24
           host64_ok Himpl Hget table24_ok Hle Hd).
Defined.

(** ** The index of a resolved address *)

(** X16: when [isAddressOwnedByTable] returns a table whose reservation is
    a whole number of slots, as [createTableImpl] makes it, the index it
    returns is an index of the reservation, and the address lies in the
    slot of that index. *)
Theorem isAddressOwnedByTable_index `{Host} (tables : list Table) (address : Z)
    (table : Table) (index : Z) :
  0 < sizeofElement ->
  isAddressOwnedByTable tables address = Some (table, index) ->
  numReservedBytes table = numReservedElements table * sizeofElement ->
  table ∈ tables
  /\ 0 <= index < numReservedElements table
  /\ elements table + index * sizeofElement <= address
     < elements table + (index + 1) * sizeofElement.
Proof.
  intros Hsz Hr Hbytes.
  destruct (isAddressOwnedByTable_Some _ _ _ _ Hr) as (Hin & Hrange & ->).
  unfold reservedRange in Hrange. rewrite Hbytes in Hrange.
  split; [exact Hin|].
  set (offset := address - elements table) in *.
  assert (Hoff : 0 <= offset < numReservedElements table * sizeofElement)
    by (unfold offset; lia).
  clear Hr Hbytes. generalize dependent sizeofElement. intros size Hsz Hrange Hoff.
  assert (Hnz : size <> 0) by lia.
  pose proof (Z.div_mod offset size Hnz) as Hdm.
  pose proof (Z.mod_pos_bound offset size Hsz) as Hmod.
  split.
  - split; [apply Z.div_pos; lia|]. apply Z.div_lt_upper_bound; [lia|].
    rewrite Z.mul_comm. apply Hoff.
  - unfold offset in *. nia.
Qed.

Lemma isAddressOwnedByTable_index_witness :
  0 < sizeofElement (H := host64)
  /\ isAddressOwnedByTable (H := host64) [table24] (2 ^ 40 + 13) = Some (table24, 1)
  /\ numReservedBytes table24 = numReservedElements table24 * sizeofElement (H := host64)
  /\ (table24 ∈ [table24]
      /\ 0 <= 1 < numReservedElements table24
      /\ elements table24 + 1 * sizeofElement (H := host64) <= 2 ^ 40 + 13
         < elements table24 + (1 + 1) * sizeofElement (H := host64)).
Proof.
  assert (Hsz : 0 < sizeofElement (H := host64)) by (vm_compute; reflexivity).
  assert (Hr : isAddressOwnedByTable (H := host64) [table24] (2 ^ 40 + 13)
               = Some (table24, 1)) by (vm_compute; reflexivity).
  assert (Hb : numReservedBytes table24
               = numReservedElements table24 * sizeofElement (H := host64))
    by (vm_compute; reflexivity).
  split; [exact Hsz|]. split; [exact Hr|]. split; [exact Hb|].
  exact (isAddressOwnedByTable_index (H := host64) [table24] (2 ^ 40 + 13) table24 1
           Hsz Hr Hb).
Defined.

(** ** The intrinsics [table.set] and [table.get] *)

Lemma putTable_same (contextRuntimeData : ContextRuntimeData) (tableId : Z)
    (table : Table) :
  getTableFromRuntimeData contextRuntimeData tableId = Some table ->
  putTable contextRuntimeData tableId table = contextRuntimeData.
Proof.
  intros Hget. destruct contextRuntimeData as [tables modules].
  unfold putTable, getTableFromRuntimeData in *. simpl in *.
  now rewrite insert_id.
Qed.

Lemma getTableFromRuntimeData_putTable_eq (contextRuntimeData : ContextRuntimeData)
    (tableId : Z) (table : Table) :
  getTableFromRuntimeData (putTable contextRuntimeData tableId table) tableId
  = Some table.
Proof. unfold getTableFromRuntimeData, putTable. simpl. apply lookup_insert_eq. Qed.

Lemma getTableFromRuntimeData_putTable_ne (contextRuntimeData : ContextRuntimeData)
    (tableId otherId : Z) (table : Table) :
  otherId <> tableId ->
  getTableFromRuntimeData (putTable contextRuntimeData tableId table) otherId
  = getTableFromRuntimeData contextRuntimeData otherId.
Proof.
  intros Hne. unfold getTableFromRuntimeData, putTable. simpl.
  apply lookup_insert_ne. congruence.
Qed.

(** X17: [table.set] on a live slot returns normally; [table.get] of the
    slot then returns the value written, and [table.get] of every other
    slot of the table, and every other table of the compartment, is as it
    was.  On an index at or past the count of a table that satisfies I2,
    [table.set] throws [outOfBoundsTableAccess] and leaves the compartment
    as it was. *)
Theorem table_set_then_get `{Host} (contextRuntimeData : ContextRuntimeData)
    (index value tableId : Z) (table : Table) :
  HostOk ->
  getTableFromRuntimeData contextRuntimeData tableId = Some table ->
  TableOk table -> 0 <= index < 2 ^ 32 ->
  isObject value -> value <> getUninitializedElement ->
  (isLive table index ->
   exists contextRuntimeData',
     table_set contextRuntimeData index value tableId
     = Some (contextRuntimeData', Ok tt)
     /\ table_get contextRuntimeData' index tableId = Some (Ok value)
     /\ (forall j, 0 <= j < 2 ^ 32 -> j <> index ->
           table_get contextRuntimeData' j tableId
           = table_get contextRuntimeData j tableId)
     /\ (forall otherId, otherId <> tableId ->
           getTableFromRuntimeData contextRuntimeData' otherId
           = getTableFromRuntimeData contextRuntimeData otherId))
  /\ (I2 table -> numElements table <= index ->
      table_set contextRuntimeData index value tableId
      = Some (contextRuntimeData, Throw outOfBoundsTableAccess)).
Proof.
  intros Hh Hget Hok Hidx Hv Hnu.
  assert (Hw : uptrBits = 64) by apply Hh.
  assert (Hu : forall j, 0 <= j < 2 ^ 32 -> Uptr j = j)
    by (intros j Hj; apply Uptr_small; rewrite Hw; lia).
  set (stored := if value =? 0 then getUninitializedElement else value).
  assert (Hs : isObject stored) by now apply isObject_stored.
  split.
  - intros Hlive.
    set (table' := store table index (objectToBiasedTableElementValue stored)).
    assert (Hlive' : isLive table' index)
      by (apply isLive_store_eq; [assumption | apply Hlive | assumption]).
    exists (putTable contextRuntimeData tableId table').
    split; [|split; [|split]].
    + unfold table_set. rewrite Hget. simpl. rewrite Hu by assumption.
      unfold setTableElement, unwindSignalsAsExceptions. fold stored.
      rewrite setTableElementNonNull_live by assumption. reflexivity.
    + unfold table_get. rewrite getTableFromRuntimeData_putTable_eq. simpl.
      rewrite Hu by assumption. f_equal.
      unfold getTableElement, unwindSignalsAsExceptions.
      rewrite getTableElementNonNull_live by assumption.
      unfold table'. rewrite load_store_eq, decode_encode by apply Hs.
      unfold stored. destruct (value =? 0) eqn:Hz.
      * rewrite Z.eqb_refl. f_equal. lia.
      * destruct (value =? getUninitializedElement) eqn:E; [lia|reflexivity].
    + intros j Hj Hne. unfold table_get.
      rewrite getTableFromRuntimeData_putTable_eq, Hget. simpl.
      rewrite Hu by assumption. f_equal.
      unfold getTableElement, unwindSignalsAsExceptions.
      rewrite (getTableElementNonNull_ext table table' j);
        [reflexivity | assumption | apply Hok | reflexivity | lia |].
      intros _. unfold table'. apply load_store_ne. congruence.
    + intros otherId Hne. now apply getTableFromRuntimeData_putTable_ne.
  - intros Hi2 Hpast. unfold table_set. rewrite Hget. simpl.
    rewrite Hu by assumption.
    unfold setTableElement, unwindSignalsAsExceptions.
    rewrite setTableElementNonNull_past_size by assumption.
    now rewrite putTable_same.
Qed.

Lemma table_set_then_get_witness :
  HostOk (H := host64)
  /\ getTableFromRuntimeData storeABCD 0 = Some tableABCD
  /\ TableOk (H := host64) tableABCD /\ 0 <= 1 < 2 ^ 32
  /\ isObject (H := host64) objD /\ objD <> getUninitializedElement (H := host64)
  /\ ((isLive (H := host64) tableABCD 1 ->
       exists contextRuntimeData',
         table_set (H := host64) storeABCD 1 objD 0 = Some (contextRuntimeData', Ok tt)
         /\ table_get (H := host64) contextRuntimeData' 1 0 = Some (Ok objD)
         /\ (forall j, 0 <= j < 2 ^ 32 -> j <> 1 ->
               table_get (H := host64) contextRuntimeData' j 0
               = table_get (H := host64) storeABCD j 0)
         /\ (forall otherId, otherId <> 0 ->
               getTableFromRuntimeData contextRuntimeData' otherId
               = getTableFromRuntimeData storeABCD otherId))
      /\ (I2 tableABCD -> numElements tableABCD <= 1 ->
          table_set (H := host64) storeABCD 1 objD 0
          = Some (storeABCD, Throw outOfBoundsTableAccess))).
Proof.
  assert (Hget : getTableFromRuntimeData storeABCD 0 = Some tableABCD)
    by (vm_compute; reflexivity).
  assert (Hidx : 0 <= 1 < 2 ^ 32) by lia.
  assert (Hv : isObject (H := host64) objD)
    by (unfold isObject; vm_compute; intuition discriminate).
  assert (Hnu : objD <> getUninitializedElement (H := host64))
    by (vm_compute; discriminate).
  split; [exact host64_ok|]. split; [exact Hget|]. split; [exact tableABCD_ok|].
  split; [exact Hidx|]. split; [exact Hv|]. split; [exact Hnu|].
  exact (table_set_then_get (H := host64) storeABCD 1 objD 0 tableABCD
           host64_ok Hget tableABCD_ok Hidx Hv Hnu).
Defined.

(** * The dense set of small integers *)

Section DenseStaticIntSetTheorems.
Import DenseStaticIntSet.

(** ** Words and bits *)

Lemma indicesPerElement_eq `{Host} : ElementOk -> indicesPerElement = uptrBits.
Proof.
  intros (Hpos & Hmod). unfold indicesPerElement.
  assert (H8 : 8 <> 0) by lia.
  pose proof (Z.div_mod uptrBits 8 H8). lia.
Qed.

Lemma elementMask_eq `{Host} (bit : Z) :
  0 <= bit < uptrBits -> Uptr_shl 1 bit = 2 ^ bit.
Proof.
  intros Hbit. unfold Uptr_shl. rewrite Z.shiftl_1_l. apply Uptr_small.
  split; [apply Z.pow_nonneg; lia | apply Z.pow_lt_mono_r; lia].
Qed.

Lemma land_pow2 (element bit : Z) :
  0 <= bit ->
  Z.land element (2 ^ bit) = if Z.testbit element bit then 2 ^ bit else 0.
Proof.
  intros Hbit. apply Z.bits_inj'. intros n Hn.
  rewrite Z.land_spec, Z.pow2_bits_eqb by assumption.
  destruct (Z.eqb_spec bit n) as [->|Hne].
  - destruct (Z.testbit element n); simpl.
    + now rewrite Z.pow2_bits_true.
    + now rewrite Z.bits_0.
  - rewrite andb_false_r. destruct (Z.testbit element bit).
    + rewrite Z.pow2_bits_false; [reflexivity | assumption].
    + now rewrite Z.bits_0.
Qed.

Lemma test_elementMask `{Host} (element bit : Z) :
  0 <= bit < uptrBits ->
  negb (Z.land element (Uptr_shl 1 bit) =? 0) = Z.testbit element bit.
Proof.
  intros Hbit. rewrite elementMask_eq, land_pow2 by lia.
  assert (0 < 2 ^ bit) by (apply Z.pow_pos_nonneg; lia).
  destruct (Z.testbit element bit).
  - destruct (2 ^ bit =? 0) eqn:E; [lia|reflexivity].
  - reflexivity.
Qed.

Lemma element_bits_above `{Host} (element bit : Z) :
  0 <= element < 2 ^ uptrBits -> uptrBits <= bit -> Z.testbit element bit = false.
Proof.
  intros He Hbit. destruct (Z_lt_le_dec uptrBits 0) as [Hneg|Hpos].
  - rewrite Z.pow_neg_r in He by assumption. lia.
  - rewrite <- (Z.mod_small element (2 ^ uptrBits)) by assumption.
    apply Z.mod_pow2_bits_high. lia.
Qed.

Lemma element_of_bits `{Host} (element : Z) :
  0 <= uptrBits -> 0 <= element ->
  (forall bit, uptrBits <= bit -> Z.testbit element bit = false) ->
  0 <= element < 2 ^ uptrBits.
Proof.
  intros Hw Hnn Hbits.
  assert (Heq : element mod 2 ^ uptrBits = element).
  { apply Z.bits_inj'. intros n Hn.
    destruct (Z_lt_le_dec n uptrBits) as [Hlt|Hge].
    - now apply Z.mod_pow2_bits_low.
    - rewrite Z.mod_pow2_bits_high by lia. symmetry. now apply Hbits. }
  rewrite <- Heq. apply Z.mod_pos_bound. apply Z.pow_pos_nonneg; lia.
Qed.

Lemma element_eq_bits `{Host} (a b : Z) :
  0 <= a < 2 ^ uptrBits -> 0 <= b < 2 ^ uptrBits ->
  (forall bit, 0 <= bit < uptrBits -> Z.testbit a bit = Z.testbit b bit) ->
  a = b.
Proof.
  intros Ha Hb Hbits. apply Z.bits_inj'. intros n Hn.
  destruct (Z_lt_le_dec n uptrBits) as [Hlt|Hge].
  - apply Hbits. lia.
  - now rewrite !element_bits_above.
Qed.

Lemma lor_range `{Host} (a b : Z) :
  0 <= uptrBits -> 0 <= a < 2 ^ uptrBits -> 0 <= b < 2 ^ uptrBits ->
  0 <= Z.lor a b < 2 ^ uptrBits.
Proof.
  intros Hw Ha Hb. apply element_of_bits; [assumption | apply Z.lor_nonneg; lia |].
  intros bit Hbit. now rewrite Z.lor_spec, !element_bits_above.
Qed.

Lemma land_range `{Host} (a b : Z) :
  0 <= uptrBits -> 0 <= a < 2 ^ uptrBits ->
  0 <= Z.land a b < 2 ^ uptrBits.
Proof.
  intros Hw Ha. apply element_of_bits; [assumption | apply Z.land_nonneg; lia |].
  intros bit Hbit. now rewrite Z.land_spec, element_bits_above.
Qed.

Lemma lxor_range `{Host} (a b : Z) :
  0 <= uptrBits -> 0 <= a < 2 ^ uptrBits -> 0 <= b < 2 ^ uptrBits ->
  0 <= Z.lxor a b < 2 ^ uptrBits.
Proof.
  intros Hw Ha Hb. apply element_of_bits; [assumption | apply Z.lxor_nonneg; lia |].
  intros bit Hbit. now rewrite Z.lxor_spec, !element_bits_above.
Qed.

Lemma complementElement_range `{Host} (element : Z) :
  0 < uptrBits -> 0 <= complementElement element < 2 ^ uptrBits.
Proof.
  intros Hw. unfold complementElement, Uptr. apply Z.mod_pos_bound.
  apply Z.pow_pos_nonneg; lia.
Qed.

Lemma complementElement_bits `{Host} (element bit : Z) :
  0 <= bit < uptrBits ->
  Z.testbit (complementElement element) bit = negb (Z.testbit element bit).
Proof.
  intros Hbit. unfold complementElement, Uptr.
  rewrite Z.mod_pow2_bits_low by lia. apply Z.lnot_spec. lia.
Qed.

(** ** The array *)

Lemma numElements_bounds `{Host} `{Template} :
  ElementOk -> TemplateOk ->
  0 < numElements /\ maxIndexPlusOne <= numIndices < maxIndexPlusOne + uptrBits.
Proof.
  intros He (Hpos & Hwrap & _). pose proof (indicesPerElement_eq He) as Hipe.
  destruct He as (Hw & _). unfold numIndices, numElements in *. rewrite Hipe in *.
  rewrite (Uptr_small (maxIndexPlusOne + uptrBits)) by lia.
  rewrite Uptr_small by lia.
  assert (Hnz : uptrBits <> 0) by lia.
  pose proof (Z.div_mod (maxIndexPlusOne + uptrBits - 1) uptrBits Hnz) as Hdm.
  pose proof (Z.mod_pos_bound (maxIndexPlusOne + uptrBits - 1) uptrBits Hw) as Hm.
  split; [apply Z.div_str_pos; lia | nia].
Qed.

(** The word and the bit of an index of the array. *)
Lemma index_split `{Host} `{Template} (index : Z) :
  ElementOk -> 0 <= index < numIndices ->
  0 <= index / indicesPerElement < numElements
  /\ 0 <= index mod indicesPerElement < uptrBits.
Proof.
  intros He Hidx. pose proof (indicesPerElement_eq He) as Hipe.
  destruct He as (Hw & _). unfold numIndices in Hidx. rewrite Hipe in *.
  split; [|apply Z.mod_pos_bound; lia].
  split; [apply Z.div_pos; lia | apply Z.div_lt_upper_bound; lia].
Qed.

Lemma wf_lookup `{Host} `{Template} (elements : list Z) (elementIndex : Z) :
  wf elements -> 0 <= elementIndex < numElements ->
  exists element,
    elements !! Z.to_nat elementIndex = Some element /\ 0 <= element < 2 ^ uptrBits.
Proof.
  intros (Hlen & Hall) Hi.
  destruct (lookup_lt_is_Some_2 elements (Z.to_nat elementIndex)) as [element Hl];
    [lia|].
  exists element. split; [exact Hl|].
  rewrite Forall_lookup in Hall. exact (Hall _ _ Hl).
Qed.

Lemma wf_insert `{Host} `{Template} (elements : list Z) (n : nat) (element : Z) :
  wf elements -> 0 <= element < 2 ^ uptrBits -> wf (<[n := element]> elements).
Proof.
  intros (Hlen & Hall) He. split; [now rewrite length_insert|].
  now apply Forall_insert.
Qed.

Lemma contains_testbit `{Host} `{Template} (elements : list Z) (index : Z) :
  ElementOk -> wf elements -> 0 <= index < numIndices ->
  exists element,
    elements !! Z.to_nat (index / indicesPerElement) = Some element
    /\ 0 <= element < 2 ^ uptrBits
    /\ contains elements index
       = Some (Z.testbit element (index mod indicesPerElement)).
Proof.
  intros He Hwf Hidx. destruct (index_split index He Hidx) as (Hword & Hbit).
  destruct (wf_lookup elements _ Hwf Hword) as (element & Hl & Hr).
  exists element. split; [exact Hl|]. split; [exact Hr|].
  unfold contains. rewrite Hl. simpl. now rewrite test_elementMask.
Qed.

Lemma contains_outside `{Host} `{Template} (elements : list Z) (index : Z) :
  ElementOk -> wf elements -> numIndices <= index -> contains elements index = None.
Proof.
  intros He (Hlen & _) Hidx. pose proof (indicesPerElement_eq He) as Hipe.
  destruct He as (Hw & _). unfold contains, numIndices in *. rewrite Hipe in *.
  rewrite lookup_ge_None_2; [reflexivity|].
  assert (numElements <= index / uptrBits)
    by (apply Z.div_le_lower_bound; lia).
  lia.
Qed.

(** Two indices of one word are two bits of it. *)
Lemma index_bits_differ `{Host} (index other : Z) :
  ElementOk -> other <> index ->
  Z.to_nat (other / indicesPerElement) = Z.to_nat (index / indicesPerElement) ->
  0 <= index -> 0 <= other ->
  other mod indicesPerElement <> index mod indicesPerElement.
Proof.
  intros He Hne Hword Hi Ho. pose proof (indicesPerElement_eq He) as Hipe.
  destruct He as (Hw & _). rewrite Hipe in *.
  assert (Hnz : uptrBits <> 0) by lia.
  pose proof (Z.div_mod index uptrBits Hnz).
  pose proof (Z.div_mod other uptrBits Hnz).
  assert (0 <= index / uptrBits) by (apply Z.div_pos; lia).
  assert (0 <= other / uptrBits) by (apply Z.div_pos; lia).
  assert (other / uptrBits = index / uptrBits) by lia.
  intros Hmod. apply Hne. congruence.
Qed.

Lemma charSet_ok : TemplateOk (H := host64) (H0 := charSet).
Proof. unfold TemplateOk. vm_compute. intuition discriminate. Qed.

Lemma set100_ok : TemplateOk (H := host64) (H0 := set100).
Proof. unfold TemplateOk. vm_compute. intuition discriminate. Qed.

Lemma element64_ok : ElementOk (H := host64).
Proof. unfold ElementOk. vm_compute. intuition discriminate. Qed.

Lemma empty_wf `{Host} `{Template} : 0 < uptrBits -> wf empty.
Proof.
  intros Hw. unfold wf, empty. split; [apply length_replicate|].
  apply Forall_replicate. split; [lia | apply Z.pow_pos_nonneg; lia].
Qed.

(** ** Adding and removing an index *)

Lemma add_contains `{Host} `{Template} (elements : list Z) (index : Z) :
  ElementOk -> TemplateOk -> wf elements -> 0 <= index < maxIndexPlusOne ->
  exists elements',
    add elements index = Some elements'
    /\ wf elements'
    /\ contains elements' index = Some true
    /\ (forall other, 0 <= other -> other <> index ->
          contains elements' other = contains elements other).
Proof.
  intros He Ht Hwf Hidx.
  destruct (numElements_bounds He Ht) as (_ & Hn).
  assert (Hidx' : 0 <= index < numIndices) by lia.
  destruct (index_split index He Hidx') as (Hword & Hbit).
  destruct (wf_lookup elements _ Hwf Hword) as (element & Hl & Hr).
  assert (Hw : 0 <= uptrBits) by (destruct He; lia).
  set (n := Z.to_nat (index / indicesPerElement)) in *.
  set (bit := index mod indicesPerElement) in *.
  assert (Hmask : Uptr_shl 1 bit = 2 ^ bit) by now apply elementMask_eq.
  assert (Hrange : 0 <= Z.lor element (Uptr_shl 1 bit) < 2 ^ uptrBits).
  { apply lor_range; [assumption | assumption |]. rewrite Hmask.
    split; [apply Z.pow_nonneg; lia | apply Z.pow_lt_mono_r; lia]. }
  exists (<[n := Z.lor element (Uptr_shl 1 bit)]> elements).
  assert (Hlt : (n < length elements)%nat) by (apply lookup_lt_is_Some_1; eauto).
  split; [|split; [|split]].
  - unfold add. fold n bit. rewrite Hl. reflexivity.
  - now apply wf_insert.
  - unfold contains. fold n bit. rewrite list_lookup_insert_eq by assumption. simpl.
    rewrite test_elementMask by assumption.
    rewrite Z.lor_spec, Hmask, Z.pow2_bits_true by lia. now rewrite orb_true_r.
  - intros other Ho Hne. unfold contains.
    destruct (Nat.eq_dec (Z.to_nat (other / indicesPerElement)) n) as [Heq|Hneq].
    + rewrite Heq, list_lookup_insert_eq, Hl by assumption. simpl. f_equal. f_equal.
      f_equal.
      assert (Hob : 0 <= other mod indicesPerElement < uptrBits).
      { rewrite (indicesPerElement_eq He). apply Z.mod_pos_bound. destruct He; lia. }
      assert (Hd : other mod indicesPerElement <> bit)
        by (apply index_bits_differ; try assumption; lia).
      rewrite (elementMask_eq (other mod indicesPerElement)) by assumption.
      rewrite !land_pow2 by lia.
      rewrite Z.lor_spec, Hmask, Z.pow2_bits_false by lia.
      now rewrite orb_false_r.
    + rewrite list_lookup_insert_ne by congruence. reflexivity.
Qed.

(** X18: [add] of an index below [maxIndexPlusOne] makes [contains] of that
    index true and leaves [contains] of every other index as it was. *)
Theorem add_then_contains `{Host} `{Template} (elements : list Z) (index : Z) :
  ElementOk -> TemplateOk -> wf elements -> 0 <= index < maxIndexPlusOne ->
  exists elements',
    add elements index = Some elements'
    /\ wf elements'
    /\ contains elements' index = Some true
    /\ (forall other, 0 <= other -> other <> index ->
          contains elements' other = contains elements other).
Proof. apply @add_contains. Qed.

Lemma add_then_contains_witness :
  ElementOk (H := host64) /\ TemplateOk (H := host64) (H0 := set100)
  /\ wf (H := host64) (H0 := set100) [5; 0] /\ 0 <= 70 < maxIndexPlusOne (Template := set100)
  /\ exists elements',
       add (H := host64) [5; 0] 70 = Some elements'
       /\ wf (H := host64) (H0 := set100) elements'
       /\ contains (H := host64) elements' 70 = Some true
       /\ (forall other, 0 <= other -> other <> 70 ->
             contains (H := host64) elements' other
             = contains (H := host64) [5; 0] other).
Proof.
  assert (Hwf : wf (H := host64) (H0 := set100) [5; 0]).
  { split; [reflexivity|]. repeat constructor; vm_compute; intuition discriminate. }
  assert (Hidx : 0 <= 70 < maxIndexPlusOne (Template := set100))
    by (vm_compute; intuition discriminate).
  split; [exact element64_ok|]. split; [exact set100_ok|]. split; [exact Hwf|].
  split; [exact Hidx|].
  exact (add_then_contains (H := host64) (H0 := set100) [5; 0] 70
           element64_ok set100_ok Hwf Hidx).
Defined.

(** X19: [remove] of an index of the array returns whether the set
    contained it; afterwards [contains] of that index is false, and
    [contains] of every other index is as it was. *)
Theorem remove_then_contains `{Host} `{Template} (elements : list Z) (index : Z) :
  ElementOk -> wf elements -> 0 <= index < numIndices ->
  exists elements' hadIndex,
    remove elements index = Some (elements', hadIndex)
    /\ contains elements index = Some hadIndex
    /\ wf elements'
    /\ contains elements' index = Some false
    /\ (forall other, 0 <= other -> other <> index ->
          contains elements' other = contains elements other).
Proof.
  intros He Hwf Hidx.
  destruct (index_split index He Hidx) as (Hword & Hbit).
  destruct (wf_lookup elements _ Hwf Hword) as (element & Hl & Hr).
  assert (Hw : 0 <= uptrBits) by (destruct He; lia).
  set (n := Z.to_nat (index / indicesPerElement)) in *.
  set (bit := index mod indicesPerElement) in *.
  assert (Hmask : Uptr_shl 1 bit = 2 ^ bit) by now apply elementMask_eq.
  assert (Hrange : 0 <= Z.land element (complementElement (Uptr_shl 1 bit))
                   < 2 ^ uptrBits) by now apply land_range.
  assert (Hlt : (n < length elements)%nat) by (apply lookup_lt_is_Some_1; eauto).
  exists (<[n := Z.land element (complementElement (Uptr_shl 1 bit))]> elements),
         (negb (Z.land element (Uptr_shl 1 bit) =? 0)).
  split; [|split; [|split; [|split]]].
  - unfold remove. fold n bit. rewrite Hl. reflexivity.
  - unfold contains. fold n bit. rewrite Hl. reflexivity.
  - now apply wf_insert.
  - unfold contains. fold n bit. rewrite list_lookup_insert_eq by assumption. simpl.
    rewrite test_elementMask by assumption.
    rewrite Z.land_spec, complementElement_bits, Hmask, Z.pow2_bits_true by lia.
    now rewrite andb_false_r.
  - intros other Ho Hne. unfold contains.
    destruct (Nat.eq_dec (Z.to_nat (other / indicesPerElement)) n) as [Heq|Hneq].
    + rewrite Heq, list_lookup_insert_eq, Hl by assumption. simpl.
      assert (Hob : 0 <= other mod indicesPerElement < uptrBits).
      { rewrite (indicesPerElement_eq He). apply Z.mod_pos_bound. destruct He; lia. }
      assert (Hd : other mod indicesPerElement <> bit)
        by (apply index_bits_differ; try assumption; lia).
      rewrite !test_elementMask by assumption.
      rewrite Z.land_spec, complementElement_bits, Hmask, Z.pow2_bits_false by lia.
      now rewrite andb_true_r.
    + rewrite list_lookup_insert_ne by congruence. reflexivity.
Qed.

Lemma remove_then_contains_witness :
  ElementOk (H := host64) /\ wf (H := host64) (H0 := set100) [5; 64]
  /\ 0 <= 70 < numIndices (H := host64) (H0 := set100)
  /\ exists elements' hadIndex,
       remove (H := host64) [5; 64] 70 = Some (elements', hadIndex)
       /\ contains (H := host64) [5; 64] 70 = Some hadIndex
       /\ wf (H := host64) (H0 := set100) elements'
       /\ contains (H := host64) elements' 70 = Some false
       /\ (forall other, 0 <= other -> other <> 70 ->
             contains (H := host64) elements' other
             = contains (H := host64) [5; 64] other).
Proof.
  assert (Hwf : wf (H := host64) (H0 := set100) [5; 64]).
  { split; [reflexivity|]. repeat constructor; vm_compute; intuition discriminate. }
  assert (Hidx : 0 <= 70 < numIndices (H := host64) (H0 := set100))
    by (vm_compute; intuition discriminate).
  split; [exact element64_ok|]. split; [exact Hwf|]. split; [exact Hidx|].
  exact (remove_then_contains (H := host64) (H0 := set100) [5; 64] 70
           element64_ok Hwf Hidx).
Defined.

(** ** The empty set *)

Lemma combineElements_zero (count : nat) (elementIndex : Z) (elements : list Z)
    (combinedElements : Z) :
  0 <= elementIndex ->
  (Z.to_nat elementIndex + count <= length elements)%nat ->
  exists combined,
    combineElements count elementIndex elements combinedElements = Some combined
    /\ (combined = 0 <->
        combinedElements = 0
        /\ forall n, (Z.to_nat elementIndex <= n < Z.to_nat elementIndex + count)%nat ->
             elements !! n = Some 0).
Proof.
  revert elementIndex combinedElements.
  induction count as [|count IH]; intros elementIndex combinedElements Hi Hlen; simpl.
  - exists combinedElements. split; [reflexivity|]. split; [|tauto].
    intros ->. split; [reflexivity|]. intros n Hn. lia.
  - destruct (lookup_lt_is_Some_2 elements (Z.to_nat elementIndex)) as [element Hl];
      [lia|].
    rewrite Hl. simpl.
    destruct (IH (elementIndex + 1) (Z.lor combinedElements element))
      as (combined & Hc & Hiff); [lia | lia |].
    exists combined. split; [exact Hc|]. rewrite Hiff, Z.lor_eq_0_iff.
    replace (Z.to_nat (elementIndex + 1)) with (S (Z.to_nat elementIndex)) by lia.
    split.
    + intros ((-> & ->) & Hrest). split; [reflexivity|]. intros n Hn.
      destruct (Nat.eq_dec n (Z.to_nat elementIndex)) as [->|Hne];
        [exact Hl | apply Hrest; lia].
    + intros (-> & Hall). split; [split; [reflexivity|] | intros n Hn; apply Hall; lia].
      specialize (Hall (Z.to_nat elementIndex) ltac:(lia)). congruence.
Qed.

Lemma isEmpty_contains `{Host} `{Template} (elements : list Z) :
  ElementOk -> wf elements ->
  exists result,
    isEmpty elements = Some result
    /\ (result = true <->
        forall index, 0 <= index < numIndices -> contains elements index = Some false).
Proof.
  intros He Hwf. pose proof (indicesPerElement_eq He) as Hipe.
  assert (Hw : 0 < uptrBits) by apply He.
  destruct (combineElements_zero (Z.to_nat numElements) 0 elements 0)
    as (combined & Hc & Hiff); [lia | destruct Hwf as (-> & _); simpl; lia |].
  exists (combined =? 0). unfold isEmpty. rewrite Hc. simpl. split; [reflexivity|].
  rewrite Z.eqb_eq, Hiff. simpl. split.
  - intros (_ & Hall) index Hidx.
    destruct (index_split index He Hidx) as (Hword & Hbit).
    unfold contains. rewrite Hall by lia. reflexivity.
  - intros Hall. split; [reflexivity|]. intros n Hn.
    assert (Hword : 0 <= Z.of_nat n < numElements) by lia.
    destruct (wf_lookup elements _ Hwf Hword) as (element & Hl & Hr).
    rewrite Nat2Z.id in Hl. rewrite Hl. f_equal.
    apply element_eq_bits; [assumption | split; [lia | apply Z.pow_pos_nonneg; lia] |].
    intros bit Hbit. rewrite Z.bits_0.
    assert (Hidx : 0 <= Z.of_nat n * indicesPerElement + bit < numIndices)
      by (unfold numIndices; rewrite Hipe; nia).
    specialize (Hall _ Hidx). unfold contains in Hall.
    assert (Hdiv : (Z.of_nat n * indicesPerElement + bit) / indicesPerElement
                   = Z.of_nat n)
      by (rewrite Hipe; symmetry; apply (Z.div_unique _ _ _ bit); lia).
    assert (Hmod : (Z.of_nat n * indicesPerElement + bit) mod indicesPerElement = bit)
      by (rewrite Hipe; symmetry; apply (Z.mod_unique _ _ (Z.of_nat n)); lia).
    rewrite Hdiv, Hmod, Nat2Z.id, Hl in Hall. simpl in Hall.
    rewrite test_elementMask in Hall by assumption. congruence.
Qed.

(** X20: [isEmpty] is true exactly when [contains] is false at every index
    the array has a bit for, the padding from [maxIndexPlusOne] on
    included. *)
Theorem isEmpty_iff `{Host} `{Template} (elements : list Z) :
  ElementOk -> wf elements ->
  exists result,
    isEmpty elements = Some result
    /\ (result = true <->
        forall index, 0 <= index < numIndices -> contains elements index = Some false).
Proof. apply @isEmpty_contains. Qed.

Lemma isEmpty_iff_witness :
  ElementOk (H := host64) /\ wf (H := host64) (H0 := set100) [0; 2 ^ 40]
  /\ exists result,
       isEmpty (H := host64) (H0 := set100) [0; 2 ^ 40] = Some result
       /\ (result = true <->
           forall index, 0 <= index < numIndices (H := host64) (H0 := set100) ->
             contains (H := host64) [0; 2 ^ 40] index = Some false).
Proof.
  assert (Hwf : wf (H := host64) (H0 := set100) [0; 2 ^ 40]).
  { split; [reflexivity|]. repeat constructor; vm_compute; intuition discriminate. }
  split; [exact element64_ok|]. split; [exact Hwf|].
  exact (isEmpty_iff (H := host64) (H0 := set100) [0; 2 ^ 40] element64_ok Hwf).
Defined.

(** ** The logical operators *)

Lemma assignElements_lookup (count : nat) (elementIndex : Z)
    (value : Z -> option Z) (result : list Z) (f : nat -> Z) :
  0 <= elementIndex ->
  (Z.to_nat elementIndex + count <= length result)%nat ->
  (forall n, (Z.to_nat elementIndex <= n < Z.to_nat elementIndex + count)%nat ->
     value (Z.of_nat n) = Some (f n)) ->
  exists result',
    assignElements count elementIndex value result = Some result'
    /\ length result' = length result
    /\ (forall n, (Z.to_nat elementIndex <= n < Z.to_nat elementIndex + count)%nat ->
          result' !! n = Some (f n))
    /\ (forall n, ~ (Z.to_nat elementIndex <= n < Z.to_nat elementIndex + count)%nat ->
          result' !! n = result !! n).
Proof.
  revert elementIndex result.
  induction count as [|count IH]; intros elementIndex result Hi Hlen Hval; simpl.
  - exists result. split; [reflexivity|]. split; [reflexivity|].
    split; [intros n Hn; lia | reflexivity].
  - assert (Hv : value elementIndex = Some (f (Z.to_nat elementIndex))).
    { rewrite <- (Z2Nat.id elementIndex) at 1 by assumption. apply Hval. lia. }
    rewrite Hv. simpl.
    destruct (lookup_lt_is_Some_2 result (Z.to_nat elementIndex)) as [old Hl]; [lia|].
    rewrite Hl. simpl.
    destruct (IH (elementIndex + 1)
                 (<[Z.to_nat elementIndex := f (Z.to_nat elementIndex)]> result))
      as (result' & Hr & Hlen' & Hin & Hout).
    + lia.
    + rewrite length_insert. lia.
    + intros n Hn. apply Hval. lia.
    + replace (Z.to_nat (elementIndex + 1)) with (S (Z.to_nat elementIndex)) in * by lia.
      exists result'. split; [exact Hr|]. rewrite length_insert in Hlen'.
      split; [exact Hlen'|]. split.
      * intros n Hn. destruct (Nat.eq_dec n (Z.to_nat elementIndex)) as [->|Hne].
        -- rewrite Hout by lia. apply list_lookup_insert_eq. lia.
        -- apply Hin. lia.
      * intros n Hn. rewrite Hout by lia. apply list_lookup_insert_ne. lia.
Qed.

(** An operator that computes each word of its result from the words of
    its operands at the same index. *)
Lemma assignElements_wordwise `{Host} `{Template}
    (value : Z -> option Z) (f : nat -> Z) :
  0 < uptrBits ->
  (forall n, (n < Z.to_nat numElements)%nat ->
     value (Z.of_nat n) = Some (f n) /\ 0 <= f n < 2 ^ uptrBits) ->
  exists result,
    assignElements (Z.to_nat numElements) 0 value empty = Some result
    /\ wf result
    /\ (forall n, (n < Z.to_nat numElements)%nat -> result !! n = Some (f n)).
Proof.
  intros Hw Hval.
  destruct (assignElements_lookup (Z.to_nat numElements) 0 value empty f)
    as (result & Hr & Hlen & Hin & _).
  - lia.
  - unfold empty. rewrite length_replicate. simpl. lia.
  - intros n Hn. apply Hval. simpl in Hn. lia.
  - exists result. split; [exact Hr|].
    assert (Hlen' : length result = Z.to_nat numElements)
      by (rewrite Hlen; unfold empty; apply length_replicate).
    split.
    + split; [exact Hlen'|]. apply Forall_lookup. intros n element Hl.
      assert (Hn : (n < Z.to_nat numElements)%nat)
        by (rewrite <- Hlen'; apply lookup_lt_is_Some_1; eauto).
      rewrite Hin in Hl by (simpl; lia). injection Hl as <-. now apply Hval.
    + intros n Hn. apply Hin. simpl. lia.
Qed.

Lemma wf_lookup_nat `{Host} `{Template} (elements : list Z) (n : nat) :
  wf elements -> (n < Z.to_nat numElements)%nat ->
  exists element, elements !! n = Some element /\ 0 <= element < 2 ^ uptrBits.
Proof.
  intros Hwf Hn.
  destruct (wf_lookup elements (Z.of_nat n) Hwf) as (element & Hl & Hr); [lia|].
  rewrite Nat2Z.id in Hl. eauto.
Qed.

Lemma complement_words `{Host} `{Template} (set : list Z) :
  ElementOk -> wf set ->
  exists result,
    complement set = Some result
    /\ wf result
    /\ (forall index b, 0 <= index < numIndices ->
          contains set index = Some b -> contains result index = Some (negb b)).
Proof.
  intros He Hwf. assert (Hw : 0 < uptrBits) by apply He.
  destruct (assignElements_wordwise
              (fun elementIndex =>
                 element ← set !! Z.to_nat elementIndex;
                 Some (complementElement element))
              (fun n => complementElement (default 0 (set !! n))) Hw)
    as (result & Hr & Hwf' & Hwords).
  { intros n Hn. destruct (wf_lookup_nat set n Hwf Hn) as (element & Hl & _).
    rewrite Nat2Z.id, Hl. simpl. split; [reflexivity|].
    now apply complementElement_range. }
  exists result. split; [exact Hr|]. split; [exact Hwf'|].
  intros index b Hidx Hb.
  destruct (index_split index He Hidx) as (Hword & Hbit).
  destruct (contains_testbit set index He Hwf Hidx) as (element & Hl & _ & Hc).
  unfold contains. rewrite Hwords, Hl by lia. simpl.
  rewrite test_elementMask, complementElement_bits by assumption. congruence.
Qed.

(** X21: [operator~] flips [contains] at every index the array has a bit
    for, so at the padding too: where [maxIndexPlusOne] is not a multiple
    of the word size, the complement of a set with no padding bit set is
    never empty, not even the complement of the set of all the indices
    below [maxIndexPlusOne], and it is never [==] to a set with no padding
    bit set. *)
Theorem complement_contains `{Host} `{Template} (set : list Z) :
  ElementOk -> TemplateOk -> wf set ->
  exists result,
    complement set = Some result
    /\ wf result
    /\ (forall index b, 0 <= index < numIndices ->
          contains set index = Some b -> contains result index = Some (negb b))
    /\ (maxIndexPlusOne < numIndices ->
        contains set maxIndexPlusOne = Some false ->
        isEmpty result = Some false
        /\ forall other, contains other maxIndexPlusOne = Some false ->
             equal result other = false).
Proof.
  intros He Ht Hwf.
  destruct (complement_words set He Hwf) as (result & Hr & Hwf' & Hflip).
  exists result. split; [exact Hr|]. split; [exact Hwf'|]. split; [exact Hflip|].
  intros Hpad Hclear.
  assert (Hidx : 0 <= maxIndexPlusOne < numIndices) by (destruct Ht; lia).
  pose proof (Hflip _ _ Hidx Hclear) as Hset. simpl in Hset. split.
  - destruct (isEmpty_contains result He Hwf') as (b & Hb & Hiff).
    rewrite Hb. f_equal. destruct b; [|reflexivity].
    destruct Hiff as (Hall & _). specialize (Hall eq_refl _ Hidx). congruence.
  - intros other Hother. unfold equal. apply bool_decide_eq_false.
    intros ->. congruence.
Qed.

Lemma complement_contains_witness :
  ElementOk (H := host64) /\ TemplateOk (H := host64) (H0 := set100)
  /\ wf (H := host64) (H0 := set100) [5; 0]
  /\ exists result,
       complement (H := host64) (H0 := set100) [5; 0] = Some result
       /\ wf (H := host64) (H0 := set100) result
       /\ (forall index b, 0 <= index < numIndices (H := host64) (H0 := set100) ->
             contains (H := host64) [5; 0] index = Some b ->
             contains (H := host64) result index = Some (negb b))
       /\ (maxIndexPlusOne (Template := set100) < numIndices (H := host64) (H0 := set100) ->
           contains (H := host64) [5; 0] (maxIndexPlusOne (Template := set100))
           = Some false ->
           isEmpty (H := host64) (H0 := set100) result = Some false
           /\ forall other,
                contains (H := host64) other (maxIndexPlusOne (Template := set100))
                = Some false ->
                equal result other = false).
Proof.
  assert (Hwf : wf (H := host64) (H0 := set100) [5; 0]).
  { split; [reflexivity|]. repeat constructor; vm_compute; intuition discriminate. }
  split; [exact element64_ok|]. split; [exact set100_ok|]. split; [exact Hwf|].
  exact (complement_contains (H := host64) (H0 := set100) [5; 0]
           element64_ok set100_ok Hwf).
Defined.

Lemma binary_words `{Host} `{Template} (op : Z -> Z -> Z) (bop : bool -> bool -> bool)
    (left right : list Z) :
  ElementOk -> wf left -> wf right ->
  (forall a b, 0 <= a < 2 ^ uptrBits -> 0 <= b < 2 ^ uptrBits ->
     0 <= op a b < 2 ^ uptrBits) ->
  (forall a b bit, 0 <= bit ->
     Z.testbit (op a b) bit = bop (Z.testbit a bit) (Z.testbit b bit)) ->
  exists result,
    assignElements (Z.to_nat numElements) 0
      (fun elementIndex =>
         l ← left !! Z.to_nat elementIndex;
         r ← right !! Z.to_nat elementIndex; Some (op l r))
      empty = Some result
    /\ wf result
    /\ (forall index a b, 0 <= index < numIndices ->
          contains left index = Some a -> contains right index = Some b ->
          contains result index = Some (bop a b)).
Proof.
  intros He Hl Hr Hrange Hbits. assert (Hw : 0 < uptrBits) by apply He.
  destruct (assignElements_wordwise
              (fun elementIndex =>
                 l ← left !! Z.to_nat elementIndex;
                 r ← right !! Z.to_nat elementIndex; Some (op l r))
              (fun n => op (default 0 (left !! n)) (default 0 (right !! n))) Hw)
    as (result & Hres & Hwf' & Hwords).
  { intros n Hn. destruct (wf_lookup_nat left n Hl Hn) as (l & Hll & Hlr).
    destruct (wf_lookup_nat right n Hr Hn) as (r & Hrl & Hrr).
    rewrite Nat2Z.id, Hll, Hrl. simpl. split; [reflexivity|]. now apply Hrange. }
  exists result. split; [exact Hres|]. split; [exact Hwf'|].
  intros index a b Hidx Ha Hb.
  destruct (index_split index He Hidx) as (Hword & Hbit).
  destruct (contains_testbit left index He Hl Hidx) as (l & Hll & _ & Hlc).
  destruct (contains_testbit right index He Hr Hidx) as (r & Hrl & _ & Hrc).
  unfold contains. rewrite Hwords, Hll, Hrl by lia. simpl.
  rewrite test_elementMask, Hbits by lia. congruence.
Qed.

(** X22: [operator|], [operator&] and [operator^] are the union, the
    intersection and the symmetric difference: at every index the array has
    a bit for, [contains] of the result is the disjunction, the conjunction
    and the exclusive disjunction of [contains] of the operands. *)
Theorem union_intersection_difference `{Host} `{Template} (left right : list Z) :
  ElementOk -> wf left -> wf right ->
  exists u i d,
    union left right = Some u
    /\ intersection left right = Some i
    /\ difference left right = Some d
    /\ wf u /\ wf i /\ wf d
    /\ (forall index a b, 0 <= index < numIndices ->
          contains left index = Some a -> contains right index = Some b ->
          contains u index = Some (a || b)
          /\ contains i index = Some (a && b)
          /\ contains d index = Some (xorb a b)).
Proof.
  intros He Hl Hr. assert (Hw : 0 <= uptrBits) by (destruct He; lia).
  destruct (binary_words Z.lor orb left right He Hl Hr) as (u & Hu & Hwu & Hcu).
  { intros a b Ha Hb. now apply lor_range. }
  { intros a b bit _. apply Z.lor_spec. }
  destruct (binary_words Z.land andb left right He Hl Hr) as (i & Hi & Hwi & Hci).
  { intros a b Ha Hb. now apply land_range. }
  { intros a b bit _. apply Z.land_spec. }
  destruct (binary_words Z.lxor xorb left right He Hl Hr) as (d & Hd & Hwd & Hcd).
  { intros a b Ha Hb. now apply lxor_range. }
  { intros a b bit _. apply Z.lxor_spec. }
  exists u, i, d. repeat (split; [assumption|]).
  intros index a b Hidx Ha Hb.
  split; [|split]; [now apply Hcu | now apply Hci | now apply Hcd].
Qed.

Lemma union_intersection_difference_witness :
  ElementOk (H := host64) /\ wf (H := host64) (H0 := set100) [5; 0]
  /\ wf (H := host64) (H0 := set100) [3; 64]
  /\ exists u i d,
       union (H := host64) (H0 := set100) [5; 0] [3; 64] = Some u
       /\ intersection (H := host64) (H0 := set100) [5; 0] [3; 64] = Some i
       /\ difference (H := host64) (H0 := set100) [5; 0] [3; 64] = Some d
       /\ wf (H := host64) (H0 := set100) u /\ wf (H := host64) (H0 := set100) i
       /\ wf (H := host64) (H0 := set100) d
       /\ (forall index a b, 0 <= index < numIndices (H := host64) (H0 := set100) ->
             contains (H := host64) [5; 0] index = Some a ->
             contains (H := host64) [3; 64] index = Some b ->
             contains (H := host64) u index = Some (a || b)
             /\ contains (H := host64) i index = Some (a && b)
             /\ contains (H := host64) d index = Some (xorb a b)).
Proof.
  assert (Hl : wf (H := host64) (H0 := set100) [5; 0]).
  { split; [reflexivity|]. repeat constructor; vm_compute; intuition discriminate. }
  assert (Hr : wf (H := host64) (H0 := set100) [3; 64]).
  { split; [reflexivity|]. repeat constructor; vm_compute; intuition discriminate. }
  split; [exact element64_ok|]. split; [exact Hl|]. split; [exact Hr|].
  exact (union_intersection_difference (H := host64) (H0 := set100) [5; 0] [3; 64]
           element64_ok Hl Hr).
Defined.

(** ** The smallest member *)

(** The index of a bit of a word of the array. *)
Lemma index_of_bit `{Host} `{Template} (elementIndex bit : Z) :
  ElementOk -> TemplateOk ->
  0 <= elementIndex < numElements -> 0 <= bit < uptrBits ->
  let index := elementIndex * indicesPerElement + bit in
  0 <= index < numIndices
  /\ index / indicesPerElement = elementIndex
  /\ index mod indicesPerElement = bit
  /\ Index (Uptr (Uptr (elementIndex * indicesPerElement) + bit)) = index.
Proof.
  intros He Ht Hi Hbit index. pose proof (indicesPerElement_eq He) as Hipe.
  destruct (numElements_bounds He Ht) as (_ & Hn).
  destruct Ht as (Hpos & Hwrap & Hfit). assert (Hw : 0 < uptrBits) by apply He.
  unfold index, numIndices in *. rewrite Hipe in *.
  assert (Hidx : 0 <= elementIndex * uptrBits + bit < numElements * uptrBits) by nia.
  split; [exact Hidx|].
  split; [symmetry; apply (Z.div_unique _ _ _ bit); lia|].
  split; [symmetry; apply (Z.mod_unique _ _ elementIndex); lia|].
  rewrite (Uptr_small (elementIndex * uptrBits)) by nia.
  rewrite Uptr_small by lia. unfold Index. apply Z.mod_small. lia.
Qed.

Lemma getSmallestMemberFrom_first `{Host} `{Intrinsic} `{Template}
    (count : nat) (elementIndex : Z) (elements : list Z) :
  ElementOk -> TemplateOk -> IntrinsicOk -> wf elements ->
  0 <= elementIndex ->
  (Z.to_nat elementIndex + count = Z.to_nat numElements)%nat ->
  exists result,
    getSmallestMemberFrom count elementIndex elements = Some result
    /\ ((result = Index maxIndexPlusOne
         /\ forall n, (Z.to_nat elementIndex <= n < Z.to_nat numElements)%nat ->
              elements !! n = Some 0)
        \/ (exists first element,
              elementIndex <= first < numElements
              /\ elements !! Z.to_nat first = Some element
              /\ 0 < element < 2 ^ uptrBits
              /\ (forall n, (Z.to_nat elementIndex <= n < Z.to_nat first)%nat ->
                    elements !! n = Some 0)
              /\ result = first * indicesPerElement + countTrailingZeroes element)).
Proof.
  intros He Ht Hctz Hwf. revert elementIndex.
  induction count as [|count IH]; intros elementIndex Hi Hlen; simpl.
  - exists (Index maxIndexPlusOne). split; [reflexivity|]. left.
    split; [reflexivity|]. intros n Hn. lia.
  - assert (Hword : 0 <= elementIndex < numElements) by lia.
    destruct (wf_lookup elements _ Hwf Hword) as (element & Hl & Hr).
    rewrite Hl. simpl. destruct (element =? 0) eqn:Hz; simpl.
    + apply Z.eqb_eq in Hz. subst element.
      destruct (IH (elementIndex + 1)) as (result & Hres & Hcases); [lia | lia |].
      exists result. split; [exact Hres|].
      replace (Z.to_nat (elementIndex + 1)) with (S (Z.to_nat elementIndex)) in * by lia.
      destruct Hcases as [(-> & Hall) | (first & element & Hf & Hfl & Hfr & Hbefore & ->)].
      * left. split; [reflexivity|]. intros n Hn.
        destruct (Nat.eq_dec n (Z.to_nat elementIndex)) as [->|Hne];
          [exact Hl | apply Hall; lia].
      * right. exists first, element. split; [lia|]. split; [exact Hfl|].
        split; [exact Hfr|]. split; [|reflexivity]. intros n Hn.
        destruct (Nat.eq_dec n (Z.to_nat elementIndex)) as [->|Hne];
          [exact Hl | apply Hbefore; lia].
    + apply Z.eqb_neq in Hz. assert (Hpos : 0 < element < 2 ^ uptrBits) by lia.
      destruct (Hctz element Hpos) as (Hbit & _).
      destruct (index_of_bit elementIndex (countTrailingZeroes element) He Ht Hword Hbit)
        as (_ & _ & _ & Hcast).
      rewrite Hcast. eexists. split; [reflexivity|]. right.
      exists elementIndex, element. split; [lia|]. split; [exact Hl|].
      split; [exact Hpos|]. split; [intros n Hn; lia | reflexivity].
Qed.

(** X23: [getSmallestMember] returns the smallest index [contains] is true
    at, among all the indices the array has a bit for; when there is none
    it returns [maxIndexPlusOne] converted to [Index], which is [0] for a
    set of all the values of [Index], such as the 256 values of a [U8]. *)
Theorem getSmallestMember_least `{Host} `{Intrinsic} `{Template} (elements : list Z) :
  ElementOk -> TemplateOk -> IntrinsicOk -> wf elements ->
  exists result,
    getSmallestMember elements = Some result
    /\ ((result = maxIndexPlusOne mod 2 ^ indexBits
         /\ forall index, 0 <= index < numIndices ->
              contains elements index = Some false)
        \/ (0 <= result < numIndices
            /\ contains elements result = Some true
            /\ forall index, 0 <= index < result ->
                 contains elements index = Some false)).
Proof.
  intros He Ht Hctz Hwf. pose proof (indicesPerElement_eq He) as Hipe.
  assert (Hw : 0 < uptrBits) by apply He.
  destruct (getSmallestMemberFrom_first (Z.to_nat numElements) 0 elements
              He Ht Hctz Hwf) as (result & Hres & Hcases); [lia | simpl; lia |].
  exists result. split; [exact Hres|].
  destruct Hcases as [(-> & Hall) | (first & element & Hf & Hfl & Hfr & Hbefore & ->)].
  - left. split; [reflexivity|]. intros index Hidx.
    destruct (index_split index He Hidx) as (Hword & Hbit).
    unfold contains. rewrite Hall by (simpl; lia). reflexivity.
  - right. destruct (Hctz element Hfr) as (Hbit & Hset & Hlow).
    destruct (index_of_bit first (countTrailingZeroes element) He Ht
                ltac:(lia) Hbit) as (Hidx & Hdiv & Hmod & _).
    split; [exact Hidx|]. split.
    + unfold contains. rewrite Hdiv, Hfl. simpl. rewrite Hmod.
      rewrite test_elementMask by assumption. now rewrite Hset.
    + intros index Hlt.
      assert (Hidx' : 0 <= index < numIndices) by lia.
      destruct (index_split index He Hidx') as (Hword & Hb).
      assert (Hnz : indicesPerElement <> 0) by lia.
      pose proof (Z.div_mod index indicesPerElement Hnz) as Hdm.
      assert (Hq : index / indicesPerElement <= first) by (rewrite Hipe in *; nia).
      destruct (Z.eq_dec (index / indicesPerElement) first) as [Heq|Hne].
      * unfold contains. rewrite Heq, Hfl. simpl.
        rewrite test_elementMask by assumption. f_equal. apply Hlow.
        rewrite Heq in Hdm. lia.
      * unfold contains. rewrite Hbefore by (simpl; lia). reflexivity.
Qed.

Lemma lowestBit_spec (p : positive) :
  0 <= lowestBit p
  /\ Z.testbit (Zpos p) (lowestBit p) = true
  /\ (forall bit, 0 <= bit < lowestBit p -> Z.testbit (Zpos p) bit = false).
Proof.
  induction p as [p _|p (Hnn & Hset & Hlow)|]; simpl lowestBit.
  - split; [lia|]. split; [reflexivity|]. intros bit Hbit. lia.
  - split; [lia|]. change (Zpos p~0) with (2 * Zpos p).
    split.
    + replace (1 + lowestBit p) with (Z.succ (lowestBit p)) by lia.
      now rewrite Z.testbit_even_succ.
    + intros bit Hbit. destruct (Z.eq_dec bit 0) as [->|Hne].
      * apply Z.testbit_even_0.
      * replace bit with (Z.succ (bit - 1)) by lia.
        rewrite Z.testbit_even_succ by lia. apply Hlow. lia.
  - split; [lia|]. split; [reflexivity|]. intros bit Hbit. lia.
Qed.

Lemma intrinsic64_ok : IntrinsicOk (H := host64) (H0 := intrinsic64).
Proof.
  intros element Hr. destruct element as [|p|p]; [lia| |lia].
  simpl countTrailingZeroes. destruct (lowestBit_spec p) as (Hnn & Hset & Hlow).
  split; [|split; assumption]. split; [exact Hnn|].
  destruct (Z_lt_le_dec (lowestBit p) (uptrBits (Host := host64))) as [Hlt|Hge];
    [exact Hlt|].
  rewrite (element_bits_above (H := host64) (Zpos p) (lowestBit p)) in Hset;
    [discriminate | lia | exact Hge].
Qed.

Lemma getSmallestMember_least_witness :
  ElementOk (H := host64) /\ TemplateOk (H := host64) (H0 := set100)
  /\ IntrinsicOk (H := host64) (H0 := intrinsic64)
  /\ wf (H := host64) (H0 := set100) [0; 192]
  /\ exists result,
       getSmallestMember (H := host64) (H0 := intrinsic64) (H1 := set100) [0; 192]
       = Some result
       /\ ((result = maxIndexPlusOne (Template := set100)
                     mod 2 ^ indexBits (Template := set100)
            /\ forall index, 0 <= index < numIndices (H := host64) (H0 := set100) ->
                 contains (H := host64) [0; 192] index = Some false)
           \/ (0 <= result < numIndices (H := host64) (H0 := set100)
               /\ contains (H := host64) [0; 192] result = Some true
               /\ forall index, 0 <= index < result ->
                    contains (H := host64) [0; 192] index = Some false)).
Proof.
  assert (Hwf : wf (H := host64) (H0 := set100) [0; 192]).
  { split; [reflexivity|]. repeat constructor; vm_compute; intuition discriminate. }
  split; [exact element64_ok|]. split; [exact set100_ok|]. split; [exact intrinsic64_ok|].
  split; [exact Hwf|].
  exact (getSmallestMember_least (H := host64) (H0 := intrinsic64) (H1 := set100)
           [0; 192] element64_ok set100_ok intrinsic64_ok Hwf).
Defined.

(** ** The smallest non-member *)

Lemma contains_word `{Host} `{Template} (elements : list Z)
    (elementIndex element index : Z) :
  ElementOk -> 0 <= elementIndex ->
  elements !! Z.to_nat elementIndex = Some element ->
  elementIndex * indicesPerElement <= index < (elementIndex + 1) * indicesPerElement ->
  0 <= index - elementIndex * indicesPerElement < uptrBits
  /\ contains elements index
     = Some (Z.testbit element (index - elementIndex * indicesPerElement)).
Proof.
  intros He Hi Hl Hidx. pose proof (indicesPerElement_eq He) as Hipe.
  assert (Hw : 0 < uptrBits) by apply He. rewrite Hipe in *.
  set (bit := index - elementIndex * uptrBits).
  assert (Hbit : 0 <= bit < uptrBits) by (unfold bit; lia).
  split; [exact Hbit|].
  assert (Hdiv : index / uptrBits = elementIndex)
    by (symmetry; apply (Z.div_unique _ _ _ bit); unfold bit; lia).
  assert (Hmod : index mod uptrBits = bit)
    by (symmetry; apply (Z.mod_unique _ _ elementIndex); unfold bit; lia).
  unfold contains. rewrite Hipe, Hdiv, Hl. simpl. rewrite Hmod.
  now rewrite test_elementMask.
Qed.

Lemma getSmallestNonMemberFrom_first `{Host} `{Intrinsic} `{Template}
    (count : nat) (elementIndex : Z) (elements : list Z) :
  ElementOk -> TemplateOk -> IntrinsicOk -> wf elements ->
  0 <= elementIndex ->
  (Z.to_nat elementIndex + count = Z.to_nat numElements)%nat ->
  exists result,
    getSmallestNonMemberFrom count elementIndex elements = Some result
    /\ ((result = Index maxIndexPlusOne
         /\ forall index,
              elementIndex * indicesPerElement <= index < maxIndexPlusOne ->
              contains elements index = Some true)
        \/ (elementIndex * indicesPerElement <= result < maxIndexPlusOne
            /\ contains elements result = Some false
            /\ forall index, elementIndex * indicesPerElement <= index < result ->
                 contains elements index = Some true)).
Proof.
  intros He Ht Hctz Hwf. pose proof (indicesPerElement_eq He) as Hipe.
  assert (Hw : 0 < uptrBits) by apply He.
  destruct (numElements_bounds He Ht) as (Hnpos & Hn). unfold numIndices in Hn.
  revert elementIndex.
  induction count as [|count IH]; intros elementIndex Hi Hlen; simpl.
  - exists (Index maxIndexPlusOne). split; [reflexivity|]. left.
    split; [reflexivity|]. intros index Hidx.
    assert (elementIndex = numElements) by lia. subst elementIndex. lia.
  - assert (Hword : 0 <= elementIndex < numElements) by lia.
    destruct (wf_lookup elements _ Hwf Hword) as (element & Hl & Hr).
    rewrite Hl. simpl.
    pose proof (complementElement_range element Hw) as Hcr.
    destruct (complementElement element =? 0) eqn:Hz; simpl.
    + apply Z.eqb_eq in Hz.
      assert (Hfull : forall index,
                 elementIndex * indicesPerElement <= index
                 < (elementIndex + 1) * indicesPerElement ->
                 contains elements index = Some true).
      { intros index Hidx.
        destruct (contains_word elements elementIndex element index He Hi Hl Hidx)
          as (Hbit & ->).
        f_equal. pose proof (complementElement_bits element _ Hbit) as Hb.
        rewrite Hz, Z.bits_0 in Hb. now destruct (Z.testbit element _). }
      destruct (IH (elementIndex + 1)) as (result & Hres & Hcases); [lia | lia |].
      exists result. split; [exact Hres|].
      destruct Hcases as [(-> & Hall) | (Hrange & Hnot & Hbelow)].
      * left. split; [reflexivity|]. intros index Hidx.
        destruct (Z_lt_le_dec index ((elementIndex + 1) * indicesPerElement));
          [apply Hfull | apply Hall]; lia.
      * right. split; [rewrite Hipe in *; nia|]. split; [exact Hnot|].
        intros index Hidx.
        destruct (Z_lt_le_dec index ((elementIndex + 1) * indicesPerElement));
          [apply Hfull | apply Hbelow]; lia.
    + apply Z.eqb_neq in Hz.
      assert (Hpos : 0 < complementElement element < 2 ^ uptrBits) by lia.
      destruct (Hctz _ Hpos) as (Hbit & Hset & Hlow).
      set (bit := countTrailingZeroes (complementElement element)) in *.
      destruct (index_of_bit elementIndex bit He Ht Hword Hbit)
        as (Hidx & Hdiv & Hmod & Hcast).
      rewrite Hcast.
      set (result := elementIndex * indicesPerElement + bit) in *.
      assert (Hbelow : forall index,
                 elementIndex * indicesPerElement <= index < result ->
                 contains elements index = Some true).
      { intros index Hlt.
        assert (Hin : elementIndex * indicesPerElement <= index
                      < (elementIndex + 1) * indicesPerElement)
          by (unfold result in Hlt; rewrite Hipe in *; lia).
        destruct (contains_word elements elementIndex element index He Hi Hl Hin)
          as (Hb & ->).
        f_equal. pose proof (complementElement_bits element _ Hb) as Hc.
        rewrite Hlow in Hc by (unfold result in Hlt; lia).
        now destruct (Z.testbit element _). }
      destruct (result >=? maxIndexPlusOne) eqn:Hge.
      * exists (Index maxIndexPlusOne). split; [reflexivity|]. left.
        split; [reflexivity|]. intros index Hlt. apply Hbelow. lia.
      * exists result. split; [reflexivity|]. right.
        split; [unfold result; lia|]. split; [|exact Hbelow].
        unfold contains. rewrite Hdiv, Hl. simpl. rewrite Hmod.
        rewrite test_elementMask by assumption. f_equal.
        pose proof (complementElement_bits element _ Hbit) as Hc.
        rewrite Hset in Hc. now destruct (Z.testbit element bit).
Qed.

(** X24: [getSmallestNonMember] returns the smallest index below
    [maxIndexPlusOne] that [contains] is false at; when the set contains
    every index below [maxIndexPlusOne] it returns [maxIndexPlusOne]
    converted to [Index], whatever the padding holds. *)
Theorem getSmallestNonMember_least `{Host} `{Intrinsic} `{Template}
    (elements : list Z) :
  ElementOk -> TemplateOk -> IntrinsicOk -> wf elements ->
  exists result,
    getSmallestNonMember elements = Some result
    /\ ((result = maxIndexPlusOne mod 2 ^ indexBits
         /\ forall index, 0 <= index < maxIndexPlusOne ->
              contains elements index = Some true)
        \/ (0 <= result < maxIndexPlusOne
            /\ contains elements result = Some false
            /\ forall index, 0 <= index < result ->
                 contains elements index = Some true)).
Proof.
  intros He Ht Hctz Hwf.
  destruct (getSmallestNonMemberFrom_first (Z.to_nat numElements) 0 elements
              He Ht Hctz Hwf) as (result & Hres & Hcases); [lia | simpl; lia |].
  exists result. split; [exact Hres|]. simpl in Hcases. exact Hcases.
Qed.

Lemma getSmallestNonMember_least_witness :
  ElementOk (H := host64) /\ TemplateOk (H := host64) (H0 := set100)
  /\ IntrinsicOk (H := host64) (H0 := intrinsic64)
  /\ wf (H := host64) (H0 := set100) [2 ^ 64 - 1; 7]
  /\ exists result,
       getSmallestNonMember (H := host64) (H0 := intrinsic64) (H1 := set100)
         [2 ^ 64 - 1; 7] = Some result
       /\ ((result = maxIndexPlusOne (Template := set100)
                     mod 2 ^ indexBits (Template := set100)
            /\ forall index, 0 <= index < maxIndexPlusOne (Template := set100) ->
                 contains (H := host64) [2 ^ 64 - 1; 7] index = Some true)
           \/ (0 <= result < maxIndexPlusOne (Template := set100)
               /\ contains (H := host64) [2 ^ 64 - 1; 7] result = Some false
               /\ forall index, 0 <= index < result ->
                    contains (H := host64) [2 ^ 64 - 1; 7] index = Some true)).
Proof.
  assert (Hwf : wf (H := host64) (H0 := set100) [2 ^ 64 - 1; 7]).
  { split; [reflexivity|]. repeat constructor; vm_compute; intuition discriminate. }
  split; [exact element64_ok|]. split; [exact set100_ok|]. split; [exact intrinsic64_ok|].
  split; [exact Hwf|].
  exact (getSmallestNonMember_least (H := host64) (H0 := intrinsic64) (H1 := set100)
           [2 ^ 64 - 1; 7] element64_ok set100_ok intrinsic64_ok Hwf).
Defined.

(** ** Adding a range *)

Lemma addRangeFrom_done `{Host} `{Template} (remaining : nat)
    (index rangeMax : Z) (elements : list Z) :
  ElementOk -> TemplateOk -> wf elements ->
  0 <= index -> rangeMax < maxIndexPlusOne -> rangeMax < 2 ^ indexBits - 1 ->
  index + Z.of_nat remaining = rangeMax + 1 ->
  exists elements',
    (forall fuel, (remaining <= fuel)%nat ->
       addRangeFrom fuel index rangeMax elements = Done elements')
    /\ wf elements'
    /\ (forall member, index <= member <= rangeMax ->
          contains elements' member = Some true)
    /\ (forall other, 0 <= other -> ~ index <= other <= rangeMax ->
          contains elements' other = contains elements other).
Proof.
  intros He Ht. revert index elements.
  induction remaining as [|remaining IH];
    intros index elements Hwf Hi Hmax Hfit Hrem.
  - exists elements. split.
    + intros fuel _.
      destruct fuel; simpl; destruct (index <=? rangeMax) eqn:E; try reflexivity; lia.
    + split; [exact Hwf|]. split; [intros member Hm; lia | reflexivity].
  - destruct (add_contains elements index He Ht Hwf) as (added & Ha & Hwa & Hin & Hout);
      [lia|].
    assert (Hnext : Index (index + 1) = index + 1)
      by (unfold Index; apply Z.mod_small; lia).
    destruct (IH (index + 1) added Hwa) as (elements' & Hr & Hw' & Hin' & Hout');
      try lia.
    exists elements'. split; [|split; [exact Hw'|split]].
    + intros fuel Hfuel. destruct fuel as [|fuel]; [lia|]. simpl.
      destruct (index <=? rangeMax) eqn:E; [|lia].
      rewrite Ha, Hnext. apply Hr. lia.
    + intros member Hm. destruct (Z.eq_dec member index) as [->|Hne].
      * rewrite Hout' by lia. exact Hin.
      * apply Hin'. lia.
    + intros other Ho Hnot. rewrite Hout' by lia. apply Hout; lia.
Qed.

Lemma addRangeFrom_unfinished `{Host} `{Template} (fuel : nat)
    (index rangeMax : Z) (elements : list Z) :
  ElementOk -> TemplateOk -> wf elements ->
  rangeMax < maxIndexPlusOne -> rangeMax = 2 ^ indexBits - 1 ->
  0 <= index < 2 ^ indexBits ->
  addRangeFrom fuel index rangeMax elements = Unfinished.
Proof.
  intros He Ht. destruct (numElements_bounds He Ht) as (_ & Hn).
  assert (Hfit : numIndices <= 2 ^ indexBits) by apply Ht.
  revert index elements.
  induction fuel as [|fuel IH]; intros index elements Hwf Hmax Hlast Hi; simpl;
    (destruct (index <=? rangeMax) eqn:E; [|lia]); [reflexivity|].
  destruct (add_contains elements index He Ht Hwf) as (added & Ha & Hwa & _); [lia|].
  rewrite Ha. apply IH; try assumption.
  unfold Index. apply Z.mod_pos_bound. lia.
Qed.

(** X25: [addRange] with [rangeMin <= rangeMax < maxIndexPlusOne] returns,
    with every index of the range added and no other changed, when
    [rangeMax] is below the largest value of [Index].  When [rangeMax] is
    the largest value of [Index], as [255] is in a set of the 256 values of
    a [U8], the loop condition [index <= rangeMax] is always true,
    [++index] wraps around, and the call does not return. *)
Theorem addRange_returns `{Host} `{Template} (elements : list Z)
    (rangeMin rangeMax : Z) :
  ElementOk -> TemplateOk -> wf elements ->
  0 <= rangeMin <= rangeMax -> rangeMax < maxIndexPlusOne ->
  (rangeMax < 2 ^ indexBits - 1 ->
   exists elements',
     (forall fuel, (Z.to_nat (rangeMax - rangeMin + 1) <= fuel)%nat ->
        addRange fuel elements rangeMin rangeMax = Done elements')
     /\ wf elements'
     /\ (forall member, rangeMin <= member <= rangeMax ->
           contains elements' member = Some true)
     /\ (forall other, 0 <= other -> ~ rangeMin <= other <= rangeMax ->
           contains elements' other = contains elements other))
  /\ (rangeMax = 2 ^ indexBits - 1 ->
      forall fuel, addRange fuel elements rangeMin rangeMax = Unfinished).
Proof.
  intros He Ht Hwf Hrange Hmax. split.
  - intros Hfit.
    destruct (addRangeFrom_done (Z.to_nat (rangeMax - rangeMin + 1))
                rangeMin rangeMax elements He Ht Hwf)
      as (elements' & Hr & Hw' & Hin & Hout); try lia.
    exists elements'. unfold addRange.
    split; [exact Hr|]. split; [exact Hw'|]. split; [exact Hin | exact Hout].
  - intros Hlast fuel. unfold addRange.
    apply addRangeFrom_unfinished; try assumption. lia.
Qed.

Lemma addRange_returns_witness :
  ElementOk (H := host64) /\ TemplateOk (H := host64) (H0 := charSet)
  /\ wf (H := host64) (H0 := charSet) [0; 0; 0; 0]
  /\ 0 <= 250 <= 255 /\ 255 < maxIndexPlusOne (Template := charSet)
  /\ ((255 < 2 ^ indexBits (Template := charSet) - 1 ->
       exists elements',
         (forall fuel, (Z.to_nat (255 - 250 + 1) <= fuel)%nat ->
            addRange (H := host64) (H0 := charSet) fuel [0; 0; 0; 0] 250 255
            = Done elements')
         /\ wf (H := host64) (H0 := charSet) elements'
         /\ (forall member, 250 <= member <= 255 ->
               contains (H := host64) elements' member = Some true)
         /\ (forall other, 0 <= other -> ~ 250 <= other <= 255 ->
               contains (H := host64) elements' other
               = contains (H := host64) [0; 0; 0; 0] other))
      /\ (255 = 2 ^ indexBits (Template := charSet) - 1 ->
          forall fuel,
            addRange (H := host64) (H0 := charSet) fuel [0; 0; 0; 0] 250 255
            = Unfinished)).
Proof.
  assert (Hwf : wf (H := host64) (H0 := charSet) [0; 0; 0; 0]).
  { split; [reflexivity|]. repeat constructor; vm_compute; intuition discriminate. }
  assert (Hrange : 0 <= 250 <= 255) by lia.
  assert (Hmax : 255 < maxIndexPlusOne (Template := charSet)) by (vm_compute; reflexivity).
  split; [exact element64_ok|]. split; [exact charSet_ok|]. split; [exact Hwf|].
  split; [exact Hrange|]. split; [exact Hmax|].
  exact (addRange_returns (H := host64) (H0 := charSet) [0; 0; 0; 0] 250 255
           element64_ok charSet_ok Hwf Hrange Hmax).
Defined.

End DenseStaticIntSetTheorems.

(** * The integer literals of the text format *)

Section WASTTheorems.
Import WAST.

(** ** Digits *)

Lemma isLiteralChar_cases (c : ascii) :
  isLiteralChar c = true ->
  (c =? "_")%char = true
  \/ ((c =? "_")%char = false
      /\ (code c <? code "0") || (code c >? code "9") = false
      /\ 0 <= code c - code "0" <= 9).
Proof.
  unfold isLiteralChar, isDigit. change (code "0") with 48. change (code "9") with 57.
  destruct (c =? "_")%char; [now left|]. rewrite orb_false_r. intros Hd. right.
  split; [reflexivity|]. apply negb_true_iff in Hd. split; [exact Hd|].
  apply orb_false_iff in Hd. lia.
Qed.

Lemma isLiteralChar_false (c : ascii) :
  isLiteralChar c = false ->
  (c =? "_")%char = false /\ (code c <? code "0") || (code c >? code "9") = true.
Proof.
  unfold isLiteralChar, isDigit. intros Hc. apply orb_false_iff in Hc.
  destruct Hc as (Hd & Hu). split; [exact Hu|]. now apply negb_false_iff in Hd.
Qed.

Lemma skipDigits_literal (literal rest : list ascii) :
  forallb isLiteralChar literal = true -> endsLiteral rest ->
  skipDigits (literal ++ rest) = rest.
Proof.
  intros Hl Hrest. induction literal as [|c literal IH]; simpl.
  - destruct rest as [|c rest]; [reflexivity|]. simpl in *.
    destruct (isLiteralChar_false c Hrest) as (-> & Hd).
    change (code "0") with 48 in *. change (code "9") with 57 in *.
    rewrite orb_false_r. apply orb_true_iff in Hd.
    destruct (code c >=? 48) eqn:E1; destruct (code c <=? 57) eqn:E2;
      try reflexivity; lia.
  - simpl in Hl. apply andb_true_iff in Hl. destruct Hl as (Hc & Hl).
    destruct (isLiteralChar_cases c Hc) as [-> | (-> & Hd & Hr)].
    + rewrite orb_true_r. now apply IH.
    + change (code "0") with 48 in *. change (code "9") with 57 in *.
      apply orb_false_iff in Hd.
      destruct (code c >=? 48) eqn:E1; destruct (code c <=? 57) eqn:E2; try lia.
      simpl. now apply IH.
Qed.

Lemma valueOfDigits_grows (literal : list ascii) (value : Z) :
  forallb isLiteralChar literal = true -> 0 <= value ->
  value <= valueOfDigits literal value.
Proof.
  revert value. induction literal as [|c literal IH]; intros value Hl Hv; simpl;
    [lia|].
  simpl in Hl. apply andb_true_iff in Hl. destruct Hl as (Hc & Hl).
  destruct (isLiteralChar_cases c Hc) as [-> | (-> & _ & Hr)]; [now apply IH|].
  specialize (IH (value * 10 + (code c - code "0")) Hl). lia.
Qed.

(** The overflow check of the loop, for a digit that is at most
    [maxValue]. *)
Lemma overflow_check (result maxValue digit : Z) :
  0 <= digit <= maxValue -> maxValue < 2 ^ 64 ->
  (result >? U64 (maxValue - digit) / 10) = (result * 10 + digit >? maxValue).
Proof.
  intros Hd Hm. rewrite U64_small by lia.
  assert (H10 : 10 <> 0) by lia.
  pose proof (Z.div_mod (maxValue - digit) 10 H10).
  pose proof (Z.mod_pos_bound (maxValue - digit) 10 ltac:(lia)).
  destruct (result >? (maxValue - digit) / 10) eqn:E1;
    destruct (result * 10 + digit >? maxValue) eqn:E2; try reflexivity; lia.
Qed.

Lemma parseDigits_value (literal rest firstDigit : list ascii) (maxValue : Z)
    (context : string) (parseState : list Error) (result : Z) :
  9 <= maxValue < 2 ^ 64 -> 0 <= result <= maxValue ->
  forallb isLiteralChar literal = true -> endsLiteral rest ->
  parseDigits firstDigit maxValue context (literal ++ rest) parseState result
  = if valueOfDigits literal result <=? maxValue
    then (rest, parseState, valueOfDigits literal result)
    else (rest, parseErrorf parseState firstDigit (context +:+ " is too large"),
          maxValue).
Proof.
  intros Hm Hr Hl Hrest. revert result Hr.
  induction literal as [|c literal IH]; intros result Hr; simpl.
  - destruct (result <=? maxValue) eqn:E; [|lia].
    destruct rest as [|c rest]; [reflexivity|]. simpl in *.
    destruct (isLiteralChar_false c Hrest) as (-> & ->). reflexivity.
  - simpl in Hl. apply andb_true_iff in Hl. destruct Hl as (Hc & Hl).
    destruct (isLiteralChar_cases c Hc) as [-> | (-> & -> & Hd)]; [now apply IH|].
    rewrite overflow_check by lia.
    destruct (result * 10 + (code c - code "0") >? maxValue) eqn:E.
    + pose proof (valueOfDigits_grows literal (result * 10 + (code c - code "0")) Hl
                    ltac:(lia)).
      destruct (valueOfDigits literal (result * 10 + (code c - code "0")) <=? maxValue)
        eqn:E'; [lia|].
      now rewrite skipDigits_literal.
    + rewrite U64_small by lia. apply IH; [assumption | lia].
Qed.

(** X26: on a decimal literal, digits and underscores up to a character
    that is neither, [parseDecimalUnsignedInt] with a [maxValue] of at
    least 9 stops at that character; it returns the number the digits
    denote and reports nothing when that number is at most [maxValue], and
    otherwise returns [maxValue] and reports one error, at the first
    character of the literal. *)
Theorem parseDecimalUnsignedInt_value (literal rest : list ascii) (maxValue : Z)
    (context : string) (parseState : list Error) :
  9 <= maxValue < 2 ^ 64 ->
  forallb isLiteralChar literal = true -> endsLiteral rest ->
  parseDecimalUnsignedInt (literal ++ rest) parseState maxValue context
  = if valueOfDigits literal 0 <=? maxValue
    then (rest, parseState, valueOfDigits literal 0)
    else (rest,
          parseErrorf parseState (literal ++ rest) (context +:+ " is too large"),
          maxValue).
Proof.
  intros Hm Hl Hrest. unfold parseDecimalUnsignedInt.
  apply parseDigits_value; [assumption | lia | assumption | assumption].
Qed.

Lemma parseDecimalUnsignedInt_value_witness :
  9 <= 2 ^ 32 - 1 < 2 ^ 64
  /\ forallb isLiteralChar (chars "4_294_967_296") = true
  /\ endsLiteral (chars ")")
  /\ parseDecimalUnsignedInt (chars "4_294_967_296" ++ chars ")") [] (2 ^ 32 - 1)
       "int literal"
     = if valueOfDigits (chars "4_294_967_296") 0 <=? 2 ^ 32 - 1
       then (chars ")", [], valueOfDigits (chars "4_294_967_296") 0)
       else (chars ")",
             parseErrorf [] (chars "4_294_967_296" ++ chars ")")
               ("int literal" +:+ " is too large"),
             2 ^ 32 - 1).
Proof.
  assert (Hm : 9 <= 2 ^ 32 - 1 < 2 ^ 64) by lia.
  assert (Hl : forallb isLiteralChar (chars "4_294_967_296") = true)
    by (vm_compute; reflexivity).
  assert (Hrest : endsLiteral (chars ")")) by (vm_compute; reflexivity).
  split; [exact Hm|]. split; [exact Hl|]. split; [exact Hrest|].
  exact (parseDecimalUnsignedInt_value (chars "4_294_967_296") (chars ")")
           (2 ^ 32 - 1) "int literal" [] Hm Hl Hrest).
Defined.

(** ** The bound *)

Lemma parseDigits_bound (firstDigit : list ascii) (maxValue : Z) (context : string)
    (nextChar : list ascii) (parseState : list Error) (result : Z) :
  9 <= maxValue < 2 ^ 64 -> 0 <= result <= maxValue ->
  0 <= (parseDigits firstDigit maxValue context nextChar parseState result).2
    <= maxValue.
Proof.
  intros Hm. revert result.
  induction nextChar as [|c nextChar IH]; intros result Hr; simpl; [exact Hr|].
  destruct (c =? "_")%char; [now apply IH|].
  destruct ((code c <? code "0") || (code c >? code "9")) eqn:Hd; [exact Hr|].
  change (code "0") with 48 in *. change (code "9") with 57 in *.
  apply orb_false_iff in Hd.
  rewrite overflow_check by lia.
  destruct (result * 10 + (code c - 48) >? maxValue) eqn:E; simpl; [lia|].
  apply IH. rewrite U64_small by lia. lia.
Qed.

(** X27: the overflow check of [parseDecimalUnsignedInt] is sound from a
    [maxValue] of 9 on: whatever the string, the number returned is at most
    [maxValue].  Below 9 it is not: [maxValue - digit] wraps around for a
    digit above [maxValue], and for the string of that one digit the
    function returns the digit, above [maxValue], and reports nothing. *)
Theorem parseDecimalUnsignedInt_bound (maxValue : Z) :
  0 <= maxValue < 2 ^ 64 ->
  (9 <= maxValue ->
   forall nextChar parseState context,
     0 <= (parseDecimalUnsignedInt nextChar parseState maxValue context).2
       <= maxValue)
  /\ (maxValue < 9 ->
      forall digit rest parseState context,
        maxValue < code digit - code "0" <= 9 -> endsLiteral rest ->
        parseDecimalUnsignedInt (digit :: rest) parseState maxValue context
        = (rest, parseState, code digit - code "0")).
Proof.
  intros Hm. split.
  - intros H9 nextChar parseState context. unfold parseDecimalUnsignedInt.
    apply parseDigits_bound; lia.
  - intros H9 digit rest parseState context Hd Hrest.
    unfold parseDecimalUnsignedInt. simpl.
    change (code "0") with 48 in *. change (code "9") with 57 in *.
    destruct (digit =? "_")%char eqn:Hu.
    { apply Ascii.eqb_eq in Hu. subst digit. change (code "_") with 95 in Hd. lia. }
    destruct (code digit <? 48) eqn:E1; [lia|].
    destruct (code digit >? 57) eqn:E2; [lia|]. simpl.
    assert (Hwrap : U64 (maxValue - (code digit - 48))
                    = 2 ^ 64 + (maxValue - (code digit - 48))).
    { unfold U64. symmetry. apply (Z.mod_unique _ _ (-1)); lia. }
    rewrite Hwrap.
    assert (H10 : 0 < 10) by lia.
    pose proof (Z.div_pos (2 ^ 64 + (maxValue - (code digit - 48))) 10
                  ltac:(lia) H10) as Hq.
    destruct (0 >? (2 ^ 64 + (maxValue - (code digit - 48))) / 10) eqn:E3; [lia|].
    rewrite U64_small by lia. simpl.
    destruct rest as [|c rest]; [reflexivity|]. simpl in *.
    destruct (isLiteralChar_false c Hrest) as (-> & ->). reflexivity.
Qed.

Lemma parseDecimalUnsignedInt_bound_witness :
  0 <= 2 ^ 32 - 1 < 2 ^ 64
  /\ ((9 <= 2 ^ 32 - 1 ->
       forall nextChar parseState context,
         0 <= (parseDecimalUnsignedInt nextChar parseState (2 ^ 32 - 1) context).2
           <= 2 ^ 32 - 1)
      /\ (2 ^ 32 - 1 < 9 ->
          forall digit rest parseState context,
            2 ^ 32 - 1 < code digit - code "0" <= 9 -> endsLiteral rest ->
            parseDecimalUnsignedInt (digit :: rest) parseState (2 ^ 32 - 1) context
            = (rest, parseState, code digit - code "0"))).
Proof.
  assert (Hm : 0 <= 2 ^ 32 - 1 < 2 ^ 64) by lia.
  split; [exact Hm|]. exact (parseDecimalUnsignedInt_bound (2 ^ 32 - 1) Hm).
Defined.

(** With the [maxValue] of [0] that [tryParseInt] passes for a negative
    literal of an unsigned type, the digit is returned as it is. *)
Example parseDecimalUnsignedInt_wraps :
  parseDecimalUnsignedInt (chars "7") [] 0 "int literal" = ([], [], 7).
Proof. vm_compute. reflexivity. Qed.

(** ** Signed and unsigned literals *)

Lemma isLiteralChar_not_sign (c : ascii) :
  isLiteralChar c = true -> (c =? "-")%char = false /\ (c =? "+")%char = false.
Proof.
  intros Hc. split.
  - destruct (c =? "-")%char eqn:E; [|reflexivity].
    apply Ascii.eqb_eq in E. subst c. vm_compute in Hc. discriminate.
  - destruct (c =? "+")%char eqn:E; [|reflexivity].
    apply Ascii.eqb_eq in E. subst c. vm_compute in Hc. discriminate.
Qed.

Lemma parseSign_literal (sign : Sign) (literal rest : list ascii) :
  literal <> [] -> forallb isLiteralChar literal = true ->
  parseSign (signChars sign ++ literal ++ rest)
  = (literal ++ rest, match sign with minusSign => true | _ => false end).
Proof.
  intros Hne Hl. destruct sign; simpl; try reflexivity.
  destruct literal as [|c literal]; [congruence|]. simpl in *.
  apply andb_true_iff in Hl. destruct Hl as (Hc & _).
  destruct (isLiteralChar_not_sign c Hc) as (-> & ->). reflexivity.
Qed.

(** [tryParseInt] on a decimal literal, for a signed type. *)
Lemma tryParseInt_decimal `{Lexer} (bits minSignedValue maxUnsignedValue : Z)
    (sign : Sign) (literal rest : list ascii) (parseState : list Error) :
  9 <= maxUnsignedValue < 2 ^ 64 ->
  (sign = minusSign -> - 2 ^ 63 <= minSignedValue <= -9) ->
  literal <> [] -> forallb isLiteralChar literal = true -> endsLiteral rest ->
  tryParseInt bits t_decimalInt (signChars sign ++ literal ++ rest) parseState
    minSignedValue maxUnsignedValue
  = match sign with
    | minusSign =>
        if valueOfDigits literal 0 <=? - minSignedValue
        then (parseState, Some (U64 (- valueOfDigits literal 0) mod 2 ^ bits), true)
        else (parseErrorf parseState (literal ++ rest) "int literal is too large",
              Some (U64 (- - minSignedValue) mod 2 ^ bits), true)
    | _ =>
        if valueOfDigits literal 0 <=? maxUnsignedValue
        then (parseState, Some (valueOfDigits literal 0 mod 2 ^ bits), true)
        else (parseErrorf parseState (literal ++ rest) "int literal is too large",
              Some (maxUnsignedValue mod 2 ^ bits), true)
    end.
Proof.
  intros Hmax Hmin Hne Hl Hrest. unfold tryParseInt.
  rewrite parseSign_literal by assumption. unfold parseDecimalUnsignedInt.
  destruct sign.
  - rewrite parseDigits_value by (try assumption; lia).
    destruct (valueOfDigits literal 0 <=? maxUnsignedValue);
      now rewrite andb_false_r.
  - rewrite parseDigits_value by (try assumption; lia).
    destruct (valueOfDigits literal 0 <=? maxUnsignedValue);
      now rewrite andb_false_r.
  - specialize (Hmin eq_refl).
    assert (Hneg : U64 (- U64 minSignedValue) = - minSignedValue)
      by (unfold U64; Z.div_mod_to_equations; lia).
    rewrite Hneg. rewrite parseDigits_value by (try assumption; lia).
    assert (Hz : (minSignedValue =? 0) = false) by lia.
    destruct (valueOfDigits literal 0 <=? - minSignedValue); now rewrite Hz.
Qed.

Lemma valueOfDigits_nonneg (literal : list ascii) :
  forallb isLiteralChar literal = true -> 0 <= valueOfDigits literal 0.
Proof. intros Hl. now apply valueOfDigits_grows. Qed.

(** X28: [parseI8], [parseI16], [parseI32] and [parseI64] on a decimal
    literal with an optional sign accept every integer from the smallest
    signed to the largest unsigned value of the type and return it
    converted to the signed type, so [4294967295] is [-1] for [parseI32];
    for an integer outside that range they report that the literal is too
    large and return the smallest value of the type for a negative literal
    and [-1] for a positive one. *)
Theorem parseSigned_decimal `{Lexer} (sign : Sign) (literal rest : list ascii)
    (parseState : list Error) :
  literal <> [] -> forallb isLiteralChar literal = true -> endsLiteral rest ->
  parseI8 t_decimalInt (signChars sign ++ literal ++ rest) parseState
  = signedLiteral 8 I8 parseState (literal ++ rest) (valueOfLiteral sign literal)
  /\ parseI16 t_decimalInt (signChars sign ++ literal ++ rest) parseState
     = signedLiteral 16 I16 parseState (literal ++ rest) (valueOfLiteral sign literal)
  /\ parseI32 t_decimalInt (signChars sign ++ literal ++ rest) parseState
     = signedLiteral 32 I32 parseState (literal ++ rest) (valueOfLiteral sign literal)
  /\ parseI64 t_decimalInt (signChars sign ++ literal ++ rest) parseState
     = signedLiteral 64 I64 parseState (literal ++ rest) (valueOfLiteral sign literal).
Proof.
  intros Hne Hl Hrest. pose proof (valueOfDigits_nonneg literal Hl) as Hv.
  unfold parseI8, parseI16, parseI32, parseI64, signedLiteral.
  rewrite !tryParseInt_decimal by (try assumption; lia).
  set (v := valueOfDigits literal 0) in *.
  assert (Hcases : valueOfLiteral sign literal
                   = match sign with minusSign => - v | _ => v end)
    by (now destruct sign).
  rewrite Hcases. clear Hcases.
  repeat split; destruct sign; simpl;
    repeat match goal with
           | |- context [?a <=? ?b] => destruct (Z.leb_spec a b); simpl
           | |- context [?a <? ?b] => destruct (Z.ltb_spec a b); simpl
           end;
    try lia; f_equal; f_equal;
    unfold I8, I16, I32, I64, U64; Z.div_mod_to_equations; lia.
Qed.

Lemma parseSigned_decimal_witness :
  chars "2_147_483_648" <> []
  /\ forallb isLiteralChar (chars "2_147_483_648") = true
  /\ endsLiteral (chars ")")
  /\ (parseI8 (H := hexits) t_decimalInt
        (signChars minusSign ++ chars "2_147_483_648" ++ chars ")") []
      = signedLiteral 8 I8 [] (chars "2_147_483_648" ++ chars ")")
          (valueOfLiteral minusSign (chars "2_147_483_648"))
      /\ parseI16 (H := hexits) t_decimalInt
           (signChars minusSign ++ chars "2_147_483_648" ++ chars ")") []
         = signedLiteral 16 I16 [] (chars "2_147_483_648" ++ chars ")")
             (valueOfLiteral minusSign (chars "2_147_483_648"))
      /\ parseI32 (H := hexits) t_decimalInt
           (signChars minusSign ++ chars "2_147_483_648" ++ chars ")") []
         = signedLiteral 32 I32 [] (chars "2_147_483_648" ++ chars ")")
             (valueOfLiteral minusSign (chars "2_147_483_648"))
      /\ parseI64 (H := hexits) t_decimalInt
           (signChars minusSign ++ chars "2_147_483_648" ++ chars ")") []
         = signedLiteral 64 I64 [] (chars "2_147_483_648" ++ chars ")")
             (valueOfLiteral minusSign (chars "2_147_483_648"))).
Proof.
  assert (Hne : chars "2_147_483_648" <> []) by (vm_compute; discriminate).
  assert (Hl : forallb isLiteralChar (chars "2_147_483_648") = true)
    by (vm_compute; reflexivity).
  assert (Hrest : endsLiteral (chars ")")) by (vm_compute; reflexivity).
  split; [exact Hne|]. split; [exact Hl|]. split; [exact Hrest|].
  exact (parseSigned_decimal (H := hexits) minusSign (chars "2_147_483_648")
           (chars ")") [] Hne Hl Hrest).
Defined.

(** The literals at the ends of the range of [parseI32], and past them. *)
Example parseI32_literals :
  (parseI32 (H := hexits) t_decimalInt (chars "4294967295") []).2 = Some (-1)
  /\ (parseI32 (H := hexits) t_decimalInt (chars "-2147483648") []).2
     = Some (- 2 ^ 31)
  /\ parseI32 (H := hexits) t_decimalInt (chars "4294967296") []
     = ([{| locus := chars "4294967296"; message := "int literal is too large" |}],
        Some (-1))
  /\ parseI32 (H := hexits) t_decimalInt (chars "-2147483649") []
     = ([{| locus := chars "2147483649"; message := "int literal is too large" |}],
        Some (- 2 ^ 31)).
Proof. vm_compute. repeat split; reflexivity. Qed.

Lemma parseDigits_errors (firstDigit : list ascii) (maxValue : Z) (context : string)
    (nextChar : list ascii) (parseState : list Error) (result : Z) :
  let parseState' :=
    (parseDigits firstDigit maxValue context nextChar parseState result).1.2 in
  parseState' = parseState
  \/ parseState' = parseErrorf parseState firstDigit (context +:+ " is too large").
Proof.
  revert result. induction nextChar as [|c nextChar IH]; intros result; simpl;
    [now left|].
  destruct (c =? "_")%char; [apply IH|].
  destruct ((code c <? code "0") || (code c >? code "9")); [now left|].
  destruct (result >? U64 (maxValue - (code c - code "0")) / 10); [now right|].
  apply IH.
Qed.

(** X29: [parseU32] on a decimal literal without a minus sign returns the
    number the digits denote when it is at most [UINT32_MAX], and otherwise
    reports that the literal is too large and returns [UINT32_MAX].  On a
    literal with a minus sign, [-0] included, it reports that it expected a
    [u32] literal, after at most one report that the literal is too large,
    and throws. *)
Theorem parseU32_decimal `{Lexer} (sign : Sign) (literal rest : list ascii)
    (parseState : list Error) :
  literal <> [] -> forallb isLiteralChar literal = true -> endsLiteral rest ->
  match sign with
  | minusSign =>
      exists parseState',
        parseU32 t_decimalInt (signChars sign ++ literal ++ rest) parseState
        = (parseErrorf parseState' (signChars sign ++ literal ++ rest)
             "expected u32 literal", None)
        /\ (parseState' = parseState
            \/ parseState' = parseErrorf parseState (literal ++ rest)
                               "int literal is too large")
  | _ =>
      parseU32 t_decimalInt (signChars sign ++ literal ++ rest) parseState
      = if valueOfDigits literal 0 <=? 2 ^ 32 - 1
        then (parseState, Some (valueOfDigits literal 0))
        else (parseErrorf parseState (literal ++ rest) "int literal is too large",
              Some (2 ^ 32 - 1))
  end.
Proof.
  intros Hne Hl Hrest. pose proof (valueOfDigits_nonneg literal Hl) as Hv.
  assert (Hplus : forall sign', sign' <> minusSign ->
            parseU32 t_decimalInt (signChars sign' ++ literal ++ rest) parseState
            = if valueOfDigits literal 0 <=? 2 ^ 32 - 1
              then (parseState, Some (valueOfDigits literal 0))
              else (parseErrorf parseState (literal ++ rest)
                      "int literal is too large", Some (2 ^ 32 - 1))).
  { intros sign' Hs. unfold parseU32.
    rewrite tryParseInt_decimal by (try assumption; try lia; congruence).
    destruct sign'; try congruence;
      destruct (Z.leb_spec (valueOfDigits literal 0) (2 ^ 32 - 1)); simpl;
      f_equal; f_equal; unfold U32; Z.div_mod_to_equations; lia. }
  destruct sign; [now apply Hplus | now apply Hplus |].
  unfold parseU32, tryParseInt. rewrite parseSign_literal by assumption.
  unfold parseDecimalUnsignedInt.
  pose proof (parseDigits_errors (literal ++ rest) (U64 (- U64 0)) "int literal"
                (literal ++ rest) parseState 0) as Herr.
  destruct (parseDigits (literal ++ rest) (U64 (- U64 0)) "int literal"
              (literal ++ rest) parseState 0) as [[nextChar' parseState'] u64].
  simpl in Herr. simpl. exists parseState'. split; [reflexivity | exact Herr].
Qed.

Lemma parseU32_decimal_witness :
  chars "0" <> [] /\ forallb isLiteralChar (chars "0") = true
  /\ endsLiteral (chars ")")
  /\ exists parseState',
       parseU32 (H := hexits) t_decimalInt
         (signChars minusSign ++ chars "0" ++ chars ")") []
       = (parseErrorf parseState' (signChars minusSign ++ chars "0" ++ chars ")")
            "expected u32 literal", None)
       /\ (parseState' = []
           \/ parseState' = parseErrorf [] (chars "0" ++ chars ")")
                              "int literal is too large").
Proof.
  assert (Hne : chars "0" <> []) by (vm_compute; discriminate).
  assert (Hl : forallb isLiteralChar (chars "0") = true) by (vm_compute; reflexivity).
  assert (Hrest : endsLiteral (chars ")")) by (vm_compute; reflexivity).
  split; [exact Hne|]. split; [exact Hl|]. split; [exact Hrest|].
  exact (parseU32_decimal (H := hexits) minusSign (chars "0") (chars ")") []
           Hne Hl Hrest).
Defined.

(** ** Hexadecimal literals *)

Lemma hexits_ok : LexerOk (H := hexits).
Proof.
  intros c hexit. simpl.
  destruct ((48 <=? code c) && (code c <=? 57)) eqn:E1;
    [intros [= <-]; lia|].
  destruct ((97 <=? code c) && (code c <=? 102)) eqn:E2;
    [intros [= <-]; lia|].
  destruct ((65 <=? code c) && (code c <=? 70)) eqn:E3;
    [intros [= <-]; lia | discriminate].
Qed.

Lemma parseHexits_bound `{Lexer} (firstHexit : list ascii) (maxValue : Z)
    (nextChar : list ascii) (parseState : list Error) (result : Z) :
  LexerOk -> 15 <= maxValue < 2 ^ 64 -> 0 <= result <= maxValue ->
  let '(_, parseState', result') :=
    parseHexits firstHexit maxValue nextChar parseState result in
  0 <= result' <= maxValue
  /\ (parseState' = parseState
      \/ parseState' = parseErrorf parseState firstHexit
                         "integer literal is too large"
         /\ result' = maxValue).
Proof.
  intros Hlex Hm. revert result.
  induction nextChar as [|c nextChar IH]; intros result Hr; simpl;
    [split; [exact Hr | now left]|].
  destruct (c =? "_")%char; [now apply IH|].
  destruct (tryParseHexit c) as [hexit|] eqn:Hh; [|split; [exact Hr | now left]].
  apply Hlex in Hh. rewrite U64_small by lia.
  assert (H16 : 16 <> 0) by lia.
  pose proof (Z.div_mod (maxValue - hexit) 16 H16).
  pose proof (Z.mod_pos_bound (maxValue - hexit) 16 ltac:(lia)).
  destruct (result >? (maxValue - hexit) / 16) eqn:E.
  - split; [lia | right; split; reflexivity].
  - apply IH. rewrite U64_small by lia. lia.
Qed.

(** X30: with hexits below 16 and a [maxValue] of at least 15,
    [parseHexUnsignedInt] returns a number that is at most [maxValue],
    whatever the string; it reports at most one error, that the literal is
    too large, at the [0] of its [0x], and then returns [maxValue]. *)
Theorem parseHexUnsignedInt_bound `{Lexer} (nextChar : list ascii)
    (parseState : list Error) (maxValue : Z) :
  LexerOk -> 15 <= maxValue < 2 ^ 64 ->
  let '(_, parseState', result) := parseHexUnsignedInt nextChar parseState maxValue in
  0 <= result <= maxValue
  /\ (parseState' = parseState
      \/ parseState' = parseErrorf parseState nextChar "integer literal is too large"
         /\ result = maxValue).
Proof.
  intros Hlex Hm. unfold parseHexUnsignedInt.
  apply parseHexits_bound; [assumption | assumption | lia].
Qed.

Lemma parseHexUnsignedInt_bound_witness :
  LexerOk (H := hexits) /\ 15 <= 2 ^ 32 - 1 < 2 ^ 64
  /\ let '(_, parseState', result) :=
       parseHexUnsignedInt (H := hexits) (chars "0x1_0000_0000") [] (2 ^ 32 - 1) in
     0 <= result <= 2 ^ 32 - 1
     /\ (parseState' = []
         \/ parseState' = parseErrorf [] (chars "0x1_0000_0000")
                            "integer literal is too large"
            /\ result = 2 ^ 32 - 1).
Proof.
  assert (Hm : 15 <= 2 ^ 32 - 1 < 2 ^ 64) by lia.
  split; [exact hexits_ok|]. split; [exact Hm|].
  exact (parseHexUnsignedInt_bound (H := hexits) (chars "0x1_0000_0000") []
           (2 ^ 32 - 1) hexits_ok Hm).
Defined.

(** After a hexadecimal literal that is too large the pointer stops at the
    first underscore; after a decimal one it is past the literal. *)
Example hex_overflow_stops_at_underscore :
  (parseHexUnsignedInt (H := hexits) (chars "0x1_0000_0000_0") [] (2 ^ 32 - 1)).1.1
  = chars "_0"
  /\ (parseDecimalUnsignedInt (chars "4_294_967_296_0") [] (2 ^ 32 - 1)
        "int literal").1.1 = [].
Proof. vm_compute. split; reflexivity. Qed.

End WASTTheorems.
